(** * A shallow embedding of json_parser.py

    The lexer ([_TOKEN_RE], [lex]), the string validator
    ([_validate_string]), the one-slot look-ahead ([LookAhead]) and the
    recursive-descent parser ([_parse_value], [_parse_array],
    [_parse_object], [parse]) of [json_parser.py], followed by the
    properties of the specification that concern them.

    Conventions.
    - A Python [str] is a list of code points ([text]); offsets are [nat].
    - A raised exception is a value of [exn]; a function that may raise
      returns a [result].
    - The generator returned by [lex] is the list of tokens it yields
      followed by the way it ends ([Gen]).
    - What the interpreter brings is not part of the repository: what its
      Unicode character database says of code points above the ASCII range
      and the longest digit string that [int] converts are the parameter
      [UnicodeData]; the ASCII range is fixed by the definitions.
    - The depth of recursion and the memory of the interpreter are not
      modelled. *)

From Stdlib Require Import String Ascii List Sorted NArith ZArith Bool Lia.
Import ListNotations.

(** ** Text *)

Definition char := N.
Definition text := list char.

Definition ord (a : ascii) : char := N_of_ascii a.

Definition text_of (s : string) : text := map ord (list_ascii_of_string s).

Definition dquote : char := 34%N.
Definition backslash : char := 92%N.
Definition newline : char := 10%N.

(** Inputs of the examples are written with an apostrophe where the JSON
    text has a double quote: [jtext "{'a':1}"] is the text [{"a":1}]. *)
Definition jtext (s : string) : text :=
  map (fun c => if N.eqb c 39 then dquote else c) (text_of s).

Fixpoint text_eqb (a b : text) : bool :=
  match a, b with
  | [], [] => true
  | x :: a', y :: b' => N.eqb x y && text_eqb a' b'
  | _, _ => false
  end.

(** [c in s] for a one-character [c]. *)
Definition mem (c : char) (s : text) : bool := existsb (N.eqb c) s.

(** ** The interpreter: the Unicode database outside the ASCII range,
    and the limit of [int] *)

Record UnicodeData := {
  (** [str.isspace] of a code point above 127 *)
  uni_space : char -> bool;
  (** the decimal-digit value of a code point above 127, if it has one *)
  uni_decimal : char -> option N;
  (** the code point a character name stands for *)
  uni_name : list N -> option char;
  (** [sys.get_int_max_str_digits()]: the most digits of a text that
      [int] converts, 0 when there is no limit *)
  int_max_str_digits : nat
}.

(** A database with no digit, space or name above the ASCII range, and
    the limit of 4300 digits that the interpreter starts with. *)
Definition ascii_only : UnicodeData :=
  {| uni_space := fun _ => false;
     uni_decimal := fun _ => None;
     uni_name := fun _ => None;
     int_max_str_digits := 4300 |}.

(** ** Token kinds and regular-expression matches *)

Inductive kind :=
| STRING | NUMBER | LITERAL | BRACE | BRACKET | COMMA | COLON | WHITESPACE.

Definition kind_eqb (a b : kind) : bool :=
  match a, b with
  | STRING, STRING | NUMBER, NUMBER | LITERAL, LITERAL | BRACE, BRACE
  | BRACKET, BRACKET | COMMA, COMMA | COLON, COLON
  | WHITESPACE, WHITESPACE => true
  | _, _ => false
  end.

(** A match object: [m.lastgroup], [m.group()], [m.start()]. *)
Record Match := {
  m_kind : kind;
  m_group : text;
  m_start : nat
}.

Definition m_end (m : Match) : nat := m_start m + length (m_group m).

(** ** Values, tokens and exceptions *)

(** The Python values a token carries and [parse] returns. A float is
    kept as the numeral it was read from; a dict is the list of its items in
    insertion order, its keys being strings. *)
#[local] Unset Elimination Schemes.
Inductive pyval :=
| PyStr (s : text)
| PyInt (z : Z)
| PyFloat (numeral : text)
| PyBool (b : bool)
| PyNone
| PyList (items : list pyval)
| PyDict (items : list (text * pyval)).
#[local] Set Elimination Schemes.

(** [Token((kind, value, start))] *)
Record Token := {
  tok_kind : kind;
  tok_value : pyval;
  tok_offset : nat
}.

(** The messages of the [SyntaxError]s the module raises, with what they
    report. *)
Inductive syntax_error :=
| InvalidCharacter (offset : nat)
    (* invalid character at offset .. *)
| TrailingBackslash (offset : nat)
    (* trailing backslash in string at offset .. *)
| UnterminatedString (offset : nat)
    (* unterminated string starting at offset .. *)
| ShortUnicodeEscape (offset : nat)
    (* short unicode escape at offset .. *)
| InvalidHexEscape (seq : text) (offset : nat)
    (* invalid hex escape .. at offset .. *)
| InvalidEscape (esc : char) (offset : nat)
    (* invalid escape \.. at offset .. *)
| BadEscapeSequence
    (* bad escape sequence: .. *)
| UnpairedSurrogate
    (* unpaired surrogate in string *)
| UnexpectedEndOfInput
    (* unexpected end of input *)
| UnexpectedToken (k : kind) (v : pyval) (offset : nat)
    (expected_kind : kind) (expected_value : option text)
    (* unexpected token .. '..' at offset .. - expected .. *)
| ValueExpected (k : kind) (v : pyval)
    (* unexpected token .. '..' - value expected *)
| DepthLimitExceeded
    (* depth limit exceeded *)
| DuplicateKey
    (* duplicate key *)
| RootMustBeContainer (k : kind) (v : pyval) (offset : nat)
    (* payload must be object or array at root - got .. '..' at offset .. *)
| ExtraData (offset : nat).
    (* extra data after root value at offset .. *)

Inductive exn :=
| SyntaxError (e : syntax_error)
| StopIteration
| UnicodeEncodeError
| ValueError
| KeyError
| TypeError.

Inductive result (A : Type) :=
| Return (a : A)
| Raise (e : exn).

Arguments Return {A} a.
Arguments Raise {A} e.

(** A generator that has not been started: the tokens it will yield, and
    how it ends after the last of them, by returning ([None], which the
    consumer sees as [StopIteration]) or by raising. *)
Record Gen := {
  yields : list Token;
  finish : option exn
}.

Definition gen_yield (t : Token) (g : Gen) : Gen :=
  {| yields := t :: yields g; finish := finish g |}.

Definition gen_return : Gen := {| yields := []; finish := None |}.

Definition gen_raise (e : exn) : Gen := {| yields := []; finish := Some e |}.

Section Lexer.

Variable udb : UnicodeData.

Open Scope N_scope.

(** *** Character classes of a [str] pattern *)

(** [\s]: the ASCII range has 0x09-0x0D, 0x1C-0x1F and the space. *)
Definition is_space (c : char) : bool :=
  if c <? 128
  then ((9 <=? c) && (c <=? 13)) || ((28 <=? c) && (c <=? 32))
  else uni_space udb c.

Definition decimal_value (c : char) : option N :=
  if c <? 128
  then if (48 <=? c) && (c <=? 57) then Some (c - 48) else None
  else uni_decimal udb c.

(** [\d] *)
Definition is_digit (c : char) : bool :=
  match decimal_value c with Some _ => true | None => false end.

(** *** The alternatives of [_TOKEN_RE]

    Each matcher is given the text from the current position on and
    returns the lexeme it matches there with the text left after it. *)

(** The interior of [_STRING] and its closing quote: a starred group of
    either one character that is no quote, no backslash and no control
    character (0x00-0x1F), or a backslash and one character that is not a
    newline ([_ESCAPE], a dot without DOTALL); then a quote. The two
    alternatives under the star start with different characters and none
    can consume a quote, so the star has one way to advance and giving an
    iteration back never reaches a quote. *)
Fixpoint string_body (s : text) : option (text * text) :=
  match s with
  | [] => None
  | c :: s1 =>
      if c =? dquote then Some ([c], s1)
      else if c =? backslash then
        match s1 with
        | [] => None
        | e :: s2 =>
            if e =? newline then None
            else match string_body s2 with
                 | Some (lx, r) => Some (c :: e :: lx, r)
                 | None => None
                 end
        end
      else if c <? 32 then None
      else match string_body s1 with
           | Some (lx, r) => Some (c :: lx, r)
           | None => None
           end
  end.

(** [_STRING] *)
Definition match_string (s : text) : option (text * text) :=
  match s with
  | c :: s1 =>
      if c =? dquote then
        match string_body s1 with
        | Some (lx, r) => Some (c :: lx, r)
        | None => None
        end
      else None
  | [] => None
  end.

(** A greedy run of [\d], possibly empty. *)
Fixpoint digits (s : text) : text * text :=
  match s with
  | c :: s1 =>
      if is_digit c then let (d, r) := digits s1 in (c :: d, r) else ([], s)
  | [] => ([], [])
  end.

(** The integer part: [0], or one of [1-9] and a run of [\d]. *)
Definition int_part (s : text) : option (text * text) :=
  match s with
  | c :: s1 =>
      if c =? 48 then Some ([c], s1)
      else if (49 <=? c) && (c <=? 57)
           then let (d, r) := digits s1 in Some (c :: d, r)
           else None
  | [] => None
  end.

(** The optional fraction: a dot and one or more [\d]. *)
Definition frac_part (s : text) : text * text :=
  match s with
  | c :: s1 =>
      if c =? 46 then
        match digits s1 with
        | ([], _) => ([], s)
        | (d, r) => (c :: d, r)
        end
      else ([], s)
  | [] => ([], s)
  end.

(** The optional exponent: [e] or [E], an optional sign, one or more
    [\d]. A sign with no digit after it is given back, and the group with
    it. *)
Definition exp_part (s : text) : text * text :=
  match s with
  | c :: s1 =>
      if (c =? 101) || (c =? 69) then
        match s1 with
        | g :: s2 =>
            if (g =? 43) || (g =? 45) then
              match digits s2 with
              | ([], _) => ([], s)
              | (d, r) => (c :: g :: d, r)
              end
            else
              match digits s1 with
              | ([], _) => ([], s)
              | (d, r) => (c :: d, r)
              end
        | [] => ([], s)
        end
      else ([], s)
  | [] => ([], s)
  end.

(** The optional minus sign. *)
Definition minus_part (s : text) : text * text :=
  match s with
  | c :: s1 => if c =? 45 then ([c], s1) else ([], s)
  | [] => ([], s)
  end.

(** [_NUMBER]. Every part after the integer part is optional, so the
    greedy choice is never revised. *)
Definition match_number (s : text) : option (text * text) :=
  let (m, s1) := minus_part s in
  match int_part s1 with
  | None => None
  | Some (i, s2) =>
      let (f, s3) := frac_part s2 in
      let (e, s4) := exp_part s3 in
      Some (m ++ i ++ f ++ e, s4)
  end.

(** A literal word of the pattern at the head of [s]. *)
Fixpoint match_word (w s : text) : option (text * text) :=
  match w with
  | [] => Some ([], s)
  | a :: w1 =>
      match s with
      | c :: s1 =>
          if c =? a then
            match match_word w1 s1 with
            | Some (lx, r) => Some (c :: lx, r)
            | None => None
            end
          else None
      | [] => None
      end
  end.

(** [_LITERAL]: [true|false|null] *)
Definition match_literal (s : text) : option (text * text) :=
  match match_word (text_of "true") s with
  | Some m => Some m
  | None =>
      match match_word (text_of "false") s with
      | Some m => Some m
      | None => match_word (text_of "null") s
      end
  end.

(** One character out of a set. *)
Definition match_one (set : text) (s : text) : option (text * text) :=
  match s with
  | c :: s1 => if mem c set then Some ([c], s1) else None
  | [] => None
  end.

(** A greedy run of [\s], possibly empty. *)
Fixpoint spaces (s : text) : text * text :=
  match s with
  | c :: s1 =>
      if is_space c then let (d, r) := spaces s1 in (c :: d, r) else ([], s)
  | [] => ([], [])
  end.

(** [_WHITESPACE]: one or more [\s]. *)
Definition match_whitespace (s : text) : option (text * text) :=
  match spaces s with
  | ([], _) => None
  | (d, r) => Some (d, r)
  end.

(** The first alternative that matches, in the order of the pattern. *)
Definition alternatives : list (kind * (text -> option (text * text))) :=
  [ (STRING, match_string);
    (NUMBER, match_number);
    (LITERAL, match_literal);
    (BRACE, match_one (text_of "{}"));
    (BRACKET, match_one (text_of "[]"));
    (COMMA, match_one (text_of ","));
    (COLON, match_one (text_of ":"));
    (WHITESPACE, match_whitespace) ].

Fixpoint first_match (alts : list (kind * (text -> option (text * text))))
  (s : text) : option (kind * text * text) :=
  match alts with
  | [] => None
  | (k, f) :: alts' =>
      match f s with
      | Some (lx, r) => Some (k, lx, r)
      | None => first_match alts' s
      end
  end.

(** [_TOKEN_RE.match] at the head of [s]. *)
Definition match_token (s : text) : option (kind * text * text) :=
  first_match alternatives s.

Close Scope N_scope.

(** *** [_TOKEN_RE.finditer]

    The matches of the pattern from left to right: where the pattern
    matches, the match is reported and the search goes on after it; where it
    does not, the search moves one character on. [skip] counts the
    characters of the last match still to be passed over, so that the
    recursion is on the text. *)
Fixpoint finditer_from (s : text) (pos skip : nat) : list Match :=
  match skip with
  | S k =>
      match s with
      | [] => []
      | _ :: s1 => finditer_from s1 (S pos) k
      end
  | O =>
      match match_token s with
      | Some (k, lx, _) =>
          {| m_kind := k; m_group := lx; m_start := pos |}
          :: match s with
             | [] => []
             | _ :: s1 => finditer_from s1 (S pos) (length lx - 1)
             end
      | None =>
          match s with
          | [] => []
          | _ :: s1 => finditer_from s1 (S pos) 0
          end
      end
  end.

Definition finditer (t : text) : list Match := finditer_from t 0 0.


(** *** String validation *)

Open Scope N_scope.

Definition hexdigits : text := text_of "0123456789abcdefABCDEF".

(** The characters of [esc in ...]: the quote and [\/bfnrt]. *)
Definition short_escapes : text := dquote :: text_of "\/bfnrt".

Close Scope N_scope.

(** The [while i < n] loop over [inner]; [rest] is [inner[i:]]. *)
Fixpoint check_escapes (rest : text) (i token_start : nat) : result unit :=
  match rest with
  | [] => Return tt
  | ch :: r1 =>
      if N.eqb ch backslash then
        match r1 with
        | [] => Raise (SyntaxError (TrailingBackslash (token_start + 1 + i)))
        | esc :: r2 =>
            if N.eqb esc (ord "u") then
              match r2 with
              | h1 :: h2 :: h3 :: h4 :: r6 =>
                  if forallb (fun c => mem c hexdigits) [h1; h2; h3; h4]
                  then check_escapes r6 (i + 6) token_start
                  else Raise (SyntaxError
                         (InvalidHexEscape [ch; esc; h1; h2; h3; h4]
                            (token_start + 1 + i)))
              | _ =>
                  Raise (SyntaxError (ShortUnicodeEscape (token_start + 1 + i)))
              end
            else if mem esc short_escapes then
              check_escapes r2 (i + 2) token_start
            else
              Raise (SyntaxError (InvalidEscape esc (token_start + 1 + i)))
        end
      else check_escapes r1 (i + 1) token_start
  end.

Open Scope N_scope.

(** [str.encode("utf-8")]: the bytes of one code point; a surrogate has
    none ([UnicodeEncodeError]). *)
Definition utf8_char (c : char) : option (list N) :=
  if c <? 0x80 then Some [c]
  else if c <? 0x800 then Some [0xC0 + c / 64; 0x80 + c mod 64]
  else if (0xD800 <=? c) && (c <=? 0xDFFF) then None
  else if c <? 0x10000 then
    Some [0xE0 + c / 4096; 0x80 + (c / 64) mod 64; 0x80 + c mod 64]
  else
    Some [0xF0 + c / 262144; 0x80 + (c / 4096) mod 64;
          0x80 + (c / 64) mod 64; 0x80 + c mod 64].

Fixpoint utf8_encode (s : text) : option (list N) :=
  match s with
  | [] => Some []
  | c :: s1 =>
      match utf8_char c, utf8_encode s1 with
      | Some b, Some bs => Some (b ++ bs)
      | _, _ => None
      end
  end.

(** The value of a hexadecimal digit. *)
Definition hex_digit (c : N) : option N :=
  if (48 <=? c) && (c <=? 57) then Some (c - 48)
  else if (97 <=? c) && (c <=? 102) then Some (c - 87)
  else if (65 <=? c) && (c <=? 70) then Some (c - 55)
  else None.

Fixpoint hex_value (ds : list N) (acc : N) : option N :=
  match ds with
  | [] => Some acc
  | d :: ds1 =>
      match hex_digit d with
      | Some v => hex_value ds1 (acc * 16 + v)
      | None => None
      end
  end.

(** [\xXX], [\uXXXX], [\UXXXXXXXX]: [count] hexadecimal digits, of a code
    point that exists. The result is the code point and how many bytes
    were read. *)
Definition hex_escape (count : nat) (s : list N) : option (text * nat) :=
  let ds := firstn count s in
  if Nat.eqb (length ds) count then
    match hex_value ds 0 with
    | Some ch => if ch <=? 0x10FFFF then Some ([ch], count) else None
    | None => None
    end
  else None.

Definition is_octal (c : N) : bool := (48 <=? c) && (c <=? 55).

(** [\o], [\oo], [\ooo]: up to two more octal digits after the first. *)
Definition octal_escape (first : N) (s : list N) : text * nat :=
  match s with
  | d2 :: s1 =>
      if is_octal d2 then
        match s1 with
        | d3 :: _ =>
            if is_octal d3
            then ([((first - 48) * 8 + (d2 - 48)) * 8 + (d3 - 48)], 2%nat)
            else ([(first - 48) * 8 + (d2 - 48)], 1%nat)
        | [] => ([(first - 48) * 8 + (d2 - 48)], 1%nat)
        end
      else ([first - 48], 0%nat)
  | [] => ([first - 48], 0%nat)
  end.

(** The name of [\N{name}]: the bytes up to the closing brace. *)
Fixpoint name_upto_brace (s : list N) : option (list N) :=
  match s with
  | [] => None
  | c :: s1 =>
      if c =? 125 then Some []
      else match name_upto_brace s1 with
           | Some n => Some (c :: n)
           | None => None
           end
  end.

Definition name_escape (s : list N) : option (text * nat) :=
  match s with
  | c :: s1 =>
      if c =? 123 then
        match name_upto_brace s1 with
        | Some [] => None
        | Some n =>
            match uni_name udb n with
            | Some ch => Some ([ch], (length n + 2)%nat)
            | None => None
            end
        | None => None
        end
      else None
  | [] => None
  end.

(** What the codec writes for the escape whose character after the
    backslash is [e], [s] being the bytes after [e], and how many bytes of
    [s] it reads; [None] is [UnicodeDecodeError]. An escape the codec does
    not know is written as it stands, backslash included. *)
Definition escape_seq (e : N) (s : list N) : option (text * nat) :=
  if e =? 10 then Some ([], 0%nat)
  else if e =? 92 then Some ([92], 0%nat)
  else if e =? 39 then Some ([39], 0%nat)
  else if e =? 34 then Some ([34], 0%nat)
  else if e =? 98 then Some ([8], 0%nat)
  else if e =? 102 then Some ([12], 0%nat)
  else if e =? 116 then Some ([9], 0%nat)
  else if e =? 110 then Some ([10], 0%nat)
  else if e =? 114 then Some ([13], 0%nat)
  else if e =? 118 then Some ([11], 0%nat)
  else if e =? 97 then Some ([7], 0%nat)
  else if is_octal e then Some (octal_escape e s)
  else if e =? 120 then hex_escape 2 s
  else if e =? 117 then hex_escape 4 s
  else if e =? 85 then hex_escape 8 s
  else if e =? 78 then name_escape s
  else Some ([92; e], 0%nat).

Close Scope N_scope.

(** [bytes.decode("unicode_escape")]: a byte that is not a backslash
    stands for the code point of its value (Latin-1); a backslash starts an
    escape of Python's string literals. [skip] counts the bytes of the
    last escape still to be passed over. *)
Fixpoint unicode_escape_from (s : list N) (skip : nat) : option text :=
  match s with
  | [] => Some []
  | c :: s1 =>
      match skip with
      | S k => unicode_escape_from s1 k
      | O =>
          if N.eqb c backslash then
            match s1 with
            | [] => None
            | e :: s2 =>
                match escape_seq e s2 with
                | Some (out, n) =>
                    match unicode_escape_from s1 (S n) with
                    | Some t => Some (out ++ t)
                    | None => None
                    end
                | None => None
                end
            end
          else
            match unicode_escape_from s1 0 with
            | Some t => Some (c :: t)
            | None => None
            end
      end
  end.

Definition unicode_escape_decode (b : list N) : option text :=
  unicode_escape_from b 0.

Definition is_surrogate (code : char) : bool :=
  N.leb 0xD800 code && N.leb code 0xDFFF.

Definition starts_with (c : char) (s : text) : bool :=
  match s with
  | x :: _ => N.eqb x c
  | [] => false
  end.

Definition ends_with (c : char) (s : text) : bool :=
  starts_with c (rev s).

Definition _validate_string (raw : text) (token_start : nat) : result text :=
  if (length raw <? 2)%nat || negb (starts_with dquote raw)
     || negb (ends_with dquote raw)
  then
    if (0 <? length raw)%nat && ends_with backslash raw
    then Raise (SyntaxError
                  (TrailingBackslash (token_start + length raw - 1)))
    else Raise (SyntaxError (UnterminatedString token_start))
  else
    let inner := removelast (tl raw) in
    match check_escapes inner 0 token_start with
    | Raise e => Raise e
    | Return _ =>
        match utf8_encode inner with
        | None => Raise UnicodeEncodeError
        | Some encoded =>
            match unicode_escape_decode encoded with
            | None => Raise (SyntaxError BadEscapeSequence)
            | Some decoded =>
                if existsb is_surrogate decoded
                then Raise (SyntaxError UnpairedSurrogate)
                else Return decoded
            end
        end
    end.

(** *** Token values *)

(** [int(value)] on a lexeme of [_NUMBER]: an optional minus sign and
    decimal digits. Integers are unbounded, but [int] raises [ValueError]
    on a text of more digits than the limit of the interpreter, when there
    is one; it looks at the limit only past 640 digits
    ([sys.int_info.str_digits_check_threshold]). *)
Definition digits_refused (n : nat) : bool :=
  (640 <? n)%nat && (0 <? int_max_str_digits udb)%nat
  && (int_max_str_digits udb <? n)%nat.

Fixpoint digits_value (s : text) (acc : N) : option N :=
  match s with
  | [] => Some acc
  | c :: s1 =>
      match decimal_value c with
      | Some d => digits_value s1 (acc * 10 + d)%N
      | None => None
      end
  end.

Definition py_int (s : text) : option Z :=
  match s with
  | [] => None
  | c :: s1 =>
      if N.eqb c 45 then
        match s1 with
        | [] => None
        | _ =>
            if digits_refused (length s1) then None
            else option_map (fun n => Z.opp (Z.of_N n)) (digits_value s1 0)
        end
      else
        if digits_refused (length s) then None
        else option_map Z.of_N (digits_value s 0)
  end.

(** [any(c in value for c in ".eE")] *)
Definition has_float_mark (value : text) : bool :=
  existsb (fun c => mem c value) (text_of ".eE").

(** [float(value) if any(...) else int(value)] *)
Definition number_value (value : text) : result pyval :=
  if has_float_mark value then Return (PyFloat value)
  else match py_int value with
       | Some z => Return (PyInt z)
       | None => Raise ValueError
       end.

(** The look-up in the dict of the three literals. *)
Definition literal_value (value : text) : result pyval :=
  if text_eqb value (text_of "true") then Return (PyBool true)
  else if text_eqb value (text_of "false") then Return (PyBool false)
  else if text_eqb value (text_of "null") then Return PyNone
  else Raise KeyError.

(** The value [lex] gives the token of a match. *)
Definition token_value (m : Match) : result pyval :=
  match m_kind m with
  | STRING =>
      match _validate_string (m_group m) (m_start m) with
      | Return v => Return (PyStr v)
      | Raise e => Raise e
      end
  | NUMBER => number_value (m_group m)
  | LITERAL => literal_value (m_group m)
  | _ => Return (PyStr (m_group m))
  end.

(** *** [lex] *)

(** The [for] loop of [lex] over the matches still to come, and what
    follows it; [n] is [len(text)]. *)
Fixpoint lex_loop (ms : list Match) (pos n : nat) : Gen :=
  match ms with
  | [] =>
      if negb (pos =? n)%nat
      then gen_raise (SyntaxError (InvalidCharacter pos))
      else gen_return
  | m :: ms1 =>
      if negb (m_start m =? pos)%nat
      then gen_raise (SyntaxError (InvalidCharacter pos))
      else
        let pos1 := m_end m in
        match m_kind m with
        | WHITESPACE => lex_loop ms1 pos1 n
        | k =>
            match token_value m with
            | Raise e => gen_raise e
            | Return value =>
                gen_yield
                  {| tok_kind := k; tok_value := value;
                     tok_offset := m_start m |}
                  (lex_loop ms1 pos1 n)
            end
        end
  end.

Definition lex (t : text) : Gen := lex_loop (finditer t) 0 (length t).

End Lexer.

(** ** The look-ahead *)

(** [next] of a generator. *)
Definition gen_next (g : Gen) : result (Token * Gen) :=
  match yields g with
  | t :: ts => Return (t, {| yields := ts; finish := finish g |})
  | [] =>
      match finish g with
      | Some e => Raise e
      | None => Raise StopIteration
      end
  end.

(** [_buf] is written with its last element first. *)
Record LookAhead := {
  _iter : Gen;
  _buf : list Token
}.

Definition LookAhead_init (g : Gen) : LookAhead :=
  {| _iter := g; _buf := [] |}.

(** [LookAhead.__next__] *)
Definition la_next (la : LookAhead) : result (Token * LookAhead) :=
  match _buf la with
  | t :: b => Return (t, {| _iter := _iter la; _buf := b |})
  | [] =>
      match gen_next (_iter la) with
      | Return (t, g) => Return (t, {| _iter := g; _buf := [] |})
      | Raise e => Raise e
      end
  end.

(** [LookAhead.peek] *)
Definition peek (la : LookAhead) : result (Token * LookAhead) :=
  match _buf la with
  | [] =>
      match gen_next (_iter la) with
      | Return (t, g) => Return (t, {| _iter := g; _buf := [t] |})
      | Raise e => Raise e
      end
  | t :: _ => Return (t, la)
  end.

(** ** The parser *)

(** A computation on the look-ahead that returns, raises, or ([None]) has
    used up the fuel that bounds the recursion of the model. *)
Definition M (A : Type) : Type := LookAhead -> option (result (A * LookAhead)).

Definition ret {A} (a : A) : M A := fun la => Some (Return (a, la)).

Definition raise {A} (e : syntax_error) : M A :=
  fun _ => Some (Raise (SyntaxError e)).

Definition out_of_fuel {A} : M A := fun _ => None.

Definition bind {A B} (m : M A) (f : A -> M B) : M B :=
  fun la =>
    match m la with
    | Some (Return (a, la1)) => f a la1
    | Some (Raise e) => Some (Raise e)
    | None => None
    end.

Definition lift {A} (f : LookAhead -> result (A * LookAhead)) : M A :=
  fun la => Some (f la).

(** [try: m  except StopIteration: raise SyntaxError("unexpected end of
    input")] *)
Definition or_end_of_input {A} (m : M A) : M A :=
  fun la =>
    match m la with
    | Some (Raise StopIteration) =>
        Some (Raise (SyntaxError UnexpectedEndOfInput))
    | r => r
    end.

Declare Scope parser_scope.
Delimit Scope parser_scope with parser.
Notation "x <- m ;; k" := (bind m (fun x => k))
  (at level 61, m at next level, right associativity) : parser_scope.
Notation "m ;;; k" := (bind m (fun _ => k))
  (at level 61, right associativity) : parser_scope.
Open Scope parser_scope.

(** [value == s] for a string [s]. *)
Definition is_str (value : pyval) (s : text) : bool :=
  match value with
  | PyStr t => text_eqb t s
  | _ => false
  end.

Definition _expect (expected_kind : kind) (expected_value : option text)
  : M pyval :=
  tok <- or_end_of_input (lift la_next) ;;
  if negb (kind_eqb (tok_kind tok) expected_kind)
     || match expected_value with
        | Some v => negb (is_str (tok_value tok) v)
        | None => false
        end
  then raise (UnexpectedToken (tok_kind tok) (tok_value tok) (tok_offset tok)
                expected_kind expected_value)
  else ret (tok_value tok).

(** [key in obj] *)
Fixpoint dict_has (key : text) (obj : list (text * pyval)) : bool :=
  match obj with
  | [] => false
  | (k, _) :: obj1 => text_eqb k key || dict_has key obj1
  end.

(** [obj[key] = value]: a key already there keeps its place. *)
Fixpoint dict_set (key : text) (value : pyval) (obj : list (text * pyval))
  : list (text * pyval) :=
  match obj with
  | [] => [(key, value)]
  | (k, v) :: obj1 =>
      if text_eqb k key then (k, value) :: obj1
      else (k, v) :: dict_set key value obj1
  end.

(** [pk[0] == kind and pk[1] == s] *)
Definition tok_is (pk : Token) (k : kind) (s : string) : bool :=
  kind_eqb (tok_kind pk) k && is_str (tok_value pk) (text_of s).

(** The three procedures, and the [while True] loops of the two
    containers with the list or dict built so far. Each call uses one unit
    of [fuel]. *)
Fixpoint _parse_value (fuel : nat) (depth max_depth : Z) (allow_dup : bool)
  {struct fuel} : M pyval :=
  match fuel with
  | O => out_of_fuel
  | S fuel1 =>
      if (depth >? max_depth)%Z then raise DepthLimitExceeded
      else
        tok <- or_end_of_input (lift la_next) ;;
        match tok_kind tok with
        | STRING | NUMBER | LITERAL => ret (tok_value tok)
        | _ =>
            if tok_is tok BRACE "{" then
              _parse_object fuel1 (depth + 1) max_depth allow_dup
            else if tok_is tok BRACKET "[" then
              _parse_array fuel1 (depth + 1) max_depth allow_dup
            else raise (ValueExpected (tok_kind tok) (tok_value tok))
        end
  end

with _parse_array (fuel : nat) (depth max_depth : Z) (allow_dup : bool)
  {struct fuel} : M pyval :=
  match fuel with
  | O => out_of_fuel
  | S fuel1 =>
      pk <- or_end_of_input (lift peek) ;;
      if tok_is pk BRACKET "]" then
        lift la_next ;;; ret (PyList [])
      else array_loop fuel1 depth max_depth allow_dup []
  end

with array_loop (fuel : nat) (depth max_depth : Z) (allow_dup : bool)
  (items : list pyval) {struct fuel} : M pyval :=
  match fuel with
  | O => out_of_fuel
  | S fuel1 =>
      v <- _parse_value fuel1 depth max_depth allow_dup ;;
      let items := items ++ [v] in
      pk <- or_end_of_input (lift peek) ;;
      if tok_is pk BRACKET "]" then
        lift la_next ;;; ret (PyList items)
      else
        _expect COMMA (Some (text_of ",")) ;;;
        array_loop fuel1 depth max_depth allow_dup items
  end

with _parse_object (fuel : nat) (depth max_depth : Z) (allow_dup : bool)
  {struct fuel} : M pyval :=
  match fuel with
  | O => out_of_fuel
  | S fuel1 =>
      pk <- or_end_of_input (lift peek) ;;
      if tok_is pk BRACE "}" then
        lift la_next ;;; ret (PyDict [])
      else object_loop fuel1 depth max_depth allow_dup []
  end

with object_loop (fuel : nat) (depth max_depth : Z) (allow_dup : bool)
  (obj : list (text * pyval)) {struct fuel} : M pyval :=
  match fuel with
  | O => out_of_fuel
  | S fuel1 =>
      key <- _expect STRING None ;;
      _expect COLON (Some (text_of ":")) ;;;
      match key with
      | PyStr key =>
          if negb allow_dup && dict_has key obj then raise DuplicateKey
          else
            v <- _parse_value fuel1 depth max_depth allow_dup ;;
            let obj := dict_set key v obj in
            pk <- or_end_of_input (lift peek) ;;
            if tok_is pk BRACE "}" then
              lift la_next ;;; ret (PyDict obj)
            else
              _expect COMMA (Some (text_of ",")) ;;;
              object_loop fuel1 depth max_depth allow_dup obj
      | _ =>
          (* not taken: the value of a STRING token is a str *)
          fun _ => Some (Raise TypeError)
      end
  end.

Definition DEPTH_LIMIT_DEFAULT : Z := 19.

(** The body of [parse] on the look-ahead it has built. *)
Definition parse_tokens (fuel : nat) (max_depth : Z) (allow_dup : bool)
  : M pyval :=
  first <- lift peek ;;
  if negb (kind_eqb (tok_kind first) BRACE
           || kind_eqb (tok_kind first) BRACKET)
  then
    again <- lift peek ;;
    raise (RootMustBeContainer (tok_kind first) (tok_value again)
             (tok_offset again))
  else
    result <- _parse_value fuel 0 max_depth allow_dup ;;
    fun la =>
      match la_next la with
      | Raise StopIteration => Some (Return (result, la))
      | Raise e => Some (Raise e)
      | Return (tok, _) =>
          Some (Raise (SyntaxError (ExtraData (tok_offset tok))))
      end.

(** Three calls for every token are the most the descent makes. *)
Definition parse_fuel (g : Gen) : nat := 3 * length (yields g) + 1.

(** [parse(text, max_depth=.., allow_dup=..)] *)
Definition parse (udb : UnicodeData) (max_depth : Z) (allow_dup : bool)
  (t : text) : option (result pyval) :=
  let g := lex udb t in
  match parse_tokens (parse_fuel g) max_depth allow_dup (LookAhead_init g) with
  | Some (Return (v, _)) => Some (Return v)
  | Some (Raise e) => Some (Raise e)
  | None => None
  end.

(** [parse(text)] *)
Definition parse_default (udb : UnicodeData) (t : text)
  : option (result pyval) :=
  parse udb DEPTH_LIMIT_DEFAULT false t.

(** ** The command line *)

Definition STREAM_THRESH_DEFAULT : Z := 262144.

(** The arguments that [parse_args] returns, but for [args.file]: the
    file is read by the caller of the model. *)
Record Namespace := {
  args_debug : bool;
  args_max_depth : Z;
  args_allow_dup_keys : bool;
  args_streaming_threshold : Z
}.

(** A line that [print] writes: a token, one of the two messages of
    success, the message of a syntax error. *)
Inductive line :=
| TokenLine (tok : Token)
| OkLine
| OkStreamLine
| ErrorLine (e : syntax_error).

(** What a call has written, and the value it returns or the exception
    that leaves it. *)
Record Run := {
  stdout : list line;
  stderr : list line;
  outcome : result Z
}.

(** [_cli] from [fsize = os.path.getsize(args.file)] on, [data] being
    the text read from the file. *)
Definition _cli (udb : UnicodeData) (args : Namespace) (fsize : Z)
  (data : text) : option Run :=
  let stream := (fsize >? args_streaming_threshold args)%Z in
  if args_debug args then
    let g := lex udb data in
    Some {| stdout := map TokenLine (yields g);
            stderr := [];
            outcome := match finish g with
                       | None => Return 0%Z
                       | Some e => Raise e
                       end |}
  else
    match parse udb (args_max_depth args) (args_allow_dup_keys args) data with
    | None => None
    | Some (Return _) =>
        Some {| stdout := [if stream then OkStreamLine else OkLine];
                stderr := [];
                outcome := Return 0%Z |}
    | Some (Raise (SyntaxError e)) =>
        Some {| stdout := []; stderr := [ErrorLine e];
                outcome := Return 1%Z |}
    | Some (Raise e) =>
        Some {| stdout := []; stderr := []; outcome := Raise e |}
    end.

(** ** Notions the properties are stated with *)

(** The interior of a string lexeme as the pattern reads it: plain
    characters, and escapes of a backslash and one character. A text of
    this form has no quote and no backslash outside an escape. *)
Inductive escape_units : text -> Prop :=
| units_nil : escape_units []
| units_plain c b :
    c <> dquote -> c <> backslash -> (32 <= c)%N ->
    escape_units b -> escape_units (c :: b)
| units_escape e b :
    e <> newline -> escape_units b -> escape_units (backslash :: e :: b).

(** [lex] with its position in the text: the loop over the matches from
    [pos] on, [s] being the text from [pos] on. *)
Definition lex_from (udb : UnicodeData) (s : text) (pos : nat) : Gen :=
  lex_loop udb (finditer_from udb s pos 0) pos (pos + length s).

(** The positions at which the loop of [lex] looks for a token: the start
    of the text, and the end of a match found at such a position whose
    token value was computed without an error. *)
Inductive lexes_to (udb : UnicodeData) (t : text) : nat -> Prop :=
| lexes_start : lexes_to udb t 0
| lexes_step pos k lx r v :
    lexes_to udb t pos ->
    match_token udb (skipn pos t) = Some (k, lx, r) ->
    token_value udb {| m_kind := k; m_group := lx; m_start := pos |}
      = Return v ->
    lexes_to udb t (pos + length lx).

(** The tokens the look-ahead still has to give, the buffered one
    first, and the way its generator ends. *)
Definition la_tokens (la : LookAhead) : list Token :=
  _buf la ++ yields (_iter la).

Definition la_finish (la : LookAhead) : option exn := finish (_iter la).

(** A generator that yields [toks] and then goes on as [g]. *)
Definition gen_prepend (toks : list Token) (g : Gen) : Gen :=
  {| yields := toks ++ yields g; finish := finish g |}.

(** Nested containers: an array around its one element, or an object
    around the value of its one key [k]. *)
Inductive container := Arr | Obj.

Definition opener (c : container) : text :=
  match c with
  | Arr => text_of "["
  | Obj => jtext "{'k':"
  end.

Definition closer (c : container) : text :=
  match c with
  | Arr => text_of "]"
  | Obj => text_of "}"
  end.

(** The text of [inner] inside the containers of [shape], the outermost
    first: [nest [Arr; Obj] inner] is [[{"k":inner}]]. *)
Fixpoint nest (shape : list container) (inner : text) : text :=
  match shape with
  | [] => inner
  | c :: sh => opener c ++ nest sh inner ++ closer c
  end.

Fixpoint nest_value (shape : list container) (v : pyval) : pyval :=
  match shape with
  | [] => v
  | Arr :: sh => PyList [nest_value sh v]
  | Obj :: sh => PyDict [(text_of "k", nest_value sh v)]
  end.

(** The empty array or object, and its value. *)
Definition empty_container (c : container) : text :=
  match c with
  | Arr => text_of "[]"
  | Obj => text_of "{}"
  end.

Definition empty_value (c : container) : pyval :=
  match c with
  | Arr => PyList []
  | Obj => PyDict []
  end.

(** A token by its kind and value, whatever its offset. *)
Definition is_tok (k : kind) (v : pyval) (t : Token) : Prop :=
  tok_kind t = k /\ tok_value t = v.

(** The tokens of a nest: those of the innermost text, which [P]
    describes, between the tokens that open and close each container. *)
Inductive nested (P : list Token -> Prop)
  : list container -> list Token -> Prop :=
| nested_inner toks : P toks -> nested P [] toks
| nested_arr sh toks t1 t2 :
    is_tok BRACKET (PyStr (text_of "[")) t1 ->
    is_tok BRACKET (PyStr (text_of "]")) t2 ->
    nested P sh toks ->
    nested P (Arr :: sh) (t1 :: toks ++ [t2])
| nested_obj sh toks t1 tk tc t2 :
    is_tok BRACE (PyStr (text_of "{")) t1 ->
    is_tok STRING (PyStr (text_of "k")) tk ->
    is_tok COLON (PyStr (text_of ":")) tc ->
    is_tok BRACE (PyStr (text_of "}")) t2 ->
    nested P sh toks ->
    nested P (Obj :: sh) (t1 :: tk :: tc :: toks ++ [t2]).

(** What a call of the parser on the tokens [toks ++ rest] comes to:
    the exception [out] raises, or the value [out] returns with [rest]
    left in the look-ahead. *)
Definition comes_to (out : result pyval) (rest : list Token)
  (fin : option exn) (r : result (pyval * LookAhead)) : Prop :=
  match out with
  | Raise e => r = Raise e
  | Return v =>
      exists la, r = Return (v, la) /\ la_tokens la = rest /\
                 la_finish la = fin
  end.

(** The outcome of a nest from the outcome of its innermost value. *)
Definition nest_out (shape : list container) (out : result pyval)
  : result pyval :=
  match out with
  | Raise e => Raise e
  | Return v => Return (nest_value shape v)
  end.

(** A token that closes no container. *)
Definition no_closer (t : Token) : Prop :=
  tok_is t BRACKET "]" = false /\ tok_is t BRACE "}" = false.

(** A text that ends here or goes on with the closing of a container. *)
Definition closing (tail : text) : Prop :=
  tail = [] \/ exists c r, tail = closer c ++ r.

(** Wherever [s] stands before such a text, the loop of [lex] yields
    for it tokens that [P] describes, and goes on after it. *)
Definition emits (udb : UnicodeData) (s : text) (P : list Token -> Prop)
  : Prop :=
  forall tail pos,
    closing tail ->
    exists toks,
      P toks /\
      lex_from udb (s ++ tail) pos =
      gen_prepend toks (lex_from udb tail (pos + length s)).

(** The one token of the number [1]. *)
Definition one_number (toks : list Token) : Prop :=
  exists t, toks = [t] /\ is_tok NUMBER (PyInt 1) t.

(** The two tokens of an empty container. *)
Definition empty_tokens (c : container) (toks : list Token) : Prop :=
  exists t1 t2,
    toks = [t1; t2] /\
    match c with
    | Arr => is_tok BRACKET (PyStr (text_of "[")) t1 /\
             is_tok BRACKET (PyStr (text_of "]")) t2
    | Obj => is_tok BRACE (PyStr (text_of "{")) t1 /\
             is_tok BRACE (PyStr (text_of "}")) t2
    end.

(** A computation of the parser that, on a look-ahead with at most
    [bound] tokens left, does not run out of fuel and, when it returns, has
    consumed [used] tokens or more. *)
Definition terminates {A} (bound used : nat) (m : M A) : Prop :=
  forall la,
    length (la_tokens la) <= bound ->
    exists r,
      m la = Some r /\
      forall a la1,
        r = Return (a, la1) ->
        length (la_tokens la1) + used <= length (la_tokens la).

(** The exceptions that the parser raises by itself: its own syntax
    errors, the [StopIteration] of the first [peek], and the [TypeError]
    of the branch that is not taken. *)
Definition parser_error (e : exn) : Prop :=
  match e with
  | StopIteration | TypeError => True
  | SyntaxError se =>
      match se with
      | UnexpectedEndOfInput | UnexpectedToken _ _ _ _ _ | ValueExpected _ _
      | DepthLimitExceeded | DuplicateKey | RootMustBeContainer _ _ _
      | ExtraData _ => True
      | _ => False
      end
  | _ => False
  end.

(** A computation of the parser that leaves the end of the generator
    as it is and raises only what the generator ends with or an error of
    the parser. *)
Definition passes_on {A} (m : M A) : Prop :=
  forall la r,
    m la = Some r ->
    match r with
    | Return (_, la1) => la_finish la1 = la_finish la
    | Raise e => la_finish la = Some e \/ parser_error e
    end.

(** The two structural errors of the validator. *)
Definition structural_error (e : exn) : Prop :=
  exists off,
    e = SyntaxError (UnterminatedString off) \/
    e = SyntaxError (TrailingBackslash off).

(** A match that is not white space: [lex] makes a token of it. *)
Definition is_token_match (m : Match) : bool :=
  negb (kind_eqb (m_kind m) WHITESPACE).

(** The text a JSON string stands for, escape by escape: a backslash
    before a quote, a backslash, a solidus, or one of [b], [f], [n], [r],
    [t] stands for one character, and [\uXXXX] for the code unit of its
    four hexadecimal digits; [None] when an escape is none of these.
    Surrogate code units are left as they are written. *)
Definition short_escape_char (e : char) : option char :=
  if N.eqb e 34 then Some 34%N
  else if N.eqb e 92 then Some 92%N
  else if N.eqb e 47 then Some 47%N
  else if N.eqb e 98 then Some 8%N
  else if N.eqb e 102 then Some 12%N
  else if N.eqb e 110 then Some 10%N
  else if N.eqb e 114 then Some 13%N
  else if N.eqb e 116 then Some 9%N
  else None.

Fixpoint json_unescape (s : text) : option text :=
  match s with
  | [] => Some []
  | c :: s1 =>
      if N.eqb c backslash then
        match s1 with
        | [] => None
        | e :: s2 =>
            if N.eqb e (ord "u") then
              match s2 with
              | h1 :: h2 :: h3 :: h4 :: s6 =>
                  match hex_value [h1; h2; h3; h4] 0, json_unescape s6 with
                  | Some v, Some d => Some (v :: d)
                  | _, _ => None
                  end
              | _ => None
              end
            else
              match short_escape_char e, json_unescape s2 with
              | Some x, Some d => Some (x :: d)
              | _, _ => None
              end
        end
      else
        match json_unescape s1 with
        | Some d => Some (c :: d)
        | None => None
        end
  end.

(** Whether the solidus is escaped somewhere in an interior. *)
Fixpoint escapes_solidus (s : text) : bool :=
  match s with
  | [] => false
  | c :: s1 =>
      if N.eqb c backslash then
        match s1 with
        | [] => false
        | e :: s2 => N.eqb e 47 || escapes_solidus s2
        end
      else escapes_solidus s1
  end.

(** The number of containers around the most deeply nested value. *)
Fixpoint pydepth (v : pyval) : nat :=
  match v with
  | PyList items =>
      S (fold_right (fun x acc => Nat.max (pydepth x) acc) 0 items)
  | PyDict items =>
      S (fold_right
           (fun (kv : text * pyval) acc =>
              Nat.max (let (_, x) := kv in pydepth x) acc)
           0 items)
  | _ => 0
  end.

Definition is_container (v : pyval) : Prop :=
  match v with
  | PyList _ | PyDict _ => True
  | _ => False
  end.

(** A token as [lex] makes them: its value is no container, and is a
    string when its kind is [STRING]. *)
Definition tok_ok (t : Token) : Prop :=
  ~ is_container (tok_value t) /\
  (tok_kind t = STRING -> exists s, tok_value t = PyStr s).

(** A partial-correctness triple for the computations of the parser:
    from a look-ahead that satisfies [P], a return satisfies [Q] and an
    exception [E]. *)
Definition hoare {A} (P : LookAhead -> Prop) (m : M A)
  (Q : A -> LookAhead -> Prop) (E : exn -> Prop) : Prop :=
  forall la r,
    P la -> m la = Some r ->
    match r with
    | Return (a, la1) => Q a la1
    | Raise e => E e
    end.

(** The look-aheads over the tokens of [lex] of a text whose generator
    ends as [fin] says. *)
Definition stream (fin : option exn) (la : LookAhead) : Prop :=
  la_finish la = fin /\ Forall tok_ok (la_tokens la).

(** What the parser may raise over such a look-ahead: what the generator
    ends with, or a syntax error. *)
Definition raised (fin : option exn) (e : exn) : Prop :=
  fin = Some e \/ exists se, e = SyntaxError se.

(** A value parsed at the depth [d] whose containers stay within
    [max_depth + 1] levels. *)
Definition deep (max_depth d : Z) (v : pyval) : Prop :=
  (d + Z.of_nat (pydepth v) <= max_depth + 1)%Z.

(** *** The grammar of the parser, on tokens *)

(** The kind and the value of a token, without its offset. *)
Definition tok_sig (t : Token) : kind * pyval := (tok_kind t, tok_value t).

Definition la_sigs (la : LookAhead) : list (kind * pyval) :=
  map tok_sig (la_tokens la).

(** The token of a punctuation mark. *)
Definition punct (k : kind) (s : string) : kind * pyval :=
  (k, PyStr (text_of s)).

(** Sequences of tokens with a comma between one and the next. *)
Fixpoint join (parts : list (list (kind * pyval))) : list (kind * pyval) :=
  match parts with
  | [] => []
  | p :: ps =>
      match ps with
      | [] => p
      | _ => p ++ punct COMMA "," :: join ps
      end
  end.

(** A key, the colon and the tokens of the value. *)
Definition member_tokens (k : text) (value : list (kind * pyval))
  : list (kind * pyval) :=
  (STRING, PyStr k) :: punct COLON ":" :: value.

(** The tokens of a JSON text, read as a tree: a [PyList] stands for an
    array and a [PyDict] for an object with its members in the order of the
    text, one entry for each member, so that a key may come twice. *)
Fixpoint tokens_of (v : pyval) : list (kind * pyval) :=
  match v with
  | PyStr _ => [(STRING, v)]
  | PyInt _ | PyFloat _ => [(NUMBER, v)]
  | PyBool _ | PyNone => [(LITERAL, v)]
  | PyList items =>
      punct BRACKET "[" :: join (map tokens_of items) ++ [punct BRACKET "]"]
  | PyDict entries =>
      punct BRACE "{"
      :: join (map (fun kv : text * pyval =>
                      let (k, x) := kv in member_tokens k (tokens_of x))
                 entries)
      ++ [punct BRACE "}"]
  end.

(** The Python value of a tree: the members of an object are put into a
    dict one after the other, as [obj[key] = value] does. *)
Fixpoint merge (v : pyval) : pyval :=
  match v with
  | PyList items => PyList (map merge items)
  | PyDict entries =>
      PyDict (fold_left
                (fun obj (kv : text * pyval) =>
                   let (k, x) := kv in dict_set k (merge x) obj)
                entries [])
  | _ => v
  end.

(** No value of the tree, scalar or container, has more than
    [max_depth] containers around it; [d] is the number of those around the
    tree itself. *)
Fixpoint fits (max_depth d : Z) (v : pyval) : Prop :=
  (d <= max_depth)%Z /\
  match v with
  | PyList items =>
      fold_right (fun x acc => fits max_depth (d + 1) x /\ acc) True items
  | PyDict entries =>
      fold_right (fun (kv : text * pyval) acc =>
                    (let (_, x) := kv in fits max_depth (d + 1) x) /\ acc)
        True entries
  | _ => True
  end.

(** No object of the tree has two members with the same key. *)
Fixpoint distinct_keys (v : pyval) : Prop :=
  match v with
  | PyList items => fold_right (fun x acc => distinct_keys x /\ acc) True items
  | PyDict entries =>
      NoDup (map fst entries) /\
      fold_right (fun (kv : text * pyval) acc =>
                    (let (_, x) := kv in distinct_keys x) /\ acc)
        True entries
  | _ => True
  end.

(** The kind of the token of a scalar. *)
Definition kind_of (v : pyval) : option kind :=
  match v with
  | PyStr _ => Some STRING
  | PyInt _ | PyFloat _ => Some NUMBER
  | PyBool _ | PyNone => Some LITERAL
  | _ => None
  end.

(** A token as [lex] makes them: the value of a [STRING], [NUMBER] or
    [LITERAL] token is of the type of its kind. *)
Definition tok_typed (t : Token) : Prop :=
  match tok_kind t with
  | STRING | NUMBER | LITERAL => kind_of (tok_value t) = Some (tok_kind t)
  | _ => True
  end.

Definition typed (la : LookAhead) : Prop := Forall tok_typed (la_tokens la).

(** A run of [m] from [la], when it does not run out of fuel, returns a
    value that satisfies [Q] and leaves the tokens [rest], which are the
    last of those it had, the generator ending as before. *)
Definition runs_to {A} (m : M A) (la : LookAhead) (Q : A -> Prop)
  (rest : list (kind * pyval)) : Prop :=
  forall r,
    m la = Some r ->
    exists a la1,
      r = Return (a, la1) /\ Q a /\ la_sigs la1 = rest /\
      la_finish la1 = la_finish la /\
      exists used, la_tokens la = used ++ la_tokens la1.

(** A run of [m] from [la], when it does not run out of fuel, raises the
    error of an unexpected end of input. *)
Definition runs_out {A} (m : M A) (la : LookAhead) : Prop :=
  forall r, m la = Some r -> r = Raise (SyntaxError UnexpectedEndOfInput).

(** *** Compact JSON texts *)

(** The hexadecimal digit of a number below 16, in lower case. *)
Definition hex_char (d : N) : char :=
  if (d <? 10)%N then (48 + d)%N else (87 + d)%N.

(** A character of a string as it is written: the quote and the
    backslash behind a backslash, the other printable ASCII characters as
    they are, and every other character as [\uXXXX]. *)
Definition escape_char (c : char) : text :=
  if N.eqb c dquote then [backslash; dquote]
  else if N.eqb c backslash then [backslash; backslash]
  else if ((32 <=? c) && (c <? 127))%N then [c]
  else [backslash; ord "u";
        hex_char (c / 16 / 16 / 16); hex_char ((c / 16 / 16) mod 16);
        hex_char ((c / 16) mod 16); hex_char (c mod 16)].

Definition quoted (s : text) : text :=
  dquote :: flat_map escape_char s ++ [dquote].

(** A digit or one of the letters [a] to [f]. *)
Definition hex_range (h : char) : Prop :=
  (48 <= h <= 57)%N \/ (97 <= h <= 102)%N.

Definition is_digit_char (c : char) : Prop := (48 <= c <= 57)%N.

(** The decimal digits of a number, the most significant first. *)
Fixpoint decimal_fuel (fuel : nat) (n : N) : text :=
  match fuel with
  | O => []
  | S fuel1 =>
      if (n <? 10)%N then [(48 + n)%N]
      else decimal_fuel fuel1 (n / 10) ++ [(48 + n mod 10)%N]
  end.

Definition decimal (n : N) : text :=
  decimal_fuel (S (N.to_nat (N.size n))) n.

Definition int_text (z : Z) : text :=
  match z with
  | Z0 => text_of "0"
  | Zpos p => decimal (Npos p)
  | Zneg p => 45%N :: decimal (Npos p)
  end.

(** Texts with a comma between one and the next. *)
Fixpoint join_text (parts : list text) : text :=
  match parts with
  | [] => []
  | p :: ps =>
      match ps with
      | [] => p
      | _ => p ++ text_of "," ++ join_text ps
      end
  end.

(** The compact JSON text of a value: no white space, strings written
    with [quoted], integers in decimal, a float by its lexeme. *)
Fixpoint dumps (v : pyval) : text :=
  match v with
  | PyStr s => quoted s
  | PyInt z => int_text z
  | PyFloat lexeme => lexeme
  | PyBool true => text_of "true"
  | PyBool false => text_of "false"
  | PyNone => text_of "null"
  | PyList items => text_of "[" ++ join_text (map dumps items) ++ text_of "]"
  | PyDict entries =>
      text_of "{"
      ++ join_text (map (fun kv : text * pyval =>
                           let (k, x) := kv in
                           quoted k ++ text_of ":" ++ dumps x)
                      entries)
      ++ text_of "}"
  end.

(** A string of characters of the basic plane, surrogates apart. *)
Definition str_ok (s : text) : Prop :=
  Forall (fun c => (c < 65536)%N /\ is_surrogate c = false) s.

(** A lexeme of [_NUMBER] that is read as a float. *)
Definition float_ok (udb : UnicodeData) (lexeme : text) : Prop :=
  has_float_mark lexeme = true /\ match_number udb lexeme = Some (lexeme, []).

(** An integer whose decimal text [int] converts: it has no more digits
    than the limit of the interpreter, or no more than 640. *)
Definition int_ok (udb : UnicodeData) (z : Z) : Prop :=
  digits_refused udb (length (decimal (Z.abs_N z))) = false.

(** The values that [dumps] writes and [lex] reads: the strings and the
    keys are [str_ok], the integers are [int_ok], the floats are lexemes of
    floats. *)
Fixpoint writable (udb : UnicodeData) (v : pyval) : Prop :=
  match v with
  | PyStr s => str_ok s
  | PyInt z => int_ok udb z
  | PyFloat lexeme => float_ok udb lexeme
  | PyList items =>
      fold_right (fun x acc => writable udb x /\ acc) True items
  | PyDict entries =>
      fold_right (fun (kv : text * pyval) acc =>
                    (let (k, x) := kv in str_ok k /\ writable udb x) /\ acc)
        True entries
  | _ => True
  end.

Definition any_text (x : text) : Prop := True.

(** A text that ends here or goes on with a comma or the closing of a
    container. *)
Definition delimited (x : text) : Prop :=
  match x with
  | [] => True
  | c :: _ => c = 44%N \/ c = 93%N \/ c = 125%N
  end.

(** Before a text that satisfies [D], [s] gives tokens of the kinds and
    values [sigs], and the loop of [lex] goes on after it. *)
Definition spells (udb : UnicodeData) (D : text -> Prop) (s : text)
  (sigs : list (kind * pyval)) : Prop :=
  forall x pos,
    D x ->
    exists toks,
      map tok_sig toks = sigs /\
      lex_from udb (s ++ x) pos =
      gen_prepend toks (lex_from udb x (pos + length s)).

(** * Properties *)

Section LexerFacts.

Variable udb : UnicodeData.

(** ** The shape of a match *)

Lemma string_body_shape n :
  forall s lx r, length s <= n ->
    string_body s = Some (lx, r) ->
    s = lx ++ r /\ exists body, lx = body ++ [dquote] /\ escape_units body.
Proof.
  induction n as [|n IH]; intros s lx r Hn H.
  - destruct s; [discriminate | simpl in Hn; lia].
  - destruct s as [|c s1]; [discriminate|]. simpl in H, Hn.
    destruct (N.eqb_spec c dquote) as [->|Hq].
    + injection H as <- <-. split; [reflexivity|].
      exists []. split; [reflexivity | constructor].
    + destruct (N.eqb_spec c backslash) as [->|Hb].
      * destruct s1 as [|e s2]; [discriminate|].
        destruct (N.eqb_spec e newline) as [|He]; [discriminate|].
        destruct (string_body s2) as [[lx' r']|] eqn:E; [|discriminate].
        injection H as <- <-.
        apply IH in E; [|simpl in Hn; lia].
        destruct E as [-> (body & -> & Hu)]. split; [reflexivity|].
        exists (backslash :: e :: body). split; [reflexivity|].
        now constructor.
      * destruct (N.ltb_spec c 32) as [|Hc]; [discriminate|].
        destruct (string_body s1) as [[lx' r']|] eqn:E; [|discriminate].
        injection H as <- <-.
        apply IH in E; [|lia].
        destruct E as [-> (body & -> & Hu)]. split; [reflexivity|].
        exists (c :: body). split; [reflexivity|].
        now constructor.
Qed.

Lemma match_string_shape s lx r :
  match_string s = Some (lx, r) ->
  s = lx ++ r /\
  exists body, lx = dquote :: body ++ [dquote] /\ escape_units body.
Proof.
  unfold match_string. destruct s as [|c s1]; [discriminate|].
  destruct (N.eqb_spec c dquote) as [->|]; [|discriminate].
  destruct (string_body s1) as [[lx' r']|] eqn:E; [|discriminate].
  intros H. injection H as <- <-.
  apply (string_body_shape (length s1)) in E; [|lia].
  destruct E as [-> (body & -> & Hu)].
  split; [reflexivity|]. now exists body.
Qed.

Lemma digits_app s : forall d r, digits udb s = (d, r) -> s = d ++ r.
Proof.
  induction s as [|c s IH]; simpl; intros d r H.
  - now injection H as <- <-.
  - destruct (is_digit udb c).
    + destruct (digits udb s) as [d' r']. injection H as <- <-.
      simpl. f_equal. now apply IH.
    + now injection H as <- <-.
Qed.

Lemma digits_all s : forall d r,
  digits udb s = (d, r) -> forallb (is_digit udb) d = true.
Proof.
  induction s as [|c s IH]; simpl; intros d r H.
  - now injection H as <- <-.
  - destruct (is_digit udb c) eqn:E.
    + destruct (digits udb s) as [d' r']. injection H as <- <-.
      simpl. rewrite E. now apply (IH _ r').
    + now injection H as <- <-.
Qed.

Lemma spaces_app s : forall d r, spaces udb s = (d, r) -> s = d ++ r.
Proof.
  induction s as [|c s IH]; simpl; intros d r H.
  - now injection H as <- <-.
  - destruct (is_space udb c).
    + destruct (spaces udb s) as [d' r']. injection H as <- <-.
      simpl. f_equal. now apply IH.
    + now injection H as <- <-.
Qed.

Lemma int_part_app s i r :
  int_part udb s = Some (i, r) -> s = i ++ r /\ i <> [].
Proof.
  unfold int_part. destruct s as [|c s1]; [discriminate|].
  destruct (c =? 48)%N.
  - intros H. injection H as <- <-. now split.
  - destruct ((49 <=? c)%N && (c <=? 57)%N); [|discriminate].
    destruct (digits udb s1) as [d r'] eqn:E.
    intros H. injection H as <- <-. apply digits_app in E. subst s1.
    now split.
Qed.

Lemma frac_part_app s f r : frac_part udb s = (f, r) -> s = f ++ r.
Proof.
  unfold frac_part. destruct s as [|c s1].
  - intros H. now injection H as <- <-.
  - destruct (c =? 46)%N.
    + destruct (digits udb s1) as [d r'] eqn:E. apply digits_app in E.
      destruct d; intros H; injection H as <- <-; subst s1; reflexivity.
    + intros H. now injection H as <- <-.
Qed.

Lemma exp_part_app s e r : exp_part udb s = (e, r) -> s = e ++ r.
Proof.
  unfold exp_part. destruct s as [|c s1].
  - intros H. now injection H as <- <-.
  - destruct ((c =? 101)%N || (c =? 69)%N).
    + destruct s1 as [|g s2].
      * intros H. now injection H as <- <-.
      * destruct ((g =? 43)%N || (g =? 45)%N).
        -- destruct (digits udb s2) as [d r'] eqn:E. apply digits_app in E.
           destruct d; intros H; injection H as <- <-; subst s2; reflexivity.
        -- destruct (digits udb (g :: s2)) as [d r'] eqn:E.
           apply digits_app in E.
           destruct d; intros H; injection H as <- <-;
             [reflexivity | simpl; now rewrite E].
    + intros H. now injection H as <- <-.
Qed.

Lemma minus_part_app s m r : minus_part s = (m, r) -> s = m ++ r.
Proof.
  unfold minus_part. destruct s as [|c s1].
  - intros H. now injection H as <- <-.
  - destruct (c =? 45)%N; intros H; now injection H as <- <-.
Qed.

Lemma match_number_app s lx r :
  match_number udb s = Some (lx, r) -> s = lx ++ r /\ lx <> [].
Proof.
  unfold match_number.
  destruct (minus_part s) as [m s1] eqn:Em. apply minus_part_app in Em.
  destruct (int_part udb s1) as [[i s2]|] eqn:Ei; [|discriminate].
  apply int_part_app in Ei. destruct Ei as [Ei Hi].
  destruct (frac_part udb s2) as [f s3] eqn:Ef. apply frac_part_app in Ef.
  destruct (exp_part udb s3) as [e s4] eqn:Ee. apply exp_part_app in Ee.
  intros H. injection H as <- <-. subst. split.
  - now rewrite <- !app_assoc.
  - destruct m; [destruct i; [congruence | discriminate] | discriminate].
Qed.

Lemma match_word_app w : forall s lx r,
  match_word w s = Some (lx, r) -> s = lx ++ r /\ lx = w.
Proof.
  induction w as [|a w IH]; simpl; intros s lx r H.
  - injection H as <- <-. now split.
  - destruct s as [|c s1]; [discriminate|].
    destruct (N.eqb_spec c a) as [->|]; [|discriminate].
    destruct (match_word w s1) as [[lx' r']|] eqn:E; [|discriminate].
    injection H as <- <-. apply IH in E. destruct E as [-> ->]. now split.
Qed.

Lemma match_literal_app s lx r :
  match_literal s = Some (lx, r) ->
  s = lx ++ r /\
  (lx = text_of "true" \/ lx = text_of "false" \/ lx = text_of "null").
Proof.
  unfold match_literal.
  destruct (match_word (text_of "true") s) as [[a b]|] eqn:E1.
  - intros H. injection H as <- <-. apply match_word_app in E1. tauto.
  - destruct (match_word (text_of "false") s) as [[a b]|] eqn:E2.
    + intros H. injection H as <- <-. apply match_word_app in E2. tauto.
    + intros H. apply match_word_app in H. tauto.
Qed.

Lemma match_one_app set s lx r :
  match_one set s = Some (lx, r) ->
  s = lx ++ r /\ exists c, lx = [c] /\ mem c set = true.
Proof.
  unfold match_one. destruct s as [|c s1]; [discriminate|].
  destruct (mem c set) eqn:E; [|discriminate].
  intros H. injection H as <- <-. split; [reflexivity|]. now exists c.
Qed.

Lemma match_whitespace_app s lx r :
  match_whitespace udb s = Some (lx, r) -> s = lx ++ r /\ lx <> [].
Proof.
  unfold match_whitespace. destruct (spaces udb s) as [d r'] eqn:E.
  apply spaces_app in E. destruct d; [discriminate|].
  intros H. injection H as <- <-. now split.
Qed.

(** What a match of [_TOKEN_RE] is, by the group that matched. *)
Lemma match_token_inv s k lx r :
  match_token udb s = Some (k, lx, r) ->
  match k with
  | STRING => match_string s = Some (lx, r)
  | NUMBER => match_number udb s = Some (lx, r)
  | LITERAL => match_literal s = Some (lx, r)
  | BRACE => match_one (text_of "{}") s = Some (lx, r)
  | BRACKET => match_one (text_of "[]") s = Some (lx, r)
  | COMMA => match_one (text_of ",") s = Some (lx, r)
  | COLON => match_one (text_of ":") s = Some (lx, r)
  | WHITESPACE => match_whitespace udb s = Some (lx, r)
  end.
Proof.
  unfold match_token, alternatives, first_match.
  destruct (match_string s) as [[? ?]|] eqn:E1;
    [intros H; injection H as <- <- <-; reflexivity|].
  destruct (match_number udb s) as [[? ?]|] eqn:E2;
    [intros H; injection H as <- <- <-; reflexivity|].
  destruct (match_literal s) as [[? ?]|] eqn:E3;
    [intros H; injection H as <- <- <-; reflexivity|].
  destruct (match_one (text_of "{}") s) as [[? ?]|] eqn:E4;
    [intros H; injection H as <- <- <-; reflexivity|].
  destruct (match_one (text_of "[]") s) as [[? ?]|] eqn:E5;
    [intros H; injection H as <- <- <-; reflexivity|].
  destruct (match_one (text_of ",") s) as [[? ?]|] eqn:E6;
    [intros H; injection H as <- <- <-; reflexivity|].
  destruct (match_one (text_of ":") s) as [[? ?]|] eqn:E7;
    [intros H; injection H as <- <- <-; reflexivity|].
  destruct (match_whitespace udb s) as [[? ?]|] eqn:E8;
    [intros H; injection H as <- <- <-; reflexivity|].
  discriminate.
Qed.

Lemma match_token_app s k lx r :
  match_token udb s = Some (k, lx, r) -> s = lx ++ r /\ lx <> [].
Proof.
  intros H. apply match_token_inv in H. destruct k.
  - apply match_string_shape in H.
    destruct H as [-> (body & -> & _)]. now split.
  - now apply match_number_app.
  - apply match_literal_app in H.
    destruct H as [-> [ -> | [ -> | -> ] ] ]; now split.
  - apply match_one_app in H. destruct H as [-> (c & -> & _)]. now split.
  - apply match_one_app in H. destruct H as [-> (c & -> & _)]. now split.
  - apply match_one_app in H. destruct H as [-> (c & -> & _)]. now split.
  - apply match_one_app in H. destruct H as [-> (c & -> & _)]. now split.
  - now apply match_whitespace_app.
Qed.

(** ** [finditer] *)

Lemma finditer_from_eq s pos :
  finditer_from udb s pos 0 =
  match match_token udb s with
  | Some (k, lx, _) =>
      {| m_kind := k; m_group := lx; m_start := pos |}
      :: match s with
         | [] => []
         | _ :: s1 => finditer_from udb s1 (S pos) (length lx - 1)
         end
  | None =>
      match s with
      | [] => []
      | _ :: s1 => finditer_from udb s1 (S pos) 0
      end
  end.
Proof. destruct s; reflexivity. Qed.

Lemma finditer_from_skip lx : forall r pos,
  finditer_from udb (lx ++ r) pos (length lx) =
  finditer_from udb r (pos + length lx) 0.
Proof.
  induction lx as [|c lx IH]; intros r pos.
  - simpl. now rewrite Nat.add_0_r.
  - cbn [app length finditer_from]. rewrite IH. f_equal. lia.
Qed.

(** Where the pattern matches, the match is the next one and the search
    resumes at its end. *)
Lemma finditer_from_match s pos k lx r :
  match_token udb s = Some (k, lx, r) ->
  finditer_from udb s pos 0 =
  {| m_kind := k; m_group := lx; m_start := pos |}
  :: finditer_from udb r (pos + length lx) 0.
Proof.
  intros H. rewrite finditer_from_eq, H.
  apply match_token_app in H. destruct H as [-> Hne].
  destruct lx as [|c lx]; [congruence|].
  cbn [app length]. f_equal.
  replace (S (length lx) - 1) with (length lx) by lia.
  rewrite finditer_from_skip. f_equal. lia.
Qed.

(** Where it does not, the search moves one character on. *)
Lemma finditer_from_nomatch c s pos :
  match_token udb (c :: s) = None ->
  finditer_from udb (c :: s) pos 0 = finditer_from udb s (S pos) 0.
Proof. intros H. now rewrite finditer_from_eq, H. Qed.

Lemma finditer_from_start s : forall pos skip m,
  In m (finditer_from udb s pos skip) -> pos + skip <= m_start m.
Proof.
  induction s as [|c s IH]; intros pos skip m.
  - destruct skip; [|contradiction].
    rewrite finditer_from_eq. destruct (match_token udb []) as [[[k lx] r]|].
    + intros [<-|[]]. simpl. lia.
    + contradiction.
  - destruct skip as [|j].
    + rewrite finditer_from_eq.
      destruct (match_token udb (c :: s)) as [[[k lx] r]|].
      * intros [<-|H]; [simpl; lia|]. apply IH in H. lia.
      * intros H. apply IH in H. lia.
    + cbn [finditer_from]. intros H. apply IH in H. lia.
Qed.

(** Every match reported is a match of the pattern at its start. *)
Lemma finditer_from_In s : forall pos skip m,
  In m (finditer_from udb s pos skip) ->
  exists r,
    match_token udb (skipn (m_start m - pos) s) =
    Some (m_kind m, m_group m, r).
Proof.
  induction s as [|c s IH]; intros pos skip m.
  - destruct skip; [|contradiction].
    rewrite finditer_from_eq.
    destruct (match_token udb []) as [[[k lx] r]|] eqn:E; [|contradiction].
    intros [<-|[]]. cbn [m_start m_kind m_group].
    rewrite Nat.sub_diag. now exists r.
  - assert (Hrec : forall j, In m (finditer_from udb s (S pos) j) ->
              exists r, match_token udb (skipn (m_start m - pos) (c :: s)) =
                        Some (m_kind m, m_group m, r)).
    { intros j H. pose proof (finditer_from_start _ _ _ _ H) as Hge.
      apply IH in H. destruct H as [r H]. exists r.
      replace (m_start m - pos) with (S (m_start m - S pos)) by lia.
      exact H. }
    destruct skip as [|j].
    + rewrite finditer_from_eq.
      destruct (match_token udb (c :: s)) as [[[k lx] r]|] eqn:E.
      * intros [<-|H]; [|now apply Hrec in H].
        cbn [m_start m_kind m_group]. rewrite Nat.sub_diag. now exists r.
      * apply Hrec.
    + cbn [finditer_from]. apply Hrec.
Qed.

Lemma finditer_In t m :
  In m (finditer udb t) ->
  exists r,
    match_token udb (skipn (m_start m) t) = Some (m_kind m, m_group m, r).
Proof.
  intros H. apply finditer_from_In in H. now rewrite Nat.sub_0_r in H.
Qed.

(** ** The loop of [lex] *)

(** Every token yielded comes from a match, with its kind, its start
    and the value computed from its lexeme. *)
Lemma lex_loop_tokens ms : forall pos n tok,
  In tok (yields (lex_loop udb ms pos n)) ->
  exists m,
    In m ms /\ m_kind m = tok_kind tok /\ m_start m = tok_offset tok /\
    token_value udb m = Return (tok_value tok).
Proof.
  induction ms as [|m ms IH]; intros pos n tok; cbn [lex_loop].
  - destruct (negb (pos =? n)); contradiction.
  - destruct (negb (m_start m =? pos)); [contradiction|].
    assert (Hrec : In tok (yields (lex_loop udb ms (m_end m) n)) ->
              exists m0, In m0 (m :: ms) /\ m_kind m0 = tok_kind tok /\
                m_start m0 = tok_offset tok /\
                token_value udb m0 = Return (tok_value tok)).
    { intros H. apply IH in H. destruct H as (m0 & ? & ?).
      exists m0. split; [now right | assumption]. }
    destruct (m_kind m) eqn:Ek; try exact Hrec.
    all: destruct (token_value udb m) as [v|e] eqn:Ev; [|contradiction].
    all: intros [<-|H]; [|now apply Hrec].
    all: exists m; cbn [tok_kind tok_value tok_offset].
    all: split; [now left|]; split; [assumption|]; split;
      [reflexivity | assumption].
Qed.

Lemma lex_from_nil pos : lex_from udb [] pos = gen_return.
Proof.
  unfold lex_from. rewrite finditer_from_eq. cbn.
  rewrite Nat.add_0_r, Nat.eqb_refl. reflexivity.
Qed.

Lemma lex_from_step s pos k lx r :
  match_token udb s = Some (k, lx, r) ->
  lex_from udb s pos =
  match k with
  | WHITESPACE => lex_from udb r (pos + length lx)
  | _ =>
      match token_value udb
              {| m_kind := k; m_group := lx; m_start := pos |} with
      | Raise e => gen_raise e
      | Return v =>
          gen_yield {| tok_kind := k; tok_value := v; tok_offset := pos |}
            (lex_from udb r (pos + length lx))
      end
  end.
Proof.
  intros H. unfold lex_from. rewrite (finditer_from_match s pos k lx r H).
  apply match_token_app in H. destruct H as [-> _].
  cbn [lex_loop m_start m_kind]. rewrite Nat.eqb_refl. cbn [negb].
  unfold m_end. cbn [m_start m_group].
  replace (pos + length (lx ++ r)) with (pos + length lx + length r)
    by (rewrite length_app; lia).
  destruct k; reflexivity.
Qed.

(** A token that is computed without an error is yielded, and the loop
    goes on after it. *)
Lemma lex_from_token s pos k lx r v :
  match_token udb s = Some (k, lx, r) ->
  k <> WHITESPACE ->
  token_value udb {| m_kind := k; m_group := lx; m_start := pos |}
    = Return v ->
  lex_from udb s pos =
  gen_yield {| tok_kind := k; tok_value := v; tok_offset := pos |}
    (lex_from udb r (pos + length lx)).
Proof.
  intros H Hk Hv. rewrite (lex_from_step s pos k lx r H), Hv.
  destruct k; congruence.
Qed.

(** Where no alternative matches, the loop ends with the error of a gap
    in the coverage, at the position it had reached. *)
Lemma lex_from_stuck c s pos :
  match_token udb (c :: s) = None ->
  lex_from udb (c :: s) pos = gen_raise (SyntaxError (InvalidCharacter pos)).
Proof.
  intros H. unfold lex_from. rewrite (finditer_from_nomatch c s pos H).
  destruct (finditer_from udb s (S pos) 0) as [|m ms] eqn:E;
    cbn [lex_loop length].
  - replace (pos =? pos + S (length s)) with false; [reflexivity|].
    symmetry. apply Nat.eqb_neq. lia.
  - assert (Hm : S pos + 0 <= m_start m).
    { apply (finditer_from_start s). rewrite E. now left. }
    replace (m_start m =? pos) with false; [reflexivity|].
    symmetry. apply Nat.eqb_neq. lia.
Qed.

(** The way [lex] ends is decided from any position its loop reaches. *)
Lemma lexes_to_finish t pos :
  lexes_to udb t pos ->
  finish (lex udb t) = finish (lex_from udb (skipn pos t) pos).
Proof.
  induction 1 as [|pos k lx r v _ IH Hm Hv].
  - reflexivity.
  - rewrite IH, (lex_from_step _ pos k lx r Hm), Hv.
    assert (Hr : skipn (pos + length lx) t = r).
    { apply match_token_app in Hm. destruct Hm as [Hm _].
      rewrite Nat.add_comm, <- skipn_skipn, Hm.
      now rewrite skipn_app, skipn_all, Nat.sub_diag. }
    rewrite Hr. destruct k; reflexivity.
Qed.

(** ** The validator on the lexemes of the pattern *)

Lemma ends_with_last c body x :
  ends_with c (x :: body ++ [c]) = true.
Proof.
  unfold ends_with. cbn [rev]. rewrite rev_app_distr. cbn.
  apply N.eqb_refl.
Qed.

(** On a lexeme between two quotes the structural test passes, and the
    validator goes on to the interior. *)
Lemma validate_string_closed body ts :
  _validate_string udb (dquote :: body ++ [dquote]) ts =
  match check_escapes body 0 ts with
  | Raise e => Raise e
  | Return _ =>
      match utf8_encode body with
      | None => Raise UnicodeEncodeError
      | Some encoded =>
          match unicode_escape_decode udb encoded with
          | None => Raise (SyntaxError BadEscapeSequence)
          | Some decoded =>
              if existsb is_surrogate decoded
              then Raise (SyntaxError UnpairedSurrogate)
              else Return decoded
          end
      end
  end.
Proof.
  unfold _validate_string.
  rewrite ends_with_last. cbn [starts_with tl negb].
  rewrite N.eqb_refl. cbn [negb orb].
  replace (length (dquote :: body ++ [dquote]) <? 2) with false.
  - cbn [orb]. now rewrite removelast_last.
  - symmetry. apply Nat.ltb_ge. cbn [length]. rewrite length_app. simpl. lia.
Qed.

Lemma escape_units_hex h r :
  escape_units (h :: r) -> mem h hexdigits = true -> escape_units r.
Proof.
  intros H Hh. inversion H; subst; [assumption|]. discriminate Hh.
Qed.

(** The scan of an interior made of whole units never finds a
    backslash with nothing after it. *)
Lemma check_escapes_units n : forall body i ts off,
  length body <= n -> escape_units body ->
  check_escapes body i ts <> Raise (SyntaxError (TrailingBackslash off)).
Proof.
  induction n as [|n IH]; intros body i ts off Hn Hu.
  - destruct body; [discriminate | simpl in Hn; lia].
  - inversion Hu as [|c b Hq Hb Hc Hu'|e b He Hu']; subst.
    + discriminate.
    + cbn [check_escapes].
      destruct (N.eqb_spec c backslash); [contradiction|].
      apply IH; [simpl in Hn; lia | assumption].
    + cbn [check_escapes length] in *. rewrite N.eqb_refl.
      destruct (N.eqb e (ord "u")).
      * destruct b as [|h1 [|h2 [|h3 [|h4 r6]]]]; try discriminate.
        destruct (forallb (fun c => mem c hexdigits) [h1; h2; h3; h4])
          eqn:Hx; [|discriminate].
        cbn [forallb] in Hx.
        apply andb_true_iff in Hx. destruct Hx as [H1 Hx].
        apply andb_true_iff in Hx. destruct Hx as [H2 Hx].
        apply andb_true_iff in Hx. destruct Hx as [H3 Hx].
        apply andb_true_iff in Hx. destruct Hx as [H4 _].
        apply IH; [cbn [length] in Hn; lia|].
        eauto using escape_units_hex.
      * destruct (mem e short_escapes); [|discriminate].
        apply IH; [lia | assumption].
Qed.

(** On a lexeme of the string pattern neither structural error is
    raised, nor the trailing backslash of the scan. *)
Lemma validate_string_lexeme body ts off :
  escape_units body ->
  _validate_string udb (dquote :: body ++ [dquote]) ts
    <> Raise (SyntaxError (UnterminatedString off)) /\
  _validate_string udb (dquote :: body ++ [dquote]) ts
    <> Raise (SyntaxError (TrailingBackslash off)).
Proof.
  intros Hu. rewrite validate_string_closed.
  pose proof (check_escapes_units (length body) body 0 ts off
                (Nat.le_refl _) Hu) as Hc.
  assert (Hun : check_escapes body 0 ts
                <> Raise (SyntaxError (UnterminatedString off))).
  { clear Hc Hu. generalize 0 at 1. 
    assert (G : forall n b i, length b <= n ->
                check_escapes b i ts
                <> Raise (SyntaxError (UnterminatedString off))).
    { induction n as [|n IH]; intros b i Hn.
      - destruct b; [discriminate | simpl in Hn; lia].
      - destruct b as [|c b]; [discriminate|]. cbn [check_escapes].
        destruct (N.eqb c backslash).
        + destruct b as [|e b]; [discriminate|].
          destruct (N.eqb e (ord "u")).
          * destruct b as [|h1 [|h2 [|h3 [|h4 r6]]]]; try discriminate.
            destruct (forallb _ _); [|discriminate].
            apply IH. cbn [length] in Hn. lia.
          * destruct (mem e short_escapes); [|discriminate].
            apply IH. cbn [length] in Hn. lia.
        + apply IH. cbn [length] in Hn. lia. }
    intros i. now apply (G (length body)). }
  destruct (check_escapes body 0 ts) as [[]|e].
  - destruct (utf8_encode body); [|split; discriminate].
    destruct (unicode_escape_decode udb l); [|split; discriminate].
    destruct (existsb is_surrogate t); split; discriminate.
  - split; congruence.
Qed.

(** The validator called on a raw lexeme that ends in a backslash. *)
Lemma validate_string_trailing raw ts :
  ends_with backslash raw = true ->
  _validate_string udb raw ts =
  Raise (SyntaxError (TrailingBackslash (ts + length raw - 1))).
Proof.
  intros H. unfold _validate_string.
  assert (Hq : ends_with dquote raw = false).
  { unfold ends_with in *. destruct (rev raw) as [|x l]; [discriminate|].
    cbn [starts_with] in *. apply N.eqb_eq in H. now subst x. }
  assert (Hl : (0 <? length raw) = true).
  { destruct raw; [discriminate | reflexivity]. }
  rewrite Hq, Hl, H. cbn [negb andb]. now rewrite orb_true_r.
Qed.

(** ** Where no string lexeme starts *)

Lemma string_body_quote s lx r :
  string_body s = Some (lx, r) -> In dquote s.
Proof.
  intros H. apply (string_body_shape (length s)) in H; [|lia].
  destruct H as [-> (body & -> & _)].
  apply in_or_app. left. apply in_or_app. right. now left.
Qed.

(** With no quote after the opening one the string pattern fails. *)
Lemma match_string_unclosed rest :
  ~ In dquote rest -> match_string (dquote :: rest) = None.
Proof.
  intros H. cbn [match_string]. rewrite N.eqb_refl.
  destruct (string_body rest) as [[lx r]|] eqn:E; [|reflexivity].
  apply string_body_quote in E. contradiction.
Qed.

(** At a quote only the string pattern can match. *)
Lemma match_token_quote rest :
  match_string (dquote :: rest) = None ->
  match_token udb (dquote :: rest) = None.
Proof.
  intros H. unfold match_token, alternatives. cbn [first_match].
  rewrite H. reflexivity.
Qed.

(** A quote that the loop of [lex] reaches and at which no string lexeme
    starts ends [lex] with the error of a gap, at that quote. *)
Lemma lex_unclosed_string t pos rest :
  lexes_to udb t pos ->
  skipn pos t = dquote :: rest ->
  match_string (dquote :: rest) = None ->
  finish (lex udb t) = Some (SyntaxError (InvalidCharacter pos)).
Proof.
  intros Hp Hs Hm. rewrite (lexes_to_finish t pos Hp), Hs.
  now rewrite (lex_from_stuck dquote rest pos (match_token_quote rest Hm)).
Qed.

(** ** Number tokens *)

Lemma mem_app c a b : mem c (a ++ b) = mem c a || mem c b.
Proof. apply existsb_app. Qed.

Lemma has_float_mark_app a b :
  has_float_mark (a ++ b) = has_float_mark a || has_float_mark b.
Proof.
  unfold has_float_mark. cbn [text_of list_ascii_of_string map existsb].
  rewrite !mem_app.
  destruct (mem _ a), (mem _ a), (mem _ a); cbn;
    rewrite ?orb_true_r, ?orb_false_r; reflexivity.
Qed.

Lemma has_float_mark_cons c a :
  has_float_mark (c :: a) = false ->
  c <> 46%N /\ c <> 101%N /\ c <> 69%N.
Proof.
  unfold has_float_mark, mem.
  change (text_of ".eE") with [46; 101; 69]%N. cbn [existsb].
  intros H. apply orb_false_iff in H. destruct H as [H1 H].
  apply orb_false_iff in H. destruct H as [H2 H].
  apply orb_false_iff in H. destruct H as [H3 _].
  apply orb_false_iff in H1. destruct H1 as [H1 _].
  apply orb_false_iff in H2. destruct H2 as [H2 _].
  apply orb_false_iff in H3. destruct H3 as [H3 _].
  apply N.eqb_neq in H1, H2, H3. repeat split; congruence.
Qed.

Lemma digits_value_all d : forall acc,
  forallb (is_digit udb) d = true ->
  exists n, digits_value udb d acc = Some n.
Proof.
  induction d as [|c d IH]; intros acc H.
  - now exists acc.
  - cbn [forallb] in H. apply andb_true_iff in H. destruct H as [Hc Hd].
    cbn [digits_value]. unfold is_digit in Hc.
    destruct (decimal_value udb c); [|discriminate]. now apply IH.
Qed.

Lemma is_digit_ascii c :
  ((48 <=? c) && (c <=? 57))%N = true -> is_digit udb c = true.
Proof.
  intros H. unfold is_digit, decimal_value. rewrite H.
  apply andb_true_iff in H. destruct H as [_ H]. apply N.leb_le in H.
  replace (c <? 128)%N with true; [reflexivity|].
  symmetry. apply N.ltb_lt. lia.
Qed.

Lemma int_part_digits s i r :
  int_part udb s = Some (i, r) ->
  forallb (is_digit udb) i = true /\
  exists c i1, i = c :: i1 /\ c <> 45%N.
Proof.
  unfold int_part. destruct s as [|c s1]; [discriminate|].
  destruct (N.eqb_spec c 48) as [->|Hz].
  - intros H. injection H as <- <-. split; [reflexivity|].
    now exists 48%N, [].
  - destruct ((49 <=? c)%N && (c <=? 57)%N) eqn:Hc; [|discriminate].
    destruct (digits udb s1) as [d r'] eqn:E.
    intros H. injection H as <- <-. split.
    + cbn [forallb]. rewrite (digits_all s1 d r' E), andb_true_r.
      apply is_digit_ascii. apply andb_true_iff in Hc. destruct Hc as [H1 H2].
      apply N.leb_le in H1. rewrite H2, andb_true_r. apply N.leb_le. lia.
    + exists c, d. split; [reflexivity|].
      apply andb_true_iff in Hc. destruct Hc as [H1 _].
      apply N.leb_le in H1. lia.
Qed.

Lemma digits_refused_true n :
  digits_refused udb n = true ->
  int_max_str_digits udb <> 0 /\ int_max_str_digits udb < n /\ 640 < n.
Proof.
  unfold digits_refused. intros H.
  apply andb_true_iff in H. destruct H as [H H3].
  apply andb_true_iff in H. destruct H as [H1 H2].
  apply Nat.ltb_lt in H1, H2, H3. lia.
Qed.

(** [int] reads every lexeme of the number pattern that has no dot and
    no exponent, unless it has more digits than the limit of the
    interpreter. *)
Lemma py_int_lexeme s lx r :
  match_number udb s = Some (lx, r) ->
  has_float_mark lx = false ->
  match py_int udb lx with
  | Some _ => True
  | None =>
      int_max_str_digits udb <> 0 /\ int_max_str_digits udb < length lx /\
      640 < length lx
  end.
Proof.
  unfold match_number.
  destruct (minus_part s) as [m s1] eqn:Em.
  destruct (int_part udb s1) as [[i s2]|] eqn:Ei; [|discriminate].
  destruct (frac_part udb s2) as [f s3] eqn:Ef.
  destruct (exp_part udb s3) as [e s4] eqn:Ee.
  intros H Hf. injection H as <- <-.
  rewrite !has_float_mark_app in Hf.
  apply orb_false_iff in Hf. destruct Hf as [_ Hf].
  apply orb_false_iff in Hf. destruct Hf as [_ Hf].
  apply orb_false_iff in Hf. destruct Hf as [Hff Hfe].
  assert (f = []) as ->.
  { unfold frac_part in Ef. destruct s2 as [|c s2'].
    - now injection Ef as <- _.
    - destruct (N.eqb_spec c 46) as [->|].
      + destruct (digits udb s2') as [[|d0 d] r'];
          injection Ef as <- _; [reflexivity|].
        apply has_float_mark_cons in Hff. now destruct Hff.
      + now injection Ef as <- _. }
  assert (e = []) as ->.
  { unfold exp_part in Ee. destruct s3 as [|c s3'].
    - now injection Ee as <- _.
    - destruct ((c =? 101)%N || (c =? 69)%N) eqn:Hc.
      + assert (He : forall x, has_float_mark (c :: x) = false -> False).
        { intros x Hx. apply has_float_mark_cons in Hx.
          destruct Hx as (_ & H1 & H2).
          apply orb_true_iff in Hc. destruct Hc as [Hc|Hc];
            apply N.eqb_eq in Hc; contradiction. }
        destruct s3' as [|g s3''].
        * now injection Ee as <- _.
        * destruct ((g =? 43)%N || (g =? 45)%N).
          -- destruct (digits udb s3'') as [[|d0 d] r'];
               injection Ee as <- _; [reflexivity|].
             now apply He in Hfe.
          -- destruct (digits udb (g :: s3'')) as [[|d0 d] r'];
               injection Ee as <- _; [reflexivity|].
             now apply He in Hfe.
      + now injection Ee as <- _. }
  rewrite !app_nil_r.
  apply int_part_digits in Ei. destruct Ei as [Hd (c & i1 & -> & Hc)].
  destruct (digits_value_all (c :: i1) 0%N Hd) as [n Hn].
  unfold minus_part in Em. destruct s as [|c0 s0].
  - injection Em as <- _. cbn [app py_int].
    destruct (N.eqb_spec c 45); [contradiction|].
    destruct (digits_refused udb (length (c :: i1))) eqn:Er;
      [now apply digits_refused_true | now rewrite Hn].
  - destruct (N.eqb_spec c0 45) as [->|].
    + injection Em as <- _. cbn [app py_int N.eqb Pos.eqb].
      destruct (digits_refused udb (length (c :: i1))) eqn:Er;
        [|now rewrite Hn].
      apply digits_refused_true in Er. cbn [length] in *. lia.
    + injection Em as <- _. cbn [app py_int].
      destruct (N.eqb_spec c 45); [contradiction|].
      destruct (digits_refused udb (length (c :: i1))) eqn:Er;
        [now apply digits_refused_true | now rewrite Hn].
Qed.

End LexerFacts.

(** * Facts about the look-ahead and the parser *)

Lemma text_eqb_eq a : forall b, text_eqb a b = true <-> a = b.
Proof.
  induction a as [|x a IH]; intros [|y b]; cbn; split; intros H;
    try reflexivity; try discriminate.
  - apply andb_true_iff in H. destruct H as [H1 H2].
    apply N.eqb_eq in H1. apply IH in H2. now subst.
  - injection H as -> ->. rewrite N.eqb_refl. now apply IH.
Qed.

Lemma is_tok_is k v t s :
  is_tok k (PyStr (text_of s)) t -> k = v -> tok_is t v s = true.
Proof.
  intros [Hk Hv] <-. unfold tok_is. rewrite Hk, Hv. cbn [is_str].
  replace (kind_eqb k k) with true by (destruct k; reflexivity).
  now apply text_eqb_eq.
Qed.

Lemma is_tok_is_not k v t k' s :
  is_tok k v t ->
  kind_eqb k k' && is_str v (text_of s) = false ->
  tok_is t k' s = false.
Proof. intros [Hk Hv] H. unfold tok_is. now rewrite Hk, Hv. Qed.

Section LookAheadFacts.

Variables (la : LookAhead) (t : Token) (ts : list Token).
Hypothesis Htoks : la_tokens la = t :: ts.

(** [next] gives the first token and leaves the others. *)
Lemma la_next_cons :
  exists la1,
    la_next la = Return (t, la1) /\ la_tokens la1 = ts /\
    la_finish la1 = la_finish la.
Proof.
  destruct la as [[ys fin] buf]. unfold la_tokens, la_finish, la_next in *.
  cbn in *. destruct buf as [|b buf].
  - cbn in Htoks. subst ys. cbn. eexists. repeat split.
  - injection Htoks as -> <-. eexists. repeat split.
Qed.

(** [peek] gives the first token and leaves them all. *)
Lemma peek_cons :
  exists la1,
    peek la = Return (t, la1) /\ la_tokens la1 = t :: ts /\
    la_finish la1 = la_finish la.
Proof.
  destruct la as [[ys fin] buf]. unfold la_tokens, la_finish, peek in *.
  cbn in *. destruct buf as [|b buf].
  - cbn in Htoks. subst ys. cbn. eexists. repeat split.
  - injection Htoks as -> <-. eexists. repeat split.
Qed.

Lemma next_tok :
  exists la1,
    or_end_of_input (lift la_next) la = Some (Return (t, la1)) /\
    la_tokens la1 = ts /\ la_finish la1 = la_finish la.
Proof.
  destruct la_next_cons as (la1 & H & ?). exists la1.
  unfold or_end_of_input, lift. now rewrite H.
Qed.

Lemma peek_tok :
  exists la1,
    or_end_of_input (lift peek) la = Some (Return (t, la1)) /\
    la_tokens la1 = t :: ts /\ la_finish la1 = la_finish la.
Proof.
  destruct peek_cons as (la1 & H & ?). exists la1.
  unfold or_end_of_input, lift. now rewrite H.
Qed.

Lemma expect_tok k ev :
  tok_kind t = k ->
  match ev with
  | Some v => is_str (tok_value t) v = true
  | None => True
  end ->
  exists la1,
    _expect k ev la = Some (Return (tok_value t, la1)) /\
    la_tokens la1 = ts /\ la_finish la1 = la_finish la.
Proof.
  intros Hk Hv. destruct next_tok as (la1 & H & ?). exists la1.
  unfold _expect, bind. rewrite H, Hk.
  replace (kind_eqb k k) with true by (destruct k; reflexivity).
  destruct ev as [v|]; [rewrite Hv|]; cbn; now split.
Qed.

End LookAheadFacts.

(** At the end of the tokens [next] raises what the generator ends
    with. *)
Lemma la_next_nil la :
  la_tokens la = [] ->
  la_next la = Raise match la_finish la with
                     | Some e => e
                     | None => StopIteration
                     end.
Proof.
  destruct la as [[ys fin] buf]. unfold la_tokens, la_finish, la_next.
  cbn. intros H. apply app_eq_nil in H. destruct H as [-> ->]. cbn.
  now destruct fin.
Qed.

(** ** The equations of the parser *)

Section ParserEquations.

Variables (fuel : nat) (depth max_depth : Z) (allow_dup : bool).

Lemma _parse_value_eq :
  _parse_value (S fuel) depth max_depth allow_dup =
  if (depth >? max_depth)%Z then raise DepthLimitExceeded
  else
    tok <- or_end_of_input (lift la_next) ;;
    match tok_kind tok with
    | STRING | NUMBER | LITERAL => ret (tok_value tok)
    | _ =>
        if tok_is tok BRACE "{" then
          _parse_object fuel (depth + 1) max_depth allow_dup
        else if tok_is tok BRACKET "[" then
          _parse_array fuel (depth + 1) max_depth allow_dup
        else raise (ValueExpected (tok_kind tok) (tok_value tok))
    end.
Proof. reflexivity. Qed.

Lemma _parse_array_eq :
  _parse_array (S fuel) depth max_depth allow_dup =
  (pk <- or_end_of_input (lift peek) ;;
   if tok_is pk BRACKET "]" then lift la_next ;;; ret (PyList [])
   else array_loop fuel depth max_depth allow_dup []).
Proof. reflexivity. Qed.

Lemma array_loop_eq items :
  array_loop (S fuel) depth max_depth allow_dup items =
  (v <- _parse_value fuel depth max_depth allow_dup ;;
   pk <- or_end_of_input (lift peek) ;;
   if tok_is pk BRACKET "]" then lift la_next ;;; ret (PyList (items ++ [v]))
   else
     _expect COMMA (Some (text_of ",")) ;;;
     array_loop fuel depth max_depth allow_dup (items ++ [v])).
Proof. reflexivity. Qed.

Lemma _parse_object_eq :
  _parse_object (S fuel) depth max_depth allow_dup =
  (pk <- or_end_of_input (lift peek) ;;
   if tok_is pk BRACE "}" then lift la_next ;;; ret (PyDict [])
   else object_loop fuel depth max_depth allow_dup []).
Proof. reflexivity. Qed.

Lemma object_loop_eq obj :
  object_loop (S fuel) depth max_depth allow_dup obj =
  (key <- _expect STRING None ;;
   _expect COLON (Some (text_of ":")) ;;;
   match key with
   | PyStr key =>
       if negb allow_dup && dict_has key obj then raise DuplicateKey
       else
         v <- _parse_value fuel depth max_depth allow_dup ;;
         pk <- or_end_of_input (lift peek) ;;
         if tok_is pk BRACE "}" then
           lift la_next ;;; ret (PyDict (dict_set key v obj))
         else
           _expect COMMA (Some (text_of ",")) ;;;
           object_loop fuel depth max_depth allow_dup (dict_set key v obj)
   | _ => fun _ => Some (Raise TypeError)
   end).
Proof. reflexivity. Qed.

End ParserEquations.

Lemma bind_return A B (m : M A) (f : A -> M B) la a la1 :
  m la = Some (Return (a, la1)) -> bind m f la = f a la1.
Proof. intros H. unfold bind. now rewrite H. Qed.

Lemma bind_raise A B (m : M A) (f : A -> M B) la e :
  m la = Some (Raise e) -> bind m f la = Some (Raise e).
Proof. intros H. unfold bind. now rewrite H. Qed.

Lemma bind_assoc A B C (m : M A) (f : A -> M B) (h : B -> M C) la :
  bind (bind m f) h la = bind m (fun a => bind (f a) h) la.
Proof. unfold bind. destruct (m la) as [[[a la1]|e]|]; reflexivity. Qed.

(** ** The parser on a nest *)

Section NestedParse.

Variables (max_depth : Z) (allow_dup : bool).

(** The innermost tokens are described by [P]; a call of [_parse_value]
    on them at the depth [inner_depth], with [inner_fuel] or more, comes
    to [inner_out]. *)
Variable P : list Token -> Prop.
Variables (inner_depth : Z) (inner_fuel : nat) (inner_out : result pyval).

Hypothesis P_head :
  forall toks, P toks -> exists t ts, toks = t :: ts /\ no_closer t.

Hypothesis P_parse :
  forall toks, P toks ->
  forall fuel la rest,
    inner_fuel <= fuel -> la_tokens la = toks ++ rest ->
    exists r,
      _parse_value fuel inner_depth max_depth allow_dup la = Some r /\
      comes_to inner_out rest (la_finish la) r.

Lemma nested_head sh toks :
  nested P sh toks -> exists t ts, toks = t :: ts /\ no_closer t.
Proof.
  intros [toks0 H|sh0 toks0 t1 t2 H1 _ _|sh0 toks0 t1 tk tc t2 H1 _ _ _ _].
  - now apply P_head.
  - exists t1, (toks0 ++ [t2]). split; [reflexivity|].
    split; now apply (is_tok_is_not _ _ _ _ _ H1).
  - exists t1, (tk :: tc :: toks0 ++ [t2]). split; [reflexivity|].
    split; now apply (is_tok_is_not _ _ _ _ _ H1).
Qed.

(** The descent through the containers of a nest: three calls a level,
    the depth one more at each, down to the innermost value, whose
    outcome every level hands up. *)
Lemma parse_value_nested sh toks :
  nested P sh toks ->
  forall fuel depth la rest,
    3 * length sh + inner_fuel <= fuel ->
    (depth + Z.of_nat (length sh) = inner_depth)%Z ->
    (sh <> [] -> (inner_depth - 1 <= max_depth)%Z) ->
    la_tokens la = toks ++ rest ->
    exists r,
      _parse_value fuel depth max_depth allow_dup la = Some r /\
      comes_to (nest_out sh inner_out) rest (la_finish la) r.
Proof.
  induction 1 as [toks HP
                 |sh toks t1 t2 H1 H2 Hn IH
                 |sh toks t1 tk tc t2 H1 Hk Hc H2 Hn IH];
    intros fuel depth la rest Hfuel Hdepth Hmax Hla.
  - cbn [length] in Hdepth. rewrite Z.add_0_r in Hdepth. subst depth.
    destruct (P_parse toks HP fuel la rest) as (r & Hr & Hc);
      [cbn [length] in Hfuel; lia | assumption |].
    exists r. split; [assumption|]. unfold nest_out.
    destruct inner_out; assumption.
  - (* an array *)
    cbn [length] in Hfuel, Hdepth.
    destruct fuel as [|[|[|fuel]]]; try lia.
    assert (Hd : (depth >? max_depth)%Z = false).
    { rewrite Z.gtb_ltb. apply Z.ltb_ge.
      specialize (Hmax ltac:(discriminate)). lia. }
    rewrite _parse_value_eq, Hd.
    cbn [app] in Hla.
    destruct (next_tok la t1 _ Hla) as (la1 & E1 & Ht1 & Hf1).
    rewrite (bind_return _ _ _ _ _ _ _ E1).
    destruct H1 as [Hk1 Hv1].
    assert (Hb1 : tok_is t1 BRACE "{" = false)
      by (unfold tok_is; now rewrite Hk1).
    assert (Hb2 : tok_is t1 BRACKET "[" = true)
      by (unfold tok_is; now rewrite Hk1, Hv1).
    rewrite Hk1, Hb1, Hb2, _parse_array_eq.
    destruct (nested_head sh toks Hn) as (t & ts & -> & Hnc1 & Hnc2).
    rewrite <- app_assoc in Ht1. cbn [app] in Ht1.
    destruct (peek_tok la1 t _ Ht1) as (la2 & E2 & Ht2 & Hf2).
    rewrite (bind_return _ _ _ _ _ _ _ E2), Hnc1, array_loop_eq.
    destruct (IH fuel (depth + 1)%Z la2 (t2 :: rest)) as (r & Hr & Hcomes);
      [lia | lia | intros _; apply Hmax; discriminate | exact Ht2 |].
    rewrite Hf2, Hf1 in Hcomes.
    unfold nest_out in *. destruct inner_out as [v|e]; cbn [comes_to] in *.
    + destruct Hcomes as (la3 & -> & Ht3 & Hf3).
      rewrite (bind_return _ _ _ _ _ _ _ Hr).
      destruct (peek_tok la3 t2 rest Ht3) as (la4 & E4 & Ht4 & Hf4).
      rewrite (bind_return _ _ _ _ _ _ _ E4).
      rewrite (is_tok_is _ _ _ _ H2 eq_refl).
      destruct (la_next_cons la4 t2 rest Ht4) as (la5 & E5 & Ht5 & Hf5).
      unfold bind, lift, ret. rewrite E5.
      eexists. split; [reflexivity|]. exists la5.
      repeat split; [assumption | congruence].
    + subst r. rewrite (bind_raise _ _ _ _ _ _ Hr).
      eexists. split; reflexivity.
  - (* an object *)
    cbn [length] in Hfuel, Hdepth.
    destruct fuel as [|[|[|fuel]]]; try lia.
    assert (Hd : (depth >? max_depth)%Z = false).
    { rewrite Z.gtb_ltb. apply Z.ltb_ge.
      specialize (Hmax ltac:(discriminate)). lia. }
    rewrite _parse_value_eq, Hd.
    cbn [app] in Hla.
    destruct (next_tok la t1 _ Hla) as (la1 & E1 & Ht1 & Hf1).
    rewrite (bind_return _ _ _ _ _ _ _ E1).
    pose proof (is_tok_is _ _ _ _ H1 eq_refl) as Hb1.
    destruct H1 as [Hk1 Hv1].
    rewrite Hk1, Hb1, _parse_object_eq.
    destruct (peek_tok la1 tk _ Ht1) as (la2 & E2 & Ht2 & Hf2).
    rewrite (bind_return _ _ _ _ _ _ _ E2).
    rewrite (is_tok_is_not _ _ _ BRACE "}" Hk eq_refl), object_loop_eq.
    destruct Hk as [Hkk Hkv]. destruct Hc as [Hck Hcv].
    destruct (expect_tok la2 tk _ Ht2 STRING None Hkk I)
      as (la3 & E3 & Ht3 & Hf3).
    rewrite (bind_return _ _ _ _ _ _ _ E3).
    assert (Hcs : is_str (tok_value tc) (text_of ":") = true)
      by now rewrite Hcv.
    destruct (expect_tok la3 tc _ Ht3 COLON (Some (text_of ":")) Hck Hcs)
      as (la4 & E4 & Ht4 & Hf4).
    rewrite (bind_return _ _ _ _ _ _ _ E4), Hkv.
    cbn [dict_has]. rewrite andb_false_r.
    rewrite <- app_assoc in Ht4. cbn [app] in Ht4.
    destruct (IH fuel (depth + 1)%Z la4 (t2 :: rest)) as (r & Hr & Hcomes);
      [lia | lia | intros _; apply Hmax; discriminate | exact Ht4 |].
    rewrite Hf4, Hf3, Hf2, Hf1 in Hcomes.
    unfold nest_out in *. destruct inner_out as [v|e]; cbn [comes_to] in *.
    + destruct Hcomes as (la5 & -> & Ht5 & Hf5).
      rewrite (bind_return _ _ _ _ _ _ _ Hr).
      destruct (peek_tok la5 t2 rest Ht5) as (la6 & E6 & Ht6 & Hf6).
      rewrite (bind_return _ _ _ _ _ _ _ E6).
      rewrite (is_tok_is _ _ _ _ H2 eq_refl).
      destruct (la_next_cons la6 t2 rest Ht6) as (la7 & E7 & Ht7 & Hf7).
      unfold bind, lift, ret. rewrite E7.
      eexists. split; [reflexivity|]. exists la7.
      repeat split; [assumption | congruence].
    + subst r. rewrite (bind_raise _ _ _ _ _ _ Hr).
      eexists. split; reflexivity.
Qed.

End NestedParse.

(** ** The tokens of a nest *)

Section NestLexing.

Variable udb : UnicodeData.

(** A character that is a token by itself, whatever follows. *)
Lemma lex_from_single c k x pos :
  In (c, k) [(91, BRACKET); (93, BRACKET); (123, BRACE); (125, BRACE);
             (58, COLON); (44, COMMA)]%N ->
  lex_from udb (c :: x) pos =
  gen_yield {| tok_kind := k; tok_value := PyStr [c]; tok_offset := pos |}
    (lex_from udb x (pos + 1)).
Proof.
  intros H. apply (lex_from_token udb (c :: x) pos k [c] x (PyStr [c])).
  - cbn [In] in H.
    repeat (destruct H as [H|H]; [injection H as <- <-; reflexivity|]).
    contradiction.
  - cbn [In] in H.
    repeat (destruct H as [H|H]; [injection H as <- <-; discriminate|]).
    contradiction.
  - cbn [In] in H.
    repeat (destruct H as [H|H]; [injection H as <- <-; reflexivity|]).
    contradiction.
Qed.

(** The key ["k"] is a string token, whatever follows. *)
Lemma lex_from_key x pos :
  lex_from udb (jtext "'k'" ++ x) pos =
  gen_yield {| tok_kind := STRING; tok_value := PyStr (text_of "k");
               tok_offset := pos |}
    (lex_from udb x (pos + 3)).
Proof.
  apply (lex_from_token udb (jtext "'k'" ++ x) pos STRING (jtext "'k'") x
           (PyStr (text_of "k"))).
  - reflexivity.
  - discriminate.
  - reflexivity.
Qed.

(** The number [1] before the end of the text or a closing character. *)
Lemma lex_from_one tail pos :
  closing tail ->
  lex_from udb (text_of "1" ++ tail) pos =
  gen_yield {| tok_kind := NUMBER; tok_value := PyInt 1; tok_offset := pos |}
    (lex_from udb tail (pos + 1)).
Proof.
  intros H.
  apply (lex_from_token udb (text_of "1" ++ tail) pos NUMBER (text_of "1")
           tail (PyInt 1)).
  - destruct H as [->|(c & r & ->)]; [reflexivity|].
    destruct c; reflexivity.
  - discriminate.
  - reflexivity.
Qed.

Lemma gen_prepend_yield toks t g :
  gen_prepend toks (gen_yield t g) = gen_prepend (toks ++ [t]) g.
Proof.
  unfold gen_prepend, gen_yield. cbn. now rewrite <- app_assoc.
Qed.

Lemma gen_prepend_nil g : gen_prepend [] g = g.
Proof. now destruct g. Qed.

Lemma emits_one : emits udb (text_of "1") one_number.
Proof.
  intros tail pos H. rewrite (lex_from_one tail pos H).
  eexists [_]. split; [|reflexivity].
  eexists. split; [reflexivity|]. split; reflexivity.
Qed.

Lemma emits_empty c : emits udb (empty_container c) (empty_tokens c).
Proof.
  intros tail pos _. destruct c; cbn [empty_container].
  - change (text_of "[]" ++ tail) with (91 :: 93 :: tail)%N.
    rewrite (lex_from_single 91 BRACKET), (lex_from_single 93 BRACKET);
      [|cbn; tauto..].
    change (length (text_of "[]")) with 2.
    replace (pos + 2) with (pos + 1 + 1) by lia.
    eexists [_; _]. split; [|reflexivity].
    eexists _, _. split; [reflexivity|]. repeat split.
  - change (text_of "{}" ++ tail) with (123 :: 125 :: tail)%N.
    rewrite (lex_from_single 123 BRACE), (lex_from_single 125 BRACE);
      [|cbn; tauto..].
    change (length (text_of "{}")) with 2.
    replace (pos + 2) with (pos + 1 + 1) by lia.
    eexists [_; _]. split; [|reflexivity].
    eexists _, _. split; [reflexivity|]. repeat split.
Qed.

(** The tokens of a nest are those of its innermost text between the
    tokens of its containers. *)
Lemma emits_nest inner P sh :
  emits udb inner P -> emits udb (nest sh inner) (nested P sh).
Proof.
  intros Hin. induction sh as [|c sh IH]; intros tail pos Hcl.
  - destruct (Hin tail pos Hcl) as (toks & HP & E).
    exists toks. split; [now constructor | exact E].
  - destruct c; cbn [nest opener closer].
    + change ((text_of "[" ++ nest sh inner ++ text_of "]") ++ tail)
        with (91%N :: (nest sh inner ++ text_of "]") ++ tail).
      rewrite <- app_assoc.
      rewrite (lex_from_single 91 BRACKET); [|cbn; tauto].
      destruct (IH (text_of "]" ++ tail) (pos + 1)) as (toks & Hn & E).
      { right. now exists Arr, tail. }
      rewrite E.
      change (text_of "]" ++ tail) with (93%N :: tail).
      rewrite (lex_from_single 93 BRACKET); [|cbn; tauto].
      exists ({| tok_kind := BRACKET; tok_value := PyStr [91%N];
                 tok_offset := pos |}
              :: toks
              ++ [{| tok_kind := BRACKET; tok_value := PyStr [93%N];
                     tok_offset := pos + 1 + length (nest sh inner) |}]).
      split.
      * apply nested_arr; [split; reflexivity | split; reflexivity | exact Hn].
      * rewrite gen_prepend_yield. unfold gen_yield, gen_prepend. cbn.
        match goal with
        | |- context [lex_from udb tail ?p] =>
            replace p with (pos + 1 + length (nest sh inner) + 1)
              by (rewrite length_app; cbn; lia)
        end.
        reflexivity.
    + change ((jtext "{'k':" ++ nest sh inner ++ text_of "}") ++ tail)
        with (123%N :: jtext "'k'" ++ 58%N
                :: (nest sh inner ++ text_of "}") ++ tail).
      rewrite <- app_assoc.
      rewrite (lex_from_single 123 BRACE); [|cbn; tauto].
      rewrite lex_from_key.
      rewrite (lex_from_single 58 COLON); [|cbn; tauto].
      destruct (IH (text_of "}" ++ tail) (pos + 1 + 3 + 1))
        as (toks & Hn & E).
      { right. now exists Obj, tail. }
      rewrite E.
      change (text_of "}" ++ tail) with (125%N :: tail).
      rewrite (lex_from_single 125 BRACE); [|cbn; tauto].
      exists ({| tok_kind := BRACE; tok_value := PyStr [123%N];
                 tok_offset := pos |}
              :: {| tok_kind := STRING; tok_value := PyStr (text_of "k");
                    tok_offset := pos + 1 |}
              :: {| tok_kind := COLON; tok_value := PyStr [58%N];
                    tok_offset := pos + 1 + 3 |}
              :: toks
              ++ [{| tok_kind := BRACE; tok_value := PyStr [125%N];
                     tok_offset :=
                       pos + 1 + 3 + 1 + length (nest sh inner) |}]).
      split.
      * apply nested_obj; [split; reflexivity.. | exact Hn].
      * rewrite gen_prepend_yield. unfold gen_yield, gen_prepend. cbn.
        match goal with
        | |- context [lex_from udb tail ?p] =>
            replace p with (pos + 1 + 3 + 1 + length (nest sh inner) + 1)
              by (rewrite length_app; cbn; lia)
        end.
        reflexivity.
Qed.

(** The whole text of a nest: [lex] yields its tokens and ends
    normally. *)
Lemma lex_nest inner P sh :
  emits udb inner P ->
  exists toks,
    nested P sh toks /\
    lex udb (nest sh inner) = {| yields := toks; finish := None |}.
Proof.
  intros Hin.
  destruct (emits_nest inner P sh Hin [] 0) as (toks & Hn & E);
    [now left|].
  exists toks. split; [exact Hn|].
  rewrite app_nil_r, lex_from_nil in E.
  change (lex udb (nest sh inner)) with (lex_from udb (nest sh inner) 0).
  rewrite E. unfold gen_prepend, gen_return. cbn. now rewrite app_nil_r.
Qed.

End NestLexing.

(** ** [parse] of a nest *)

Lemma nested_length P sh toks :
  (forall ts, P ts -> 1 <= length ts) ->
  nested P sh toks -> 2 * length sh + 1 <= length toks.
Proof.
  intros HP. induction 1 as [toks H| |]; cbn [length].
  - apply HP in H. lia.
  - rewrite length_app. cbn [length]. lia.
  - rewrite length_app. cbn [length]. lia.
Qed.

Lemma nested_root P sh toks :
  (sh <> [] \/
   forall ts, P ts ->
     exists t ts', ts = t :: ts' /\
                   (tok_kind t = BRACE \/ tok_kind t = BRACKET)) ->
  nested P sh toks ->
  exists t ts, toks = t :: ts /\ (tok_kind t = BRACE \/ tok_kind t = BRACKET).
Proof.
  intros Hroot Hn.
  destruct Hn as [toks0 H|sh0 toks0 t1 t2 [H1 _] _ _
                 |sh0 toks0 t1 tk tc t2 [H1 _] _ _ _ _].
  - destruct Hroot as [Hne|HP]; [now elim Hne | now apply HP].
  - eexists _, _. split; [reflexivity | now right].
  - eexists _, _. split; [reflexivity | now left].
Qed.

Section ParseNest.

Variables (udb : UnicodeData) (max_depth : Z) (allow_dup : bool).
Variables (inner : text) (P : list Token -> Prop) (sh : list container).
Variables (inner_fuel : nat) (inner_out : result pyval).

Hypothesis inner_emits : emits udb inner P.

Hypothesis P_head :
  forall toks, P toks -> exists t ts, toks = t :: ts /\ no_closer t.

Hypothesis P_root :
  sh <> [] \/
  forall ts, P ts ->
    exists t ts', ts = t :: ts' /\
                  (tok_kind t = BRACE \/ tok_kind t = BRACKET).

Hypothesis P_parse :
  forall toks, P toks ->
  forall fuel la rest,
    inner_fuel <= fuel -> la_tokens la = toks ++ rest ->
    exists r,
      _parse_value fuel (Z.of_nat (length sh)) max_depth allow_dup la
        = Some r /\
      comes_to inner_out rest (la_finish la) r.

Hypothesis fuel_small : inner_fuel <= 4.

Hypothesis levels_allowed :
  sh <> [] -> (Z.of_nat (length sh) - 1 <= max_depth)%Z.

(** [parse] of a nest comes to what the innermost value comes to at the
    depth of the number of containers around it. *)
Lemma parse_nest :
  parse udb max_depth allow_dup (nest sh inner) =
  Some (nest_out sh inner_out).
Proof.
  destruct (lex_nest udb inner P sh inner_emits) as (toks & Hn & Hlex).
  unfold parse. rewrite Hlex.
  set (g := {| yields := toks; finish := None |}).
  destruct (nested_root P sh toks P_root Hn) as (t & ts & Ht & Hkind).
  assert (Hla0 : la_tokens (LookAhead_init g) = t :: ts) by exact Ht.
  destruct (peek_cons _ _ _ Hla0) as (la1 & E1 & Ht1 & Hf1).
  unfold parse_tokens. unfold bind at 1, lift at 1. rewrite E1.
  replace (negb (kind_eqb (tok_kind t) BRACE || kind_eqb (tok_kind t) BRACKET))
    with false by (destruct Hkind as [-> | ->]; reflexivity).
  assert (Hlen : 2 * length sh + 1 <= length toks).
  { apply (nested_length P); [|assumption].
    intros ts0 H0. apply P_head in H0.
    destruct H0 as (? & ? & -> & _). cbn. lia. }
  destruct (parse_value_nested max_depth allow_dup P
              (Z.of_nat (length sh)) inner_fuel inner_out P_head P_parse
              sh toks Hn (parse_fuel g) 0%Z la1 [])
    as (r & Hr & Hcomes).
  - unfold parse_fuel. cbn [yields g]. lia.
  - lia.
  - exact levels_allowed.
  - now rewrite app_nil_r, Ht1, Ht.
  - unfold nest_out in *.
    destruct inner_out as [v|e]; cbn [comes_to] in Hcomes.
    + destruct Hcomes as (la2 & -> & Ht2 & Hf2).
      rewrite (bind_return _ _ _ _ _ _ _ Hr).
      rewrite (la_next_nil la2 Ht2), Hf2, Hf1. reflexivity.
    + subst r. now rewrite (bind_raise _ _ _ _ _ _ Hr).
Qed.

End ParseNest.

(** The three innermost values of the depth claim. *)

Lemma one_number_head toks :
  one_number toks -> exists t ts, toks = t :: ts /\ no_closer t.
Proof.
  intros (t & -> & H). exists t, []. split; [reflexivity|].
  split; now apply (is_tok_is_not _ _ _ _ _ H).
Qed.

Lemma empty_tokens_head c toks :
  empty_tokens c toks -> exists t ts, toks = t :: ts /\ no_closer t.
Proof.
  intros (t1 & t2 & -> & H). exists t1, [t2]. split; [reflexivity|].
  destruct c; destruct H as [H _];
    split; now apply (is_tok_is_not _ _ _ _ _ H).
Qed.

Lemma empty_tokens_root c toks :
  empty_tokens c toks ->
  exists t ts, toks = t :: ts /\ (tok_kind t = BRACE \/ tok_kind t = BRACKET).
Proof.
  intros (t1 & t2 & -> & H). exists t1, [t2]. split; [reflexivity|].
  destruct c; destruct H as [[H _] _]; [now right | now left].
Qed.

(** A value parsed deeper than the limit. *)
Lemma parse_one_too_deep max_depth allow_dup depth toks :
  (depth > max_depth)%Z ->
  one_number toks ->
  forall fuel la rest,
    1 <= fuel -> la_tokens la = toks ++ rest ->
    exists r,
      _parse_value fuel depth max_depth allow_dup la = Some r /\
      comes_to (Raise (SyntaxError DepthLimitExceeded)) rest (la_finish la) r.
Proof.
  intros Hd _ fuel la rest Hfuel _.
  destruct fuel as [|fuel]; [lia|]. rewrite _parse_value_eq.
  replace (depth >? max_depth)%Z with true
    by (symmetry; rewrite Z.gtb_ltb; apply Z.ltb_lt; lia).
  eexists. split; reflexivity.
Qed.

(** A number parsed within the limit. *)
Lemma parse_one_allowed max_depth allow_dup depth toks :
  (depth <= max_depth)%Z ->
  one_number toks ->
  forall fuel la rest,
    1 <= fuel -> la_tokens la = toks ++ rest ->
    exists r,
      _parse_value fuel depth max_depth allow_dup la = Some r /\
      comes_to (Return (PyInt 1)) rest (la_finish la) r.
Proof.
  intros Hd (t & -> & Hk & Hv) fuel la rest Hfuel Hla.
  destruct fuel as [|fuel]; [lia|]. rewrite _parse_value_eq.
  replace (depth >? max_depth)%Z with false
    by (symmetry; rewrite Z.gtb_ltb; apply Z.ltb_ge; lia).
  destruct (next_tok la t rest Hla) as (la1 & E1 & Ht1 & Hf1).
  rewrite (bind_return _ _ _ _ _ _ _ E1), Hk, Hv.
  eexists. split; [reflexivity|]. now exists la1.
Qed.

(** An empty container parsed within the limit: nothing is parsed one
    level deeper. *)
Lemma parse_empty_allowed max_depth allow_dup depth c toks :
  (depth <= max_depth)%Z ->
  empty_tokens c toks ->
  forall fuel la rest,
    2 <= fuel -> la_tokens la = toks ++ rest ->
    exists r,
      _parse_value fuel depth max_depth allow_dup la = Some r /\
      comes_to (Return (empty_value c)) rest (la_finish la) r.
Proof.
  intros Hd (t1 & t2 & -> & H) fuel la rest Hfuel Hla.
  destruct fuel as [|[|fuel]]; try lia. rewrite _parse_value_eq.
  replace (depth >? max_depth)%Z with false
    by (symmetry; rewrite Z.gtb_ltb; apply Z.ltb_ge; lia).
  destruct (next_tok la t1 (t2 :: rest) Hla) as (la1 & E1 & Ht1 & Hf1).
  rewrite (bind_return _ _ _ _ _ _ _ E1).
  destruct (peek_tok la1 t2 rest Ht1) as (la2 & E2 & Ht2 & Hf2).
  destruct (la_next_cons la2 t2 rest Ht2) as (la3 & E3 & Ht3 & Hf3).
  destruct c; destruct H as [H1 H2].
  - pose proof (is_tok_is _ _ _ _ H1 eq_refl) as Hb1.
    pose proof (is_tok_is _ _ _ _ H2 eq_refl) as Hb2.
    assert (Hb0 : tok_is t1 BRACE "{" = false)
      by now apply (is_tok_is_not _ _ _ _ _ H1).
    destruct H1 as [Hk1 _]. rewrite Hk1, Hb0, Hb1, _parse_array_eq.
    rewrite (bind_return _ _ _ _ _ _ _ E2), Hb2.
    unfold bind, lift, ret. rewrite E3.
    eexists. split; [reflexivity|]. exists la3.
    repeat split; [assumption | congruence].
  - pose proof (is_tok_is _ _ _ _ H1 eq_refl) as Hb1.
    pose proof (is_tok_is _ _ _ _ H2 eq_refl) as Hb2.
    destruct H1 as [Hk1 _]. rewrite Hk1, Hb1, _parse_object_eq.
    rewrite (bind_return _ _ _ _ _ _ _ E2), Hb2.
    unfold bind, lift, ret. rewrite E3.
    eexists. split; [reflexivity|]. exists la3.
    repeat split; [assumption | congruence].
Qed.

(** * The fuel of [parse] is enough *)

Section Termination.

Lemma terminates_weaken A b c b' c' (m : M A) :
  terminates b c m -> b' <= b -> c' <= c -> terminates b' c' m.
Proof.
  intros H Hb Hc la Hla. destruct (H la ltac:(lia)) as (r & Hr & Hret).
  exists r. split; [assumption|]. intros a la1 E.
  specialize (Hret a la1 E). lia.
Qed.

Lemma terminates_bind A B b c c1 c2 (m : M A) (f : A -> M B) :
  c <= c1 + c2 ->
  terminates b c1 m ->
  (forall a b', b' + c1 <= b -> terminates b' c2 (f a)) ->
  terminates b c (bind m f).
Proof.
  intros Hc Hm Hf la Hla. destruct (Hm la Hla) as (r & Hr & Hret).
  unfold bind. rewrite Hr. destruct r as [[a la1]|e].
  - specialize (Hret a la1 eq_refl).
    destruct (Hf a (length (la_tokens la1)) ltac:(lia) la1 (Nat.le_refl _))
      as (r2 & Hr2 & Hret2).
    exists r2. split; [assumption|]. intros a2 la2 E.
    specialize (Hret2 a2 la2 E). lia.
  - eexists. split; [reflexivity|]. discriminate.
Qed.

Lemma terminates_ret A b (a : A) : terminates b 0 (ret a).
Proof.
  intros la _. eexists. split; [reflexivity|].
  intros a1 la1 E. injection E as <- <-. lia.
Qed.

Lemma terminates_raise A b c e : terminates b c (@raise A e).
Proof. intros la _. eexists. split; [reflexivity|]. discriminate. Qed.

Lemma la_next_length la t la1 :
  la_next la = Return (t, la1) ->
  length (la_tokens la1) + 1 = length (la_tokens la).
Proof.
  destruct la as [[ys fin] buf]. unfold la_next, la_tokens, gen_next. cbn.
  destruct buf as [|b buf]; cbn.
  - destruct ys as [|y ys]; cbn.
    + destruct fin; discriminate.
    + intros E. injection E as <- <-. cbn. lia.
  - intros E. injection E as <- <-. cbn. lia.
Qed.

Lemma peek_length la t la1 :
  peek la = Return (t, la1) ->
  length (la_tokens la1) = length (la_tokens la).
Proof.
  destruct la as [[ys fin] buf]. unfold peek, la_tokens, gen_next. cbn.
  destruct buf as [|b buf]; cbn.
  - destruct ys as [|y ys]; cbn.
    + destruct fin; discriminate.
    + intros E. injection E as <- <-. reflexivity.
  - intros E. injection E as <- <-. reflexivity.
Qed.

Lemma terminates_lift_next b : terminates b 1 (lift la_next).
Proof.
  intros la _. eexists. split; [reflexivity|].
  intros t la1 E. apply la_next_length in E. lia.
Qed.

Lemma terminates_lift_peek b : terminates b 0 (lift peek).
Proof.
  intros la _. eexists. split; [reflexivity|].
  intros t la1 E. apply peek_length in E. lia.
Qed.

Lemma terminates_or_end A b c (m : M A) :
  terminates b c m -> terminates b c (or_end_of_input m).
Proof.
  intros H la Hla. destruct (H la Hla) as (r & Hr & Hret).
  unfold or_end_of_input. rewrite Hr.
  destruct r as [[a la1]|e].
  - eexists. split; [reflexivity | exact Hret].
  - destruct e; eexists; (split; [reflexivity | discriminate]).
Qed.

Lemma terminates_expect b k ev : terminates b 1 (_expect k ev).
Proof.
  unfold _expect. apply (terminates_bind _ _ b 1 1 0); [lia | |].
  - apply terminates_or_end, terminates_lift_next.
  - intros tok b' _.
    destruct (_ || _); [apply terminates_raise | apply terminates_ret].
Qed.

(** What ends a container: the closing token is consumed. *)
Lemma terminates_close b (v : pyval) :
  terminates b 1 (lift la_next ;;; ret v).
Proof.
  apply (terminates_bind _ _ b 1 1 0); [lia | |].
  - apply terminates_lift_next.
  - intros _ b' _. apply terminates_ret.
Qed.

Variables (max_depth : Z) (allow_dup : bool).

(** With three units of fuel for every token still to be read, no
    procedure runs out of fuel, and each has consumed a token when it
    returns. *)
Lemma parser_terminates fuel :
  (forall depth b,
     3 * b + 1 <= fuel ->
     terminates b 1 (_parse_value fuel depth max_depth allow_dup)) /\
  (forall depth b,
     3 * b + 3 <= fuel ->
     terminates b 1 (_parse_array fuel depth max_depth allow_dup)) /\
  (forall depth b items,
     3 * b + 2 <= fuel ->
     terminates b 1 (array_loop fuel depth max_depth allow_dup items)) /\
  (forall depth b,
     3 * b + 3 <= fuel ->
     terminates b 1 (_parse_object fuel depth max_depth allow_dup)) /\
  (forall depth b obj,
     3 * b + 2 <= fuel ->
     terminates b 1 (object_loop fuel depth max_depth allow_dup obj)).
Proof.
  induction fuel as [|fuel (IHv & IHa & IHla & IHo & IHlo)].
  - repeat split; intros; lia.
  - split; [|split; [|split; [|split]]].
    + (* _parse_value *)
      intros depth b Hb. rewrite _parse_value_eq.
      destruct (depth >? max_depth)%Z; [apply terminates_raise|].
      apply (terminates_bind _ _ b 1 1 0); [lia | |].
      * apply terminates_or_end, terminates_lift_next.
      * intros tok b' Hb'.
        assert (Hc : terminates b' 0
                  (if tok_is tok BRACE "{"
                   then _parse_object fuel (depth + 1) max_depth allow_dup
                   else if tok_is tok BRACKET "["
                        then _parse_array fuel (depth + 1) max_depth allow_dup
                        else raise (ValueExpected (tok_kind tok)
                                      (tok_value tok)))).
        { destruct (tok_is tok BRACE "{").
          - apply (terminates_weaken _ b' 1); [apply IHo| |]; lia.
          - destruct (tok_is tok BRACKET "[").
            + apply (terminates_weaken _ b' 1); [apply IHa| |]; lia.
            + apply terminates_raise. }
        destruct (tok_kind tok); try exact Hc; apply terminates_ret.
    + (* _parse_array *)
      intros depth b Hb. rewrite _parse_array_eq.
      apply (terminates_bind _ _ b 1 0 1); [lia | |].
      * apply terminates_or_end, terminates_lift_peek.
      * intros pk b' Hb'. destruct (tok_is pk BRACKET "]").
        -- apply terminates_close.
        -- apply IHla. lia.
    + (* array_loop *)
      intros depth b items Hb. rewrite array_loop_eq.
      apply (terminates_bind _ _ b 1 1 0); [lia | |].
      * apply IHv. lia.
      * intros v b1 Hb1.
        apply (terminates_bind _ _ b1 0 0 0); [lia | |].
        -- apply terminates_or_end, terminates_lift_peek.
        -- intros pk b2 Hb2. destruct (tok_is pk BRACKET "]").
           ++ apply (terminates_weaken _ b2 1);
                [apply terminates_close | |]; lia.
           ++ apply (terminates_bind _ _ b2 0 1 1); [lia | |].
              ** apply terminates_expect.
              ** intros _ b3 Hb3. apply IHla. lia.
    + (* _parse_object *)
      intros depth b Hb. rewrite _parse_object_eq.
      apply (terminates_bind _ _ b 1 0 1); [lia | |].
      * apply terminates_or_end, terminates_lift_peek.
      * intros pk b' Hb'. destruct (tok_is pk BRACE "}").
        -- apply terminates_close.
        -- apply IHlo. lia.
    + (* object_loop *)
      intros depth b obj Hb. rewrite object_loop_eq.
      apply (terminates_bind _ _ b 1 1 0); [lia | |].
      * apply terminates_expect.
      * intros key b1 Hb1.
        apply (terminates_bind _ _ b1 0 1 0); [lia | |].
        -- apply terminates_expect.
        -- intros _ b2 Hb2.
           destruct key as [k| | | | | |];
             try (intros la _; eexists; split; [reflexivity | discriminate]).
           destruct (negb allow_dup && dict_has k obj);
             [apply terminates_raise|].
           apply (terminates_bind _ _ b2 0 1 0); [lia | |].
           ++ apply IHv. lia.
           ++ intros v b3 Hb3.
              apply (terminates_bind _ _ b3 0 0 0); [lia | |].
              ** apply terminates_or_end, terminates_lift_peek.
              ** intros pk b4 Hb4. destruct (tok_is pk BRACE "}").
                 --- apply (terminates_weaken _ b4 1);
                       [apply terminates_close | |]; lia.
                 --- apply (terminates_bind _ _ b4 0 1 1); [lia | |].
                     +++ apply terminates_expect.
                     +++ intros _ b5 Hb5. apply IHlo. lia.
Qed.

End Termination.

(** X1. [parse] never runs out of the fuel it computes: on every text
    it returns a value or raises. *)
Lemma parse_terminates udb max_depth allow_dup t :
  exists r, parse udb max_depth allow_dup t = Some r.
Proof.
  unfold parse. set (g := lex udb t).
  assert (H : terminates (length (yields g)) 0
                (parse_tokens (parse_fuel g) max_depth allow_dup)).
  { unfold parse_tokens.
    apply (terminates_bind _ _ _ 0 0 0); [lia | apply terminates_lift_peek|].
    intros first b' Hb'. destruct (negb _).
    - apply (terminates_bind _ _ _ 0 0 0);
        [lia | apply terminates_lift_peek|].
      intros again b2 _. apply terminates_raise.
    - apply (terminates_bind _ _ _ 0 1 0); [lia | |].
      + apply (parser_terminates max_depth allow_dup (parse_fuel g)).
        unfold parse_fuel. lia.
      + intros result b2 _ la _.
        destruct (la_next la) as [[tok la1]|e] eqn:E.
        * eexists. split; [reflexivity | discriminate].
        * destruct e; eexists;
            (split; [reflexivity|]); try discriminate.
          intros a la1 E1. injection E1 as <- <-. lia. }
  destruct (H (LookAhead_init g) (Nat.le_refl _)) as (r & Hr & _).
  rewrite Hr. destruct r as [[v la1]|e]; eexists; reflexivity.
Qed.

(** * What [lex] and [parse] can raise *)

(** [lex] ends normally, with the error of a gap, or with what the
    value of a token raised. *)
Lemma lex_loop_finish udb ms : forall pos n e,
  finish (lex_loop udb ms pos n) = Some e ->
  (exists p, e = SyntaxError (InvalidCharacter p)) \/
  exists m, In m ms /\ token_value udb m = Raise e.
Proof.
  induction ms as [|m ms IH]; intros pos n e; cbn [lex_loop].
  - destruct (negb (pos =? n)); cbn; [|discriminate].
    intros H. injection H as <-. left. now eexists.
  - destruct (negb (m_start m =? pos)); cbn.
    + intros H. injection H as <-. left. now eexists.
    + assert (Hrec : finish (lex_loop udb ms (m_end m) n) = Some e ->
                (exists p, e = SyntaxError (InvalidCharacter p)) \/
                exists m0, In m0 (m :: ms) /\ token_value udb m0 = Raise e).
      { intros H. apply IH in H. destruct H as [H|(m0 & H1 & H2)];
          [now left | right; exists m0; split; [now right | assumption]]. }
      destruct (m_kind m) eqn:Ek; try exact Hrec.
      all: destruct (token_value udb m) as [v|e0] eqn:Ev; cbn;
        [exact Hrec|].
      all: intros H; injection H as <-; right; exists m;
        split; [now left | assumption].
Qed.

(** No structural error of the validator ends [lex]. *)
Lemma lex_finish_not_structural udb t e :
  finish (lex udb t) = Some e -> ~ structural_error e.
Proof.
  intros H [off Hs]. apply lex_loop_finish in H.
  destruct H as [[p ->]|(m & Hm & Hv)].
  - destruct Hs as [Hs|Hs]; discriminate Hs.
  - apply finditer_In in Hm. destruct Hm as [r Hm].
    unfold token_value in Hv. destruct (m_kind m) eqn:Ek;
      try discriminate Hv.
    + apply match_token_inv in Hm. cbn beta iota in Hm.
      apply match_string_shape in Hm. destruct Hm as [_ (body & Hb & Hu)].
      rewrite Hb in Hv.
      destruct (validate_string_lexeme udb body (m_start m) off Hu)
        as [H1 H2].
      destruct (_validate_string udb (dquote :: body ++ [dquote])
                  (m_start m)) as [v|e0]; [discriminate|].
      injection Hv as ->. destruct Hs as [-> | ->]; congruence.
    + unfold number_value in Hv.
      destruct (has_float_mark (m_group m)); [discriminate|].
      destruct (py_int udb (m_group m)); [discriminate|].
      injection Hv as <-. destruct Hs as [Hs|Hs]; discriminate Hs.
    + unfold literal_value in Hv.
      repeat (destruct (text_eqb _ _); [discriminate|]).
      injection Hv as <-. destruct Hs as [Hs|Hs]; discriminate Hs.
Qed.

Section PassesOn.

Lemma passes_on_bind A B (m : M A) (f : A -> M B) :
  passes_on m -> (forall a, passes_on (f a)) -> passes_on (bind m f).
Proof.
  intros Hm Hf la r. unfold bind.
  destruct (m la) as [[[a la1]|e]|] eqn:E; [| |discriminate].
  - intros H. pose proof (Hm la _ E) as H1. cbn in H1.
    pose proof (Hf a la1 r H) as H2.
    destruct r as [[b la2]|e]; [congruence|]. now rewrite <- H1.
  - intros H. injection H as <-. exact (Hm la _ E).
Qed.

Lemma passes_on_ret A (a : A) : passes_on (ret a).
Proof. intros la r H. injection H as <-. reflexivity. Qed.

Lemma passes_on_raise A e :
  parser_error (SyntaxError e) -> passes_on (@raise A e).
Proof. intros He la r H. injection H as <-. now right. Qed.

Lemma la_next_finish la :
  match la_next la with
  | Return (_, la1) => la_finish la1 = la_finish la
  | Raise e => la_finish la = Some e \/ parser_error e
  end.
Proof.
  destruct la as [[ys fin] buf]. unfold la_next, la_finish, gen_next. cbn.
  destruct buf as [|b buf]; cbn; [|reflexivity].
  destruct ys as [|y ys]; cbn; [|reflexivity].
  destruct fin; [now left | now right].
Qed.

Lemma peek_finish la :
  match peek la with
  | Return (_, la1) => la_finish la1 = la_finish la
  | Raise e => la_finish la = Some e \/ parser_error e
  end.
Proof.
  destruct la as [[ys fin] buf]. unfold peek, la_finish, gen_next. cbn.
  destruct buf as [|b buf]; cbn; [|reflexivity].
  destruct ys as [|y ys]; cbn; [|reflexivity].
  destruct fin; [now left | now right].
Qed.

Lemma passes_on_lift_next : passes_on (lift la_next).
Proof.
  intros la r H. injection H as <-. pose proof (la_next_finish la) as H.
  destruct (la_next la) as [[t la1]|e]; exact H.
Qed.

Lemma passes_on_lift_peek : passes_on (lift peek).
Proof.
  intros la r H. injection H as <-. pose proof (peek_finish la) as H.
  destruct (peek la) as [[t la1]|e]; exact H.
Qed.

Lemma passes_on_or_end A (m : M A) :
  passes_on m -> passes_on (or_end_of_input m).
Proof.
  intros Hm la r. unfold or_end_of_input.
  destruct (m la) as [[[a la1]|e]|] eqn:E; [| |discriminate].
  - intros H. injection H as <-. exact (Hm la _ E).
  - pose proof (Hm la _ E) as H1. cbn in H1.
    destruct e; intros H; injection H as <-; try exact H1.
    right. exact I.
Qed.

Lemma passes_on_expect k ev : passes_on (_expect k ev).
Proof.
  unfold _expect. apply passes_on_bind.
  - apply passes_on_or_end, passes_on_lift_next.
  - intros tok. destruct (_ || _);
      [now apply passes_on_raise | apply passes_on_ret].
Qed.

Lemma passes_on_close (v : pyval) : passes_on (lift la_next ;;; ret v).
Proof.
  apply passes_on_bind; [apply passes_on_lift_next|].
  intros _. apply passes_on_ret.
Qed.

Variables (max_depth : Z) (allow_dup : bool).

Lemma parser_passes_on fuel :
  (forall depth, passes_on (_parse_value fuel depth max_depth allow_dup)) /\
  (forall depth, passes_on (_parse_array fuel depth max_depth allow_dup)) /\
  (forall depth items,
     passes_on (array_loop fuel depth max_depth allow_dup items)) /\
  (forall depth, passes_on (_parse_object fuel depth max_depth allow_dup)) /\
  (forall depth obj,
     passes_on (object_loop fuel depth max_depth allow_dup obj)).
Proof.
  induction fuel as [|fuel (IHv & IHa & IHla & IHo & IHlo)].
  - repeat split; intros; intros la r H; discriminate H.
  - split; [|split; [|split; [|split]]].
    + intros depth. rewrite _parse_value_eq.
      destruct (depth >? max_depth)%Z; [now apply passes_on_raise|].
      apply passes_on_bind.
      * apply passes_on_or_end, passes_on_lift_next.
      * intros tok.
        assert (Hc : passes_on
                  (if tok_is tok BRACE "{"
                   then _parse_object fuel (depth + 1) max_depth allow_dup
                   else if tok_is tok BRACKET "["
                        then _parse_array fuel (depth + 1) max_depth allow_dup
                        else raise (ValueExpected (tok_kind tok)
                                      (tok_value tok)))).
        { destruct (tok_is tok BRACE "{"); [apply IHo|].
          destruct (tok_is tok BRACKET "["); [apply IHa|].
          now apply passes_on_raise. }
        destruct (tok_kind tok); try exact Hc; apply passes_on_ret.
    + intros depth. rewrite _parse_array_eq. apply passes_on_bind.
      * apply passes_on_or_end, passes_on_lift_peek.
      * intros pk. destruct (tok_is pk BRACKET "]");
          [apply passes_on_close | apply IHla].
    + intros depth items. rewrite array_loop_eq.
      apply passes_on_bind; [apply IHv|]. intros v.
      apply passes_on_bind.
      * apply passes_on_or_end, passes_on_lift_peek.
      * intros pk. destruct (tok_is pk BRACKET "]");
          [apply passes_on_close|].
        apply passes_on_bind; [apply passes_on_expect|].
        intros _. apply IHla.
    + intros depth. rewrite _parse_object_eq. apply passes_on_bind.
      * apply passes_on_or_end, passes_on_lift_peek.
      * intros pk. destruct (tok_is pk BRACE "}");
          [apply passes_on_close | apply IHlo].
    + intros depth obj. rewrite object_loop_eq.
      apply passes_on_bind; [apply passes_on_expect|]. intros key.
      apply passes_on_bind; [apply passes_on_expect|]. intros _.
      destruct key as [k| | | | | |];
        try (intros la r H; injection H as <-; right; exact I).
      destruct (negb allow_dup && dict_has k obj);
        [now apply passes_on_raise|].
      apply passes_on_bind; [apply IHv|]. intros v.
      apply passes_on_bind.
      * apply passes_on_or_end, passes_on_lift_peek.
      * intros pk. destruct (tok_is pk BRACE "}");
          [apply passes_on_close|].
        apply passes_on_bind; [apply passes_on_expect|].
        intros _. apply IHlo.
Qed.

End PassesOn.

(** What [parse] raises is what [lex] ends with or an error of the
    parser. *)
Lemma parse_raises udb max_depth allow_dup t e :
  parse udb max_depth allow_dup t = Some (Raise e) ->
  finish (lex udb t) = Some e \/ parser_error e.
Proof.
  unfold parse. set (g := lex udb t).
  assert (H : passes_on (parse_tokens (parse_fuel g) max_depth allow_dup)).
  { unfold parse_tokens. apply passes_on_bind; [apply passes_on_lift_peek|].
    intros first. destruct (negb _).
    - apply passes_on_bind; [apply passes_on_lift_peek|].
      intros again. now apply passes_on_raise.
    - apply passes_on_bind; [apply parser_passes_on|].
      intros result la r Hr. pose proof (la_next_finish la) as Hn.
      destruct (la_next la) as [[tok la1]|e0].
      + injection Hr as <-. now right.
      + destruct e0; injection Hr as <-; try exact Hn. reflexivity. }
  destruct (parse_tokens (parse_fuel g) max_depth allow_dup
              (LookAhead_init g)) as [[[v la1]|e0]|] eqn:E;
    try discriminate.
  intros Hr. injection Hr as ->. exact (H _ _ E).
Qed.

(** No structural error of the validator leaves [parse]. *)
Lemma parse_not_structural udb max_depth allow_dup t e :
  parse udb max_depth allow_dup t = Some (Raise e) -> ~ structural_error e.
Proof.
  intros H. apply parse_raises in H. destruct H as [H|H].
  - now apply lex_finish_not_structural in H.
  - intros [off [-> | ->]]; exact H.
Qed.

(** * The claims about tokens, strings and the entry point *)

(** C1. What the code does at a valid surrogate pair. The interior
    [\uD83D\uDE00] passes the scan of the escapes; the codec decodes the
    two escapes to the two code points U+D83D and U+DE00, one after the
    other, and does not combine them; the scan for surrogates that follows
    then raises the unpaired-surrogate error, from the validator and from
    [parse] of the array that holds the string. *)
Theorem surrogate_pair_is_rejected : forall udb,
  check_escapes (text_of "\uD83D\uDE00") 0 0 = Return tt /\
  unicode_escape_decode udb (text_of "\uD83D\uDE00")
    = Some [0xD83D; 0xDE00]%N /\
  _validate_string udb (jtext "'\uD83D\uDE00'") 0
    = Raise (SyntaxError UnpairedSurrogate) /\
  parse_default udb (jtext "['\uD83D\uDE00']")
    = Some (Raise (SyntaxError UnpairedSurrogate)).
Proof. intros udb. repeat split; vm_compute; reflexivity. Qed.

(** C3, as the code has it. Lexing [01] does not fail: the number
    pattern matches [0] at offset 0 and [1] at offset 1, and [lex] yields
    the two number tokens and ends normally. The leading zero is rejected
    by the parser: [parse] of [01] fails at the root, and [parse] of
    [[01]] fails at the second digit, where a comma is expected. *)
Theorem leading_zero_lexes_as_two_numbers : forall udb,
  lex udb (text_of "01") =
    {| yields :=
         [ {| tok_kind := NUMBER; tok_value := PyInt 0; tok_offset := 0 |};
           {| tok_kind := NUMBER; tok_value := PyInt 1; tok_offset := 1 |} ];
       finish := None |} /\
  parse_default udb (text_of "01") =
    Some (Raise (SyntaxError (RootMustBeContainer NUMBER (PyInt 0) 0))) /\
  parse_default udb (text_of "[01]") =
    Some (Raise (SyntaxError
      (UnexpectedToken NUMBER (PyInt 1) 2 COMMA (Some (text_of ","))))).
Proof. intros udb. repeat split; vm_compute; reflexivity. Qed.

(** C3 as stated fails: [lex] of [01] ends normally, with no error of
    any offset, after two tokens. *)
Lemma leading_zero_is_no_lexical_error :
  finish (lex ascii_only (text_of "01")) = None /\
  length (yields (lex ascii_only (text_of "01"))) = 2 /\
  forall off,
    finish (lex ascii_only (text_of "01"))
    <> Some (SyntaxError (InvalidCharacter off)).
Proof. repeat split; try reflexivity. intros off. discriminate. Qed.

(** C6. What the code does at the escape of the solidus and at a
    character outside ASCII. The interior [\/] passes the scan as a
    short escape, and the codec, which does not know it, leaves the
    backslash and the solidus in the decoded text; the seven other short
    escapes are decoded to their characters. The unescaped character
    U+00E9 is encoded as the two bytes 0xC3 0xA9, which the codec reads as
    the two code points U+00C3 and U+00A9. *)
Theorem solidus_escape_is_kept : forall udb,
  check_escapes (text_of "\/") 0 0 = Return tt /\
  _validate_string udb (jtext "'\/'") 0 = Return [92; 47]%N /\
  _validate_string udb (jtext "'\'\\\b\f\n\r\t'") 0
    = Return [34; 92; 8; 12; 10; 13; 9]%N /\
  _validate_string udb [dquote; 233; dquote]%N 0 = Return [195; 169]%N /\
  parse_default udb (jtext "['\/']")
    = Some (Return (PyList [PyStr [92; 47]%N])).
Proof. intros udb. repeat split; vm_compute; reflexivity. Qed.

(** C7. What the code does at an input with no token. The first [peek]
    of [parse] is outside any handler, and the [StopIteration] of the
    exhausted generator leaves [parse] as it is, for the empty text and for
    a text of white space; at every other [peek] the handler turns it into
    the error of an unexpected end of input, as for [[]. *)
Theorem parse_of_no_token_raises_StopIteration : forall udb,
  parse_default udb [] = Some (Raise StopIteration) /\
  parse_default udb (text_of "  ") = Some (Raise StopIteration) /\
  parse_default udb (text_of "[")
    = Some (Raise (SyntaxError UnexpectedEndOfInput)).
Proof. intros udb. repeat split; vm_compute; reflexivity. Qed.

(** C8. Under the default configuration [parse] of [{"a":1,"a":2}]
    fails with the duplicate-key error; with duplicate keys allowed it
    returns the dict of the one entry [a], whose value is 2, the last
    occurrence. *)
Theorem duplicate_key_policy : forall udb,
  parse_default udb (jtext "{'a':1,'a':2}")
    = Some (Raise (SyntaxError DuplicateKey)) /\
  parse udb DEPTH_LIMIT_DEFAULT true (jtext "{'a':1,'a':2}")
    = Some (Return (PyDict [(text_of "a", PyInt 2)])).
Proof. intros udb. split; vm_compute; reflexivity. Qed.



(** C10. The structural errors of the validator, unterminated string
    and trailing backslash, are out of reach of [lex] and of [parse].
    Every lexeme that the string group of the pattern matches, in any text,
    has two characters or more, begins with a quote and ends with a quote
    that no backslash escapes, its interior being made of whole plain
    characters and escapes; on such a lexeme the validator raises neither
    error; no such error ends [lex], and none leaves [parse]. A quote
    that the loop of [lex] reaches and from which the string pattern finds
    no lexeme ends [lex] with the error of a gap in the coverage (invalid
    character), at the offset of that quote. *)
Theorem string_lexemes_are_closed : forall udb t,
  (forall m,
     In m (finditer udb t) -> m_kind m = STRING ->
     2 <= length (m_group m) /\
     (exists body,
        m_group m = dquote :: body ++ [dquote] /\ escape_units body) /\
     (forall off,
        _validate_string udb (m_group m) (m_start m)
        <> Raise (SyntaxError (UnterminatedString off))) /\
     (forall off,
        _validate_string udb (m_group m) (m_start m)
        <> Raise (SyntaxError (TrailingBackslash off)))) /\
  (forall e, finish (lex udb t) = Some e -> ~ structural_error e) /\
  (forall max_depth allow_dup e,
     parse udb max_depth allow_dup t = Some (Raise e) ->
     ~ structural_error e) /\
  (forall pos rest,
     lexes_to udb t pos ->
     skipn pos t = dquote :: rest ->
     match_string (dquote :: rest) = None ->
     finish (lex udb t) = Some (SyntaxError (InvalidCharacter pos))).
Proof.
  intros udb t. split; [|split; [|split]].
  - intros m Hm Hk. apply finditer_In in Hm. destruct Hm as [r Hm].
    rewrite Hk in Hm. apply match_token_inv in Hm. cbn beta iota in Hm.
    apply match_string_shape in Hm. destruct Hm as [_ (body & Hb & Hu)].
    rewrite Hb. split; [|split; [|split]].
    + cbn [length]. rewrite length_app. simpl. lia.
    + now exists body.
    + intros off. now apply validate_string_lexeme.
    + intros off. now apply validate_string_lexeme.
  - intros e. apply lex_finish_not_structural.
  - intros max_depth allow_dup e. apply parse_not_structural.
  - intros pos rest. apply lex_unclosed_string.
Qed.

Lemma string_lexemes_are_closed_witness :
  (2 <= length (jtext "'a\'b'") /\
   (exists body,
      jtext "'a\'b'" = dquote :: body ++ [dquote] /\ escape_units body) /\
   (forall off,
      _validate_string ascii_only (jtext "'a\'b'") 1
      <> Raise (SyntaxError (UnterminatedString off))) /\
   (forall off,
      _validate_string ascii_only (jtext "'a\'b'") 1
      <> Raise (SyntaxError (TrailingBackslash off)))) /\
  finish (lex ascii_only (jtext "['a\'b', 'abc"))
    = Some (SyntaxError (InvalidCharacter 9)).
Proof.
  pose (t := jtext "['a\'b', 'abc").
  split.
  - apply (proj1 (string_lexemes_are_closed ascii_only t)
             {| m_kind := STRING; m_group := jtext "'a\'b'"; m_start := 1 |}).
    + vm_compute. right. left. reflexivity.
    + reflexivity.
  - apply (proj2 (proj2 (proj2 (string_lexemes_are_closed ascii_only t)))
             9 (text_of "abc")).
    + apply (lexes_step ascii_only t 8 WHITESPACE (text_of " ")
               (jtext "'abc") (PyStr (text_of " "))); [|reflexivity..].
      apply (lexes_step ascii_only t 7 COMMA (text_of ",")
               (jtext " 'abc") (PyStr (text_of ","))); [|reflexivity..].
      apply (lexes_step ascii_only t 1 STRING (jtext "'a\'b'")
               (jtext ", 'abc") (PyStr (jtext "a'b"))); [|reflexivity..].
      apply (lexes_step ascii_only t 0 BRACKET (text_of "[")
               (jtext "'a\'b', 'abc") (PyStr (text_of "["))); [|reflexivity..].
      apply lexes_start.
    + reflexivity.
    + reflexivity.
Defined.

(** * The claims about the depth limit and the root *)




(** C4, as the code has it. The root test is on the kind of the first
    token, and the kinds of the braces and of the brackets do not tell
    opening from closing. A text whose first token has another kind (a
    string, a number, a literal, a comma or a colon) fails with the root
    error, which reports the kind, value and offset of that token. A text
    whose first token is a closing brace or bracket passes the root test
    and fails in [_parse_value], with the value-expected error. *)
Theorem root_test_is_on_the_kind :
  forall udb max_depth allow_dup t tok rest,
    yields (lex udb t) = tok :: rest ->
    (tok_kind tok <> BRACE -> tok_kind tok <> BRACKET ->
     parse udb max_depth allow_dup t =
     Some (Raise (SyntaxError
       (RootMustBeContainer (tok_kind tok) (tok_value tok)
          (tok_offset tok))))) /\
    ((0 <= max_depth)%Z ->
     tok_is tok BRACE "}" = true \/ tok_is tok BRACKET "]" = true ->
     parse udb max_depth allow_dup t =
     Some (Raise (SyntaxError
       (ValueExpected (tok_kind tok) (tok_value tok))))).
Proof.
  intros udb max_depth allow_dup t tok rest Hlex.
  assert (Hla0 : la_tokens (LookAhead_init (lex udb t)) = tok :: rest)
    by exact Hlex.
  destruct (peek_cons _ _ _ Hla0) as (la1 & E1 & Ht1 & Hf1).
  assert (E1' : lift peek (LookAhead_init (lex udb t))
                = Some (Return (tok, la1)))
    by (unfold lift; now rewrite E1).
  unfold parse, parse_tokens. rewrite (bind_return _ _ _ _ _ _ _ E1').
  split.
  - intros H1 H2.
    replace (negb (kind_eqb (tok_kind tok) BRACE
                   || kind_eqb (tok_kind tok) BRACKET)) with true
      by (destruct (tok_kind tok); try reflexivity; congruence).
    destruct (peek_cons _ _ _ Ht1) as (la2 & E2 & _).
    assert (E2' : lift peek la1 = Some (Return (tok, la2)))
      by (unfold lift; now rewrite E2).
    now rewrite (bind_return _ _ _ _ _ _ _ E2').
  - intros Hmd Hclose.
    assert (Hk : (tok_kind tok = BRACE \/ tok_kind tok = BRACKET) /\
                 tok_is tok BRACE "{" = false /\
                 tok_is tok BRACKET "[" = false).
    { unfold tok_is in *.
      destruct Hclose as [H|H]; apply andb_true_iff in H;
        destruct H as [Hkind Hval];
        destruct (tok_kind tok); try discriminate;
        destruct (tok_value tok) as [s| | | | | |]; try discriminate;
        cbn [is_str] in *; apply text_eqb_eq in Hval; subst s;
        repeat split; auto. }
    destruct Hk as (Hkind & Hb1 & Hb2).
    replace (negb (kind_eqb (tok_kind tok) BRACE
                   || kind_eqb (tok_kind tok) BRACKET)) with false
      by (destruct Hkind as [-> | ->]; reflexivity).
    unfold parse_fuel. rewrite Hlex. cbn [length].
    replace (3 * S (length rest) + 1) with (S (3 * length rest + 3)) by lia.
    rewrite _parse_value_eq.
    replace (0 >? max_depth)%Z with false
      by (symmetry; rewrite Z.gtb_ltb; apply Z.ltb_ge; lia).
    destruct (next_tok la1 tok rest Ht1) as (la2 & E2 & _).
    rewrite bind_assoc, (bind_return _ _ _ _ _ _ _ E2), Hb1, Hb2.
    destruct Hkind as [-> | ->]; reflexivity.
Qed.

Lemma root_test_is_on_the_kind_witness :
  parse_default ascii_only (text_of "true") =
    Some (Raise (SyntaxError (RootMustBeContainer LITERAL (PyBool true) 0)))
  /\
  parse_default ascii_only (text_of " }") =
    Some (Raise (SyntaxError (ValueExpected BRACE (PyStr (text_of "}"))))).
Proof.
  split.
  - apply (proj1 (root_test_is_on_the_kind ascii_only DEPTH_LIMIT_DEFAULT
                    false (text_of "true")
                    {| tok_kind := LITERAL; tok_value := PyBool true;
                       tok_offset := 0 |} [] eq_refl));
      discriminate.
  - apply (proj2 (root_test_is_on_the_kind ascii_only DEPTH_LIMIT_DEFAULT
                    false (text_of " }")
                    {| tok_kind := BRACE; tok_value := PyStr (text_of "}");
                       tok_offset := 1 |} [] eq_refl)).
    + discriminate.
    + left. reflexivity.
Defined.

(** C4 as stated fails: [parse] of a lone closing bracket, or brace, does
    not raise the root error; it raises the value-expected error. *)
Lemma closing_bracket_passes_the_root_test :
  parse_default ascii_only (text_of "]") =
    Some (Raise (SyntaxError (ValueExpected BRACKET (PyStr (text_of "]")))))
  /\
  parse_default ascii_only (text_of "}") =
    Some (Raise (SyntaxError (ValueExpected BRACE (PyStr (text_of "}")))))
  /\
  parse_default ascii_only (text_of "]") <>
    Some (Raise (SyntaxError
      (RootMustBeContainer BRACKET (PyStr (text_of "]")) 0))).
Proof. repeat split; try reflexivity. discriminate. Qed.

(** * Further properties of the code *)

(** ** The look-ahead holds one token *)

(** X2. [LookAhead] is a one-slot buffer. On a look-ahead whose buffer
    holds at most one token, as it does from its construction on: a [peek]
    that returns leaves one token in the buffer and all the tokens to come;
    a second [peek] returns the same token and changes nothing; [next]
    after the [peek] does what [next] alone would have done; and a [next]
    that returns leaves the buffer empty, the token returned being the
    first of those that were to come. *)
Theorem lookahead_one_slot : forall la t la1,
  length (_buf la) <= 1 ->
  (peek la = Return (t, la1) ->
   peek la1 = Return (t, la1) /\
   la_next la1 = la_next la /\
   length (_buf la1) = 1 /\
   la_tokens la1 = la_tokens la) /\
  (la_next la = Return (t, la1) ->
   _buf la1 = [] /\ la_tokens la = t :: la_tokens la1).
Proof.
  intros [[ys fin] buf] t la1 Hbuf.
  unfold peek, la_next, la_tokens, gen_next. cbn in *.
  destruct buf as [|b [|b2 buf]]; cbn in *; [| |lia].
  - destruct ys as [|y ys]; cbn.
    + split; intros H; destruct fin; discriminate H.
    + split; intros H; injection H as <- <-; cbn; repeat split.
  - split; intros H; injection H as <- <-; cbn; repeat split.
Qed.

Lemma lookahead_one_slot_witness :
  let la := LookAhead_init (lex ascii_only (text_of "[1]")) in
  let t := {| tok_kind := BRACKET; tok_value := PyStr (text_of "[");
              tok_offset := 0 |} in
  let la1 := {| _iter := {| yields := tl (yields (_iter la));
                            finish := None |};
                _buf := [t] |} in
  peek la1 = Return (t, la1) /\
  la_next la1 = la_next la /\
  length (_buf la1) = 1 /\
  la_tokens la1 = la_tokens la.
Proof.
  intros la t la1.
  apply (proj1 (lookahead_one_slot la t la1 (Nat.le_0_l 1))).
  reflexivity.
Defined.

(** ** Offsets and coverage *)

Lemma lex_from_offsets udb n : forall s pos,
  length s <= n ->
  Forall (fun tok => pos <= tok_offset tok < pos + length s)
    (yields (lex_from udb s pos)) /\
  StronglySorted lt (map tok_offset (yields (lex_from udb s pos))).
Proof.
  induction n as [|n IH]; intros s pos Hn.
  - destruct s; [|simpl in Hn; lia]. rewrite lex_from_nil.
    split; constructor.
  - destruct (match_token udb s) as [[[k lx] r]|] eqn:E.
    + pose proof (match_token_app udb s k lx r E) as [Hs Hne].
      assert (Hlx : 1 <= length lx) by (destruct lx; [congruence|cbn; lia]).
      assert (Hlen : length s = length lx + length r)
        by (rewrite Hs; apply length_app).
      destruct (IH r (pos + length lx) ltac:(lia)) as [Hrange Hsorted].
      assert (Hrange' :
                Forall (fun tok => pos <= tok_offset tok < pos + length s)
                  (yields (lex_from udb r (pos + length lx)))).
      { eapply Forall_impl; [|exact Hrange]. cbn. intros tok Ht. lia. }
      rewrite (lex_from_step udb s pos k lx r E).
      assert (Hyield : forall v,
                Forall (fun tok => pos <= tok_offset tok < pos + length s)
                  (yields (gen_yield
                     {| tok_kind := k; tok_value := v; tok_offset := pos |}
                     (lex_from udb r (pos + length lx)))) /\
                StronglySorted lt
                  (map tok_offset (yields (gen_yield
                     {| tok_kind := k; tok_value := v; tok_offset := pos |}
                     (lex_from udb r (pos + length lx)))))).
      { intros v. cbn [gen_yield yields map tok_offset]. split.
        - constructor; [cbn; lia | exact Hrange'].
        - constructor; [exact Hsorted|].
          apply Forall_map. eapply Forall_impl; [|exact Hrange].
          cbn. intros tok Ht. lia. }
      destruct k; try (destruct (token_value udb _) as [v|e];
                       [apply Hyield | split; constructor]).
      split; assumption.
    + destruct s as [|c s]; [rewrite lex_from_nil; split; constructor|].
      rewrite (lex_from_stuck udb c s pos E). split; constructor.
Qed.

(** X3. The tokens that [lex] yields stand at strictly increasing
    offsets, each inside the text. *)
Theorem lex_offsets_increase : forall udb t,
  StronglySorted lt (map tok_offset (yields (lex udb t))) /\
  Forall (fun tok => tok_offset tok < length t) (yields (lex udb t)).
Proof.
  intros udb t.
  destruct (lex_from_offsets udb (length t) t 0 (Nat.le_refl _))
    as [Hrange Hsorted].
  split; [exact Hsorted|].
  eapply Forall_impl; [|exact Hrange]. cbn. intros tok Ht. lia.
Qed.

Lemma lex_from_covers udb n : forall s pos,
  length s <= n ->
  finish (lex_from udb s pos) = None ->
  concat (map m_group (finditer_from udb s pos 0)) = s /\
  length (yields (lex_from udb s pos)) =
  length (filter is_token_match (finditer_from udb s pos 0)).
Proof.
  induction n as [|n IH]; intros s pos Hn Hfin.
  - destruct s; [|simpl in Hn; lia]. rewrite lex_from_nil.
    rewrite finditer_from_eq.
    destruct (match_token udb []) as [[[k lx] r]|] eqn:E; [|now split].
    apply match_token_app in E. destruct E as [E Hne].
    destruct lx; [congruence | discriminate].
  - destruct (match_token udb s) as [[[k lx] r]|] eqn:E.
    + pose proof (match_token_app udb s k lx r E) as [Hs Hne].
      assert (Hlx : 1 <= length lx) by (destruct lx; [congruence|cbn; lia]).
      assert (Hlen : length s = length lx + length r)
        by (rewrite Hs; apply length_app).
      rewrite (lex_from_step udb s pos k lx r E) in *.
      rewrite (finditer_from_match udb s pos k lx r E).
      cbn [map concat m_group filter is_token_match m_kind].
      assert (Hrec : finish (lex_from udb r (pos + length lx)) = None ->
                lx ++ concat (map m_group
                                (finditer_from udb r (pos + length lx) 0)) = s
                /\ length (yields (lex_from udb r (pos + length lx))) =
                   length (filter is_token_match
                             (finditer_from udb r (pos + length lx) 0))).
      { intros H. destruct (IH r (pos + length lx) ltac:(lia) H) as [H1 H2].
        now rewrite H1. }
      destruct k; try (destruct (token_value udb _) as [v|e];
                       [|discriminate Hfin];
                       cbn [gen_yield finish yields length] in *;
                       destruct (Hrec Hfin) as [H1 H2];
                       split; [exact H1 | cbn; now rewrite H2]).
      now apply Hrec.
    + destruct s as [|c s].
      * rewrite lex_from_nil, finditer_from_eq, E. now split.
      * rewrite (lex_from_stuck udb c s pos E) in Hfin. discriminate.
Qed.

(** X4. When [lex] ends normally the matches cover the text: their
    lexemes, in order, make up the text, character for character, and
    every match that is not white space has given one token. *)
Theorem lex_covers_the_text : forall udb t,
  finish (lex udb t) = None ->
  concat (map m_group (finditer udb t)) = t /\
  length (yields (lex udb t)) =
  length (filter is_token_match (finditer udb t)).
Proof.
  intros udb t. apply (lex_from_covers udb (length t) t 0 (Nat.le_refl _)).
Qed.

Lemma lex_covers_the_text_witness :
  concat (map m_group (finditer ascii_only (jtext "{'a' : [1, true]}")))
    = jtext "{'a' : [1, true]}" /\
  length (yields (lex ascii_only (jtext "{'a' : [1, true]}"))) =
  length (filter is_token_match
            (finditer ascii_only (jtext "{'a' : [1, true]}"))).
Proof.
  apply (lex_covers_the_text ascii_only (jtext "{'a' : [1, true]}")).
  reflexivity.
Defined.

(** ** The scan of the escapes *)

(** A prefix that passes the scan is passed over: the scan of the whole
    interior goes on after it. *)
Lemma check_escapes_app n : forall pre rest i ts,
  length pre <= n ->
  check_escapes pre i ts = Return tt ->
  check_escapes (pre ++ rest) i ts =
  check_escapes rest (i + length pre) ts.
Proof.
  induction n as [|n IH]; intros pre rest i ts Hn H.
  - destruct pre; [|simpl in Hn; lia]. cbn. now rewrite Nat.add_0_r.
  - destruct pre as [|ch r1]; [cbn; now rewrite Nat.add_0_r|].
    cbn [app check_escapes length] in *.
    destruct (N.eqb ch backslash).
    + destruct r1 as [|esc r2]; [discriminate|].
      cbn [app length] in *.
      destruct (N.eqb esc (ord "u")).
      * destruct r2 as [|h1 [|h2 [|h3 [|h4 r6]]]]; try discriminate.
        cbn [app length] in *.
        destruct (forallb _ _); [|discriminate].
        rewrite IH; [f_equal; lia | lia | assumption].
      * destruct (mem esc short_escapes); [|discriminate].
        rewrite IH; [f_equal; lia | lia | assumption].
    + rewrite IH; [f_equal; lia | lia | assumption].
Qed.

(** X6. The first escape that is wrong is reported at its backslash.
    After a prefix of the interior that passes the scan, a backslash before
    a character that starts no escape raises the invalid-escape error; a
    [\u] with fewer than four characters after it raises the short-escape
    error; a [\u] whose four characters are not all hexadecimal raises the
    invalid-hex error with the six characters of the escape; each at the
    offset of the start of the token, plus one for the quote, plus the
    length of the prefix. *)
Theorem bad_escape_is_located : forall udb pre ts,
  check_escapes pre 0 ts = Return tt ->
  (forall e rest,
     N.eqb e (ord "u") = false -> mem e short_escapes = false ->
     _validate_string udb
       (dquote :: (pre ++ backslash :: e :: rest) ++ [dquote]) ts =
     Raise (SyntaxError (InvalidEscape e (ts + 1 + length pre)))) /\
  (forall hs,
     length hs < 4 ->
     _validate_string udb
       (dquote :: (pre ++ backslash :: ord "u" :: hs) ++ [dquote]) ts =
     Raise (SyntaxError (ShortUnicodeEscape (ts + 1 + length pre)))) /\
  (forall h1 h2 h3 h4 rest,
     forallb (fun c => mem c hexdigits) [h1; h2; h3; h4] = false ->
     _validate_string udb
       (dquote
        :: (pre ++ backslash :: ord "u" :: h1 :: h2 :: h3 :: h4 :: rest)
        ++ [dquote]) ts =
     Raise (SyntaxError
       (InvalidHexEscape [backslash; ord "u"; h1; h2; h3; h4]
          (ts + 1 + length pre)))).
Proof.
  intros udb pre ts Hpre. split; [|split].
  - intros e rest Hu He. rewrite validate_string_closed.
    rewrite (check_escapes_app (length pre) pre _ 0 ts (Nat.le_refl _) Hpre).
    cbn [check_escapes]. rewrite N.eqb_refl, Hu, He. reflexivity.
  - intros hs Hlen. rewrite validate_string_closed.
    rewrite (check_escapes_app (length pre) pre _ 0 ts (Nat.le_refl _) Hpre).
    cbn [check_escapes]. rewrite !N.eqb_refl.
    destruct hs as [|h1 [|h2 [|h3 [|h4 hs]]]]; try reflexivity.
    cbn in Hlen. lia.
  - intros h1 h2 h3 h4 rest Hx. rewrite validate_string_closed.
    rewrite (check_escapes_app (length pre) pre _ 0 ts (Nat.le_refl _) Hpre).
    cbn [check_escapes]. rewrite !N.eqb_refl, Hx. reflexivity.
Qed.

Lemma bad_escape_is_located_witness :
  _validate_string ascii_only (jtext "'ab\n\q'") 5 =
    Raise (SyntaxError (InvalidEscape (ord "q") 10)) /\
  _validate_string ascii_only (jtext "'ab\n\u12'") 5 =
    Raise (SyntaxError (ShortUnicodeEscape 10)) /\
  _validate_string ascii_only (jtext "'ab\n\u123g'") 5 =
    Raise (SyntaxError (InvalidHexEscape (text_of "\u123g") 10)).
Proof.
  pose proof (bad_escape_is_located ascii_only (text_of "ab\n") 5 eq_refl)
    as (H1 & H2 & H3).
  split; [|split].
  - apply (H1 (ord "q") []); reflexivity.
  - apply (H2 (text_of "12")). cbn. lia.
  - apply (H3 (ord "1") (ord "2") (ord "3") (ord "g") []). reflexivity.
Defined.

(** ** Where the validator decodes as JSON does *)

Lemma utf8_encode_ascii s :
  Forall (fun c => (c < 128)%N) s -> utf8_encode s = Some s.
Proof.
  induction 1 as [|c s Hc _ IH]; [reflexivity|].
  cbn [utf8_encode]. rewrite IH. unfold utf8_char.
  replace (c <? 128)%N with true by (symmetry; now apply N.ltb_lt).
  reflexivity.
Qed.

Lemma hex_digit_bound c v : hex_digit c = Some v -> (v <= 15)%N.
Proof.
  unfold hex_digit.
  destruct ((48 <=? c)%N && (c <=? 57)%N) eqn:E1.
  - apply andb_true_iff in E1. destruct E1 as [H1 H2].
    apply N.leb_le in H1, H2. intros H. injection H as <-. lia.
  - destruct ((97 <=? c)%N && (c <=? 102)%N) eqn:E2.
    + apply andb_true_iff in E2. destruct E2 as [H1 H2].
      apply N.leb_le in H1, H2. intros H. injection H as <-. lia.
    + destruct ((65 <=? c)%N && (c <=? 70)%N) eqn:E3; [|discriminate].
      apply andb_true_iff in E3. destruct E3 as [H1 H2].
      apply N.leb_le in H1, H2. intros H. injection H as <-. lia.
Qed.

Lemma hex_digit_mem c v : hex_digit c = Some v -> mem c hexdigits = true.
Proof.
  unfold hex_digit.
  destruct ((48 <=? c)%N && (c <=? 57)%N) eqn:E1.
  - apply andb_true_iff in E1. destruct E1 as [H1 H2].
    apply N.leb_le in H1, H2. intros _.
    assert (H : (c = 48 \/ c = 49 \/ c = 50 \/ c = 51 \/ c = 52 \/ c = 53 \/
                 c = 54 \/ c = 55 \/ c = 56 \/ c = 57)%N) by lia.
    repeat (destruct H as [->|H]; [reflexivity|]). now subst.
  - destruct ((97 <=? c)%N && (c <=? 102)%N) eqn:E2.
    + apply andb_true_iff in E2. destruct E2 as [H1 H2].
      apply N.leb_le in H1, H2. intros _.
      assert (H : (c = 97 \/ c = 98 \/ c = 99 \/ c = 100 \/ c = 101 \/
                   c = 102)%N) by lia.
      repeat (destruct H as [->|H]; [reflexivity|]). now subst.
    + destruct ((65 <=? c)%N && (c <=? 70)%N) eqn:E3; [|discriminate].
      apply andb_true_iff in E3. destruct E3 as [H1 H2].
      apply N.leb_le in H1, H2. intros _.
      assert (H : (c = 65 \/ c = 66 \/ c = 67 \/ c = 68 \/ c = 69 \/
                   c = 70)%N) by lia.
      repeat (destruct H as [->|H]; [reflexivity|]). now subst.
Qed.

Lemma hex_digit_not_backslash c v :
  hex_digit c = Some v -> N.eqb c backslash = false.
Proof.
  intros H. apply N.eqb_neq. intros ->. discriminate H.
Qed.

(** Four hexadecimal digits: a value below 0x10000, digits that the scan
    accepts, none of them a backslash. *)
Lemma hex_value_four (h1 h2 h3 h4 : char) v :
  hex_value [h1; h2; h3; h4] 0 = Some v ->
  (v <= 0xFFFF)%N /\
  forallb (fun c : char => mem c hexdigits) [h1; h2; h3; h4] = true /\
  N.eqb h1 backslash = false /\ N.eqb h2 backslash = false /\
  N.eqb h3 backslash = false /\ N.eqb h4 backslash = false.
Proof.
  cbn [hex_value].
  destruct (hex_digit h1) as [v1|] eqn:E1; [|discriminate].
  destruct (hex_digit h2) as [v2|] eqn:E2; [|discriminate].
  destruct (hex_digit h3) as [v3|] eqn:E3; [|discriminate].
  destruct (hex_digit h4) as [v4|] eqn:E4; [|discriminate].
  intros H. injection H as <-.
  pose proof (hex_digit_bound _ _ E1). pose proof (hex_digit_bound _ _ E2).
  pose proof (hex_digit_bound _ _ E3). pose proof (hex_digit_bound _ _ E4).
  split; [lia|]. split.
  - cbn [forallb].
    now rewrite (hex_digit_mem _ _ E1), (hex_digit_mem _ _ E2),
      (hex_digit_mem _ _ E3), (hex_digit_mem _ _ E4).
  - repeat split; eapply hex_digit_not_backslash; eassumption.
Qed.

(** A short escape other than that of the solidus: the scan accepts
    it and the codec writes its character. *)
Lemma short_escape_decoded udb e x s :
  short_escape_char e = Some x ->
  N.eqb e 47 = false ->
  N.eqb e (ord "u") = false /\
  mem e short_escapes = true /\
  escape_seq udb e s = Some ([x], 0).
Proof.
  unfold short_escape_char. intros H H47.
  repeat match type of H with
  | (if N.eqb e ?k then _ else _) = _ =>
      destruct (N.eqb_spec e k) as [->|_];
        [try discriminate H47; injection H as <-;
         repeat split; reflexivity|]
  end.
  discriminate.
Qed.

Lemma json_unescape_decoded udb n : forall body d i ts,
  length body <= n ->
  escapes_solidus body = false ->
  json_unescape body = Some d ->
  check_escapes body i ts = Return tt /\
  unicode_escape_from udb body 0 = Some d.
Proof.
  induction n as [|n IH]; intros body d i ts Hn Hsol Hd.
  - destruct body; [|simpl in Hn; lia]. injection Hd as <-. now split.
  - destruct body as [|c s1]; [injection Hd as <-; now split|].
    cbn [json_unescape escapes_solidus check_escapes unicode_escape_from
         length] in *.
    destruct (N.eqb c backslash) eqn:Ec.
    + destruct s1 as [|e s2]; [discriminate|]. cbn [length] in Hn.
      apply orb_false_iff in Hsol. destruct Hsol as [H47 Hsol].
      destruct (N.eqb e (ord "u")) eqn:Eu.
      * apply N.eqb_eq in Eu. subst e.
        destruct s2 as [|h1 [|h2 [|h3 [|h4 s6]]]]; try discriminate.
        destruct (hex_value [h1; h2; h3; h4] 0) as [v|] eqn:Ev;
          [|discriminate].
        destruct (json_unescape s6) as [d'|] eqn:Ed'; [|discriminate].
        injection Hd as <-.
        destruct (hex_value_four _ _ _ _ _ Ev)
          as (Hv & Hx & B1 & B2 & B3 & B4).
        cbn [escapes_solidus] in Hsol. rewrite B1, B2, B3, B4 in Hsol.
        destruct (IH s6 d' (i + 6) ts) as [IH1 IH2];
          [cbn [length] in Hn; lia | assumption | assumption |].
        rewrite Hx. split; [exact IH1|]. unfold char in *.
        change (ord "u") with 117%N.
        change (escape_seq udb 117 (h1 :: h2 :: h3 :: h4 :: s6))
          with (hex_escape 4 (h1 :: h2 :: h3 :: h4 :: s6)).
        unfold hex_escape. cbn [firstn length Nat.eqb]. rewrite Ev.
        replace (v <=? 1114111)%N with true
          by (symmetry; apply N.leb_le; lia).
        cbn [unicode_escape_from]. rewrite IH2. reflexivity.
      * destruct (short_escape_char e) as [x|] eqn:Ex; [|discriminate].
        destruct (json_unescape s2) as [d'|] eqn:Ed'; [|discriminate].
        injection Hd as <-.
        destruct (short_escape_decoded udb e x s2 Ex H47)
          as (_ & Hmem & Hseq).
        destruct (IH s2 d' (i + 2) ts) as [IH1 IH2];
          [lia | assumption | assumption |].
        rewrite Hmem, Hseq. split; [exact IH1|].
        cbn [unicode_escape_from]. rewrite IH2. reflexivity.
    + destruct (json_unescape s1) as [d'|] eqn:Ed'; [|discriminate].
      injection Hd as <-.
      destruct (IH s1 d' (i + 1) ts) as [IH1 IH2];
        [lia | assumption | assumption |].
      split; [exact IH1|]. now rewrite IH2.
Qed.

(** X5. On an interior of ASCII characters in which the solidus is not
    escaped, the validator decodes as JSON does: when every escape is one
    of JSON's and the text they stand for holds no surrogate, the
    validator returns that text, whatever the offset of the token. *)
Theorem ascii_strings_are_unescaped : forall udb body ts d,
  Forall (fun c => (c < 128)%N) body ->
  escapes_solidus body = false ->
  json_unescape body = Some d ->
  existsb is_surrogate d = false ->
  _validate_string udb (dquote :: body ++ [dquote]) ts = Return d.
Proof.
  intros udb body ts d Hascii Hsol Hd Hsur.
  destruct (json_unescape_decoded udb (length body) body d 0 ts
              (Nat.le_refl _) Hsol Hd) as [Hc Hu].
  rewrite validate_string_closed, Hc, (utf8_encode_ascii body Hascii).
  unfold unicode_escape_decode. now rewrite Hu, Hsur.
Qed.

Lemma ascii_strings_are_unescaped_witness :
  _validate_string ascii_only (jtext "'a/b\'\\\n\u00e9\t'") 3 =
  Return [97; 47; 98; 34; 92; 10; 233; 9]%N.
Proof.
  apply (ascii_strings_are_unescaped ascii_only
           (jtext "a/b\'\\\n\u00e9\t") 3).
  - repeat constructor.
  - reflexivity.
  - reflexivity.
  - reflexivity.
Defined.

(** ** A program logic for the parser *)

Section HoareRules.

Context {A B : Type}.

Lemma hoare_bind (P : LookAhead -> Prop) (m : M A) (f : A -> M B) Q R E :
  hoare P m Q E -> (forall a, hoare (Q a) (f a) R E) ->
  hoare P (bind m f) R E.
Proof.
  intros Hm Hf la r HP. unfold bind.
  destruct (m la) as [[[a la1]|e]|] eqn:Em; [| |discriminate].
  - intros H. exact (Hf a la1 r (Hm la _ HP Em) H).
  - intros H. injection H as <-. exact (Hm la _ HP Em).
Qed.

Lemma hoare_conseq (P P' : LookAhead -> Prop) (m : M A)
  (Q Q' : A -> LookAhead -> Prop) (E E' : exn -> Prop) :
  hoare P m Q E ->
  (forall la, P' la -> P la) ->
  (forall a la, Q a la -> Q' a la) ->
  (forall e, E e -> E' e) ->
  hoare P' m Q' E'.
Proof.
  intros H HP HQ HE la r Hla Hr. specialize (H la r (HP la Hla) Hr).
  destruct r as [[a la1]|e]; auto.
Qed.

Lemma hoare_assume (phi : Prop) (P : LookAhead -> Prop) (m : M A) Q E :
  (phi -> hoare P m Q E) -> hoare (fun la => P la /\ phi) m Q E.
Proof. intros H la r [HP Hphi]. now apply H. Qed.

Lemma hoare_ret (P : LookAhead -> Prop) (a : A) Q E :
  (forall la, P la -> Q a la) -> hoare P (ret a) Q E.
Proof. intros H la r HP Hr. injection Hr as <-. now apply H. Qed.

Lemma hoare_raise (P : LookAhead -> Prop) e
  (Q : A -> LookAhead -> Prop) (E : exn -> Prop) :
  E (SyntaxError e) -> hoare P (raise e) Q E.
Proof. intros H la r _ Hr. injection Hr as <-. exact H. Qed.

End HoareRules.

Lemma raised_syntax fin e : raised fin (SyntaxError e).
Proof. right. now exists e. Qed.

Section ParserLogic.

Variable fin : option exn.

Lemma next_spec :
  hoare (stream fin) (or_end_of_input (lift la_next))
    (fun t la1 => stream fin la1 /\ tok_ok t) (raised fin).
Proof.
  intros la r [Hfin Hok]. unfold or_end_of_input, lift.
  destruct (la_tokens la) as [|t ts] eqn:Et.
  - rewrite (la_next_nil la Et), Hfin.
    destruct fin as [e|]; intros H.
    + destruct e; injection H as <-;
        first [now left | apply raised_syntax].
    + injection H as <-. apply raised_syntax.
  - destruct (la_next_cons la t ts Et) as (la1 & E1 & Ht1 & Hf1).
    rewrite E1. intros H. injection H as <-.
    apply Forall_cons_iff in Hok. destruct Hok as [Hh Htl].
    split; [split; [congruence | now rewrite Ht1] | exact Hh].
Qed.

Lemma peek_spec :
  hoare (stream fin) (or_end_of_input (lift peek))
    (fun t la1 =>
       stream fin la1 /\ tok_ok t /\ exists ts, la_tokens la1 = t :: ts)
    (raised fin).
Proof.
  intros la r [Hfin Hok]. unfold or_end_of_input, lift.
  destruct (la_tokens la) as [|t ts] eqn:Et.
  - assert (Hp : peek la = la_next la).
    { destruct la as [[ys f] buf]. unfold la_tokens in Et. cbn in Et.
      apply app_eq_nil in Et. destruct Et as [-> ->]. cbn in *.
      unfold peek, la_next, gen_next. cbn. now destruct f. }
    rewrite Hp, (la_next_nil la Et), Hfin.
    destruct fin as [e|]; intros H.
    + destruct e; injection H as <-;
        first [now left | apply raised_syntax].
    + injection H as <-. apply raised_syntax.
  - destruct (peek_cons la t ts Et) as (la1 & E1 & Ht1 & Hf1).
    rewrite E1. intros H. injection H as <-.
    pose proof Hok as Hok'. apply Forall_cons_iff in Hok'.
    destruct Hok' as [Hh _].
    split; [split; [congruence | now rewrite Ht1]|].
    split; [assumption | now exists ts].
Qed.

(** [next] on a look-ahead that has a token. *)
Lemma take_spec :
  hoare (fun la => stream fin la /\ la_tokens la <> []) (lift la_next)
    (fun _ la1 => stream fin la1) (fun _ => False).
Proof.
  intros la r [[Hfin Hok] Hne]. unfold lift.
  destruct (la_tokens la) as [|t ts] eqn:Et; [congruence|].
  destruct (la_next_cons la t ts Et) as (la1 & E1 & Ht1 & Hf1).
  rewrite E1. intros H. injection H as <-.
  apply Forall_cons_iff in Hok. destruct Hok as [_ Htl].
  split; [congruence | now rewrite Ht1].
Qed.

Lemma close_spec (v : pyval) :
  hoare (fun la => stream fin la /\ la_tokens la <> [])
    (lift la_next ;;; ret v)
    (fun r la1 => stream fin la1 /\ r = v) (raised fin).
Proof.
  eapply hoare_bind.
  - eapply hoare_conseq; [apply take_spec | auto | | contradiction].
    intros a la H. exact H.
  - intros u. apply hoare_ret. intros la H. now split.
Qed.

Lemma expect_spec k ev :
  hoare (stream fin) (_expect k ev)
    (fun v la1 =>
       stream fin la1 /\
       exists t, tok_ok t /\ tok_kind t = k /\ v = tok_value t)
    (raised fin).
Proof.
  unfold _expect. eapply hoare_bind; [apply next_spec|].
  intros tok. destruct (negb (kind_eqb (tok_kind tok) k)) eqn:Ek; cbn [orb].
  - apply hoare_raise, raised_syntax.
  - assert (Hk : tok_kind tok = k).
    { apply negb_false_iff in Ek. destruct (tok_kind tok), k;
        first [reflexivity | discriminate]. }
    destruct (match ev with
              | Some v => negb (is_str (tok_value tok) v)
              | None => false
              end).
    + apply hoare_raise, raised_syntax.
    + apply hoare_ret. intros la [Hs Hok]. split; [exact Hs|].
      now exists tok.
Qed.

End ParserLogic.

(** ** What the parser returns *)

Lemma tok_ok_scalar t : tok_ok t -> pydepth (tok_value t) = 0.
Proof.
  intros [H _]. destruct (tok_value t); try reflexivity; now elim H.
Qed.

Lemma deep_list max_depth d items :
  (d <= max_depth + 1)%Z ->
  Forall (deep max_depth d) items ->
  deep max_depth (d - 1) (PyList items).
Proof.
  intros Hd H. unfold deep in *. cbn [pydepth].
  assert (G : (d + Z.of_nat (fold_right
                 (fun x acc => Nat.max (pydepth x) acc) 0%nat items)
               <= max_depth + 1)%Z).
  { induction H as [|x items Hx _ IH]; cbn [fold_right]; lia. }
  lia.
Qed.

Lemma deep_dict max_depth d obj :
  (d <= max_depth + 1)%Z ->
  Forall (fun kv : text * pyval => deep max_depth d (snd kv)) obj ->
  deep max_depth (d - 1) (PyDict obj).
Proof.
  intros Hd H. unfold deep in *. cbn [pydepth].
  assert (G : (d + Z.of_nat (fold_right
                 (fun (kv : text * pyval) acc =>
                    Nat.max (let (_, x) := kv in pydepth x) acc) 0%nat obj)
               <= max_depth + 1)%Z).
  { induction H as [|[k x] obj Hx _ IH]; cbn [fold_right snd] in *; lia. }
  lia.
Qed.

Lemma dict_set_Forall (P : text * pyval -> Prop) key v obj :
  (forall k, P (k, v)) -> Forall P obj -> Forall P (dict_set key v obj).
Proof.
  intros Hv. induction 1 as [|[k x] obj Hx Hobj IH]; cbn [dict_set].
  - constructor; [apply Hv | constructor].
  - destruct (text_eqb k key); constructor; auto.
Qed.

Section ParserSpec.

Variables (max_depth : Z) (allow_dup : bool) (fin : option exn).

Let post_value (d : Z) (v : pyval) (la : LookAhead) : Prop :=
  stream fin la /\ deep max_depth d v.

Let post_list (d : Z) (v : pyval) (la : LookAhead) : Prop :=
  stream fin la /\ (exists items, v = PyList items) /\
  deep max_depth (d - 1) v.

Let post_dict (d : Z) (v : pyval) (la : LookAhead) : Prop :=
  stream fin la /\ (exists items, v = PyDict items) /\
  deep max_depth (d - 1) v.

(** Over the tokens of [lex]: every procedure leaves such tokens,
    raises only what the generator ends with or a syntax error, and returns
    a value within the depth limit, a list from [_parse_array] and a dict
    from [_parse_object]. *)
Lemma parser_spec fuel :
  (forall d,
     hoare (stream fin) (_parse_value fuel d max_depth allow_dup)
       (post_value d) (raised fin)) /\
  (forall d,
     (d <= max_depth + 1)%Z ->
     hoare (stream fin) (_parse_array fuel d max_depth allow_dup)
       (post_list d) (raised fin)) /\
  (forall d items,
     (d <= max_depth + 1)%Z -> Forall (deep max_depth d) items ->
     hoare (stream fin) (array_loop fuel d max_depth allow_dup items)
       (post_list d) (raised fin)) /\
  (forall d,
     (d <= max_depth + 1)%Z ->
     hoare (stream fin) (_parse_object fuel d max_depth allow_dup)
       (post_dict d) (raised fin)) /\
  (forall d obj,
     (d <= max_depth + 1)%Z ->
     Forall (fun kv : text * pyval => deep max_depth d (snd kv)) obj ->
     hoare (stream fin) (object_loop fuel d max_depth allow_dup obj)
       (post_dict d) (raised fin)).
Proof.
  induction fuel as [|fuel (IHv & IHa & IHla & IHo & IHlo)].
  - repeat split; intros; intros la r _ Hr; discriminate Hr.
  - split; [|split; [|split; [|split]]].
    + (* _parse_value *)
      intros d. rewrite _parse_value_eq.
      destruct (d >? max_depth)%Z eqn:Hd;
        [apply hoare_raise, raised_syntax|].
      assert (Hd' : (d <= max_depth)%Z)
        by (rewrite Z.gtb_ltb in Hd; now apply Z.ltb_ge in Hd).
      eapply hoare_bind; [apply next_spec|]. intros tok.
      apply hoare_assume. intros Hok.
      assert (Hscalar : hoare (stream fin) (ret (tok_value tok))
                          (post_value d) (raised fin)).
      { apply hoare_ret. intros la Hs. split; [exact Hs|].
        unfold deep. rewrite (tok_ok_scalar tok Hok). lia. }
      assert (Hcont : hoare (stream fin)
                (if tok_is tok BRACE "{"
                 then _parse_object fuel (d + 1) max_depth allow_dup
                 else if tok_is tok BRACKET "["
                      then _parse_array fuel (d + 1) max_depth allow_dup
                      else raise (ValueExpected (tok_kind tok)
                                    (tok_value tok)))
                (post_value d) (raised fin)).
      { destruct (tok_is tok BRACE "{").
        - eapply hoare_conseq; [apply (IHo (d + 1)%Z); lia | auto | | auto].
          intros v la (Hs & _ & Hdeep). split; [exact Hs|].
          now replace (d + 1 - 1)%Z with d in Hdeep by lia.
        - destruct (tok_is tok BRACKET "[").
          + eapply hoare_conseq;
              [apply (IHa (d + 1)%Z); lia | auto | | auto].
            intros v la (Hs & _ & Hdeep). split; [exact Hs|].
            now replace (d + 1 - 1)%Z with d in Hdeep by lia.
          + apply hoare_raise, raised_syntax. }
      destruct (tok_kind tok); assumption.
    + (* _parse_array *)
      intros d Hd. rewrite _parse_array_eq.
      eapply hoare_bind; [apply peek_spec|]. intros pk.
      destruct (tok_is pk BRACKET "]").
      * eapply hoare_conseq; [apply (close_spec fin (PyList [])) | | | auto].
        -- intros la (Hs & _ & ts & Hts). split; [exact Hs|].
           rewrite Hts. discriminate.
        -- intros v la (Hs & ->). split; [exact Hs|]. split.
           ++ now eexists.
           ++ apply deep_list; [assumption | constructor].
      * eapply hoare_conseq; [apply (IHla d []); auto | | auto | auto].
        intros la (Hs & _). exact Hs.
    + (* array_loop *)
      intros d items Hd Hitems. rewrite array_loop_eq.
      eapply hoare_bind; [apply IHv|]. intros v.
      apply hoare_assume. intros Hv.
      assert (Hitems' : Forall (deep max_depth d) (items ++ [v])).
      { apply Forall_app. split; [assumption | now constructor]. }
      eapply hoare_bind; [apply peek_spec|]. intros pk.
      destruct (tok_is pk BRACKET "]").
      * eapply hoare_conseq;
          [apply (close_spec fin (PyList (items ++ [v]))) | | | auto].
        -- intros la (Hs & _ & ts & Hts). split; [exact Hs|].
           rewrite Hts. discriminate.
        -- intros r la (Hs & ->). split; [exact Hs|]. split.
           ++ now eexists.
           ++ now apply deep_list.
      * eapply hoare_bind.
        -- eapply hoare_conseq; [apply expect_spec | | | ].
           ++ intros la (Hs & _). exact Hs.
           ++ intros a la H. exact (proj1 H).
           ++ intros e He. exact He.
        -- intros u. now apply IHla.
    + (* _parse_object *)
      intros d Hd. rewrite _parse_object_eq.
      eapply hoare_bind; [apply peek_spec|]. intros pk.
      destruct (tok_is pk BRACE "}").
      * eapply hoare_conseq; [apply (close_spec fin (PyDict [])) | | | auto].
        -- intros la (Hs & _ & ts & Hts). split; [exact Hs|].
           rewrite Hts. discriminate.
        -- intros v la (Hs & ->). split; [exact Hs|]. split.
           ++ now eexists.
           ++ apply deep_dict; [assumption | constructor].
      * eapply hoare_conseq; [apply (IHlo d []); auto | | auto | auto].
        intros la (Hs & _). exact Hs.
    + (* object_loop *)
      intros d obj Hd Hobj. rewrite object_loop_eq.
      eapply hoare_bind; [apply expect_spec|]. intros key.
      apply hoare_assume. intros (tk & Hok & Hkind & ->).
      eapply hoare_bind.
      * eapply hoare_conseq; [apply expect_spec | | | ].
        -- intros la Hs. exact Hs.
        -- intros a la H. exact (proj1 H).
        -- intros e He. exact He.
      * intros u. destruct Hok as [_ Hstr].
        destruct (Hstr Hkind) as [k ->].
        destruct (negb allow_dup && dict_has k obj);
          [apply hoare_raise, raised_syntax|].
        eapply hoare_bind; [apply IHv|]. intros v.
        apply hoare_assume. intros Hv.
        assert (Hobj' : Forall
                  (fun kv : text * pyval => deep max_depth d (snd kv))
                  (dict_set k v obj)).
        { apply dict_set_Forall; [intros k0; exact Hv | assumption]. }
        eapply hoare_bind; [apply peek_spec|]. intros pk.
        destruct (tok_is pk BRACE "}").
        -- eapply hoare_conseq;
             [apply (close_spec fin (PyDict (dict_set k v obj))) | | | auto].
           ++ intros la (Hs & _ & ts & Hts). split; [exact Hs|].
              rewrite Hts. discriminate.
           ++ intros r la (Hs & ->). split; [exact Hs|]. split.
              ** now eexists.
              ** now apply deep_dict.
        -- eapply hoare_bind.
           ++ eapply hoare_conseq; [apply expect_spec | | | ].
              ** intros la (Hs & _). exact Hs.
              ** intros a la H. exact (proj1 H).
              ** intros e He. exact He.
           ++ intros u2. now apply IHlo.
Qed.

End ParserSpec.

(** ** The values of the tokens and the ways [lex] ends *)

Lemma In_removelast_tl (A : Type) (x : A) : forall l,
  In x (removelast (tl l)) -> In x l.
Proof.
  assert (H : forall l : list A, In x (removelast l) -> In x l).
  { induction l as [|a l IH]; [easy|]. cbn [removelast].
    destruct l as [|b l]; [easy|]. intros [->|Hin]; [now left|].
    right. now apply IH. }
  intros [|a l] Hin; [easy|]. right. now apply H.
Qed.

Lemma utf8_encode_surrogate : forall s,
  utf8_encode s = None -> exists c, In c s /\ is_surrogate c = true.
Proof.
  induction s as [|c s IH]; cbn [utf8_encode]; [discriminate|].
  destruct (utf8_char c) as [b|] eqn:Ec.
  - destruct (utf8_encode s) as [bs|]; [discriminate|]. intros _.
    destruct (IH eq_refl) as (c0 & Hin & Hs). exists c0.
    split; [now right | assumption].
  - intros _. exists c. split; [now left|].
    unfold utf8_char in Ec. unfold is_surrogate.
    destruct (c <? 128)%N; [discriminate|].
    destruct (c <? 2048)%N; [discriminate|].
    destruct ((55296 <=? c)%N && (c <=? 57343)%N); [reflexivity|].
    destruct (c <? 65536)%N; discriminate.
Qed.

Lemma check_escapes_raises n : forall rest i ts e,
  length rest <= n ->
  check_escapes rest i ts = Raise e -> exists se, e = SyntaxError se.
Proof.
  induction n as [|n IH]; intros rest i ts e Hn.
  - destruct rest; [discriminate | simpl in Hn; lia].
  - destruct rest as [|ch r1]; [discriminate|]. cbn [check_escapes].
    cbn [length] in Hn.
    destruct (N.eqb ch backslash); [|apply IH; lia].
    destruct r1 as [|esc r2];
      [intros H; injection H as <-; now eexists|].
    cbn [length] in Hn.
    destruct (N.eqb esc (ord "u")).
    + destruct r2 as [|h1 [|h2 [|h3 [|h4 r6]]]];
        try (intros H; injection H as <-; now eexists).
      cbn [length] in Hn.
      destruct (forallb (fun c => mem c hexdigits) [h1; h2; h3; h4]);
        [apply IH; lia | intros H; injection H as <-; now eexists].
    + destruct (mem esc short_escapes);
        [apply IH; lia | intros H; injection H as <-; now eexists].
Qed.

Section LexValues.

Variable udb : UnicodeData.

(** What [_validate_string] raises: a syntax error, or the error of the
    encoder on a text that holds a surrogate. *)
Lemma validate_string_raises raw ts e :
  _validate_string udb raw ts = Raise e ->
  (exists se, e = SyntaxError se) \/
  (e = UnicodeEncodeError /\ exists c, In c raw /\ is_surrogate c = true).
Proof.
  unfold _validate_string.
  destruct ((length raw <? 2) || negb (starts_with dquote raw)
            || negb (ends_with dquote raw)).
  - destruct ((0 <? length raw) && ends_with backslash raw);
      intros H; injection H as <-; left; now eexists.
  - destruct (check_escapes (removelast (tl raw)) 0 ts) as [u|e0] eqn:Ec.
    + destruct (utf8_encode (removelast (tl raw))) as [enc|] eqn:Eu.
      * destruct (unicode_escape_decode udb enc) as [dec|];
          [|intros H; injection H as <-; left; now eexists].
        destruct (existsb is_surrogate dec); [|discriminate].
        intros H; injection H as <-; left; now eexists.
      * intros H. injection H as <-. right. split; [reflexivity|].
        apply utf8_encode_surrogate in Eu. destruct Eu as (c & Hin & Hs).
        exists c. split; [now apply In_removelast_tl | assumption].
    + intros H. injection H as <-. left.
      now apply (check_escapes_raises _ _ _ _ _ (Nat.le_refl _)) in Ec.
Qed.

(** The value of a token is never a list or a dict, and that of a
    [STRING] token is a [str]. *)
Lemma token_value_ok m v :
  token_value udb m = Return v ->
  ~ is_container v /\ (m_kind m = STRING -> exists s, v = PyStr s).
Proof.
  unfold token_value, number_value, literal_value.
  destruct (m_kind m).
  - destruct (_validate_string udb (m_group m) (m_start m)) as [d|];
      [|discriminate].
    intros H. injection H as <-. split; [exact (fun x => x) | now eexists].
  - destruct (has_float_mark (m_group m)).
    + intros H. injection H as <-. split; [exact (fun x => x) | discriminate].
    + destruct (py_int udb (m_group m)); [|discriminate].
      intros H. injection H as <-. split; [exact (fun x => x) | discriminate].
  - destruct (text_eqb (m_group m) (text_of "true"));
      [intros H; injection H as <-;
       split; [exact (fun x => x) | discriminate]|].
    destruct (text_eqb (m_group m) (text_of "false"));
      [intros H; injection H as <-;
       split; [exact (fun x => x) | discriminate]|].
    destruct (text_eqb (m_group m) (text_of "null")); [|discriminate].
    intros H; injection H as <-. split; [exact (fun x => x) | discriminate].
  - intros H. injection H as <-. split; [exact (fun x => x) | discriminate].
  - intros H. injection H as <-. split; [exact (fun x => x) | discriminate].
  - intros H. injection H as <-. split; [exact (fun x => x) | discriminate].
  - intros H. injection H as <-. split; [exact (fun x => x) | discriminate].
  - intros H. injection H as <-. split; [exact (fun x => x) | discriminate].
Qed.

Lemma lex_tokens_ok t : Forall tok_ok (yields (lex udb t)).
Proof.
  apply Forall_forall. intros tok Hin. unfold lex in Hin.
  apply lex_loop_tokens in Hin. destruct Hin as (m & _ & Hk & _ & Hv).
  apply token_value_ok in Hv. unfold tok_ok. now rewrite <- Hk.
Qed.

(** The lexeme of a match is a piece of the text. *)
Lemma finditer_group t m c :
  In m (finditer udb t) -> In c (m_group m) -> In c t.
Proof.
  intros Hm Hc. apply finditer_In in Hm. destruct Hm as [r Hm].
  apply match_token_app in Hm. destruct Hm as [Hm _].
  rewrite <- (firstn_skipn (m_start m) t), Hm.
  apply in_or_app. right. apply in_or_app. now left.
Qed.

(** The lexeme of a match is not longer than the text. *)
Lemma finditer_group_length t m :
  In m (finditer udb t) -> length (m_group m) <= length t.
Proof.
  intros Hm. apply finditer_In in Hm. destruct Hm as [r Hm].
  apply match_token_app in Hm. destruct Hm as [Hm _].
  rewrite <- (firstn_skipn (m_start m) t), Hm. rewrite !length_app. lia.
Qed.

(** The conversion of a lexeme raises in [_validate_string], or in [int]
    on a lexeme of more digits than the limit of the interpreter: the
    lexeme of a number is one that [int] or [float] reads otherwise, and a
    literal is a key of the dict. *)
Lemma token_value_raises t m e :
  In m (finditer udb t) -> token_value udb m = Raise e ->
  (exists se, e = SyntaxError se) \/
  (e = UnicodeEncodeError /\ exists c, In c t /\ is_surrogate c = true) \/
  (e = ValueError /\ int_max_str_digits udb <> 0 /\
   int_max_str_digits udb < length t /\ 640 < length t).
Proof.
  intros Hm Hv. pose proof (finditer_In udb t m Hm) as [r Hr].
  apply match_token_inv in Hr. unfold token_value in Hv.
  destruct (m_kind m); try discriminate Hv.
  - destruct (_validate_string udb (m_group m) (m_start m)) as [d|e0] eqn:E;
      [discriminate|].
    injection Hv as <-. apply validate_string_raises in E.
    destruct E as [E|(-> & c & Hc & Hs)]; [now left|].
    right. left. split; [reflexivity|]. exists c.
    split; [now apply (finditer_group t m) | assumption].
  - unfold number_value in Hv.
    destruct (has_float_mark (m_group m)) eqn:Ef; [discriminate|].
    pose proof (py_int_lexeme udb _ _ _ Hr Ef) as Hz.
    pose proof (finditer_group_length t m Hm) as Hlen.
    destruct (py_int udb (m_group m)); [discriminate|].
    injection Hv as <-. right. right. split; [reflexivity|]. lia.
  - apply match_literal_app in Hr.
    destruct Hr as [_ [ H | [ H | H ] ] ]; rewrite H in Hv;
      discriminate Hv.
Qed.

(** [lex] ends normally, with a syntax error, with the error of the
    encoder on a text that holds a surrogate, or with the error of [int]
    on a text longer than the limit of the interpreter. *)
Lemma lex_finish_raises t e :
  finish (lex udb t) = Some e ->
  (exists se, e = SyntaxError se) \/
  (e = UnicodeEncodeError /\ exists c, In c t /\ is_surrogate c = true) \/
  (e = ValueError /\ int_max_str_digits udb <> 0 /\
   int_max_str_digits udb < length t /\ 640 < length t).
Proof.
  intros H. apply lex_loop_finish in H.
  destruct H as [[p ->]|(m & Hm & Hv)]; [left; now eexists|].
  now apply (token_value_raises t m).
Qed.

Lemma spaces_are_spaces : forall s d r,
  spaces udb s = (d, r) -> Forall (fun c => is_space udb c = true) d.
Proof.
  induction s as [|c s IH]; cbn [spaces]; intros d r H.
  - injection H as <- <-. constructor.
  - destruct (is_space udb c) eqn:Ec.
    + destruct (spaces udb s) as [d' r'] eqn:E. injection H as <- <-.
      constructor; [assumption | now apply (IH d' r')].
    + injection H as <- <-. constructor.
Qed.

(** A text that [lex] reads to its end without a token is white space. *)
Lemma lex_no_token_spaces t :
  lex udb t = gen_return -> Forall (fun c => is_space udb c = true) t.
Proof.
  intros H.
  assert (Hfin : finish (lex udb t) = None) by now rewrite H.
  assert (Hc : concat (map m_group (finditer udb t)) = t /\
               length (yields (lex udb t)) =
               length (filter is_token_match (finditer udb t)))
    by exact (lex_from_covers udb (length t) t 0 (Nat.le_refl _) Hfin).
  destruct Hc as [Hcat Hlen]. rewrite H in Hlen. cbn in Hlen.
  assert (Hall : forall m, In m (finditer udb t) ->
            Forall (fun c => is_space udb c = true) (m_group m)).
  { intros m Hm.
    assert (Hk : m_kind m = WHITESPACE).
    { destruct (is_token_match m) eqn:Et.
      - assert (Hin : In m (filter is_token_match (finditer udb t)))
          by (apply filter_In; now split).
        destruct (filter is_token_match (finditer udb t));
          [contradiction | discriminate].
      - unfold is_token_match in Et. destruct (m_kind m); [discriminate ..|].
        reflexivity. }
    apply finditer_In in Hm. destruct Hm as [r Hm].
    apply match_token_inv in Hm. rewrite Hk in Hm.
    unfold match_whitespace in Hm.
    destruct (spaces udb (skipn (m_start m) t)) as [d r'] eqn:E.
    apply spaces_are_spaces in E. destruct d; [discriminate|].
    now injection Hm as <- _. }
  assert (G : forall ms,
            (forall m, In m ms ->
                       Forall (fun c => is_space udb c = true) (m_group m)) ->
            Forall (fun c => is_space udb c = true)
              (concat (map m_group ms))).
  { induction ms as [|m ms IH]; intros Hms; [constructor|].
    cbn [map concat]. apply Forall_app. split.
    - apply Hms. now left.
    - apply IH. intros m0 Hm0. apply Hms. now right. }
  rewrite <- Hcat. now apply G.
Qed.

End LexValues.

(** ** The entry point *)

Lemma peek_nil la :
  la_tokens la = [] ->
  peek la = Raise match la_finish la with
                  | Some e => e
                  | None => StopIteration
                  end.
Proof.
  destruct la as [[ys f] buf]. unfold la_tokens, la_finish, peek, gen_next.
  cbn. intros H. apply app_eq_nil in H. destruct H as [-> ->]. cbn.
  now destruct f.
Qed.

Section ParseSpec.

Variables (max_depth : Z) (allow_dup : bool) (fin : option exn).

(** [_parse_value] at the root, on a first token of the kind [BRACE] or
    [BRACKET]: what it returns is a dict or a list. *)
Lemma root_value_spec fuel la t ts :
  la_tokens la = t :: ts ->
  kind_eqb (tok_kind t) BRACE || kind_eqb (tok_kind t) BRACKET = true ->
  hoare (fun la0 => la0 = la /\ stream fin la)
    (_parse_value fuel 0 max_depth allow_dup)
    (fun v la1 => stream fin la1 /\ is_container v /\ deep max_depth 0 v)
    (raised fin).
Proof.
  intros Ht Hk la0 r [-> Hs]. destruct fuel as [|fuel]; [discriminate|].
  rewrite _parse_value_eq.
  destruct (0 >? max_depth)%Z eqn:Hd.
  { intros H. injection H as <-. apply raised_syntax. }
  assert (Hd' : (0 <= max_depth)%Z)
    by (rewrite Z.gtb_ltb in Hd; now apply Z.ltb_ge in Hd).
  destruct (next_tok la t ts Ht) as (la1 & E1 & Ht1 & Hf1).
  rewrite (bind_return _ _ _ _ _ _ _ E1).
  assert (Hs1 : stream fin la1).
  { destruct Hs as [Hfin Hok]. split; [congruence|].
    rewrite Ht1. rewrite Ht in Hok.
    apply Forall_cons_iff in Hok. exact (proj2 Hok). }
  destruct (parser_spec max_depth allow_dup fin fuel)
    as (_ & IHa & _ & IHo & _).
  unfold tok_is. destruct (tok_kind t); try discriminate Hk;
    cbn [kind_eqb andb].
  - destruct (is_str (tok_value t) (text_of "{")).
    + intros H. specialize (IHo (0 + 1)%Z ltac:(lia) la1 r Hs1 H).
      destruct r as [[v la2]|e]; [|exact IHo].
      destruct IHo as (Hs2 & [items ->] & Hdeep).
      split; [exact Hs2|]. split; [exact I|].
      unfold deep in *. lia.
    + intros H. injection H as <-. apply raised_syntax.
  - destruct (is_str (tok_value t) (text_of "[")).
    + intros H. specialize (IHa (0 + 1)%Z ltac:(lia) la1 r Hs1 H).
      destruct r as [[v la2]|e]; [|exact IHa].
      destruct IHa as (Hs2 & [items ->] & Hdeep).
      split; [exact Hs2|]. split; [exact I|].
      unfold deep in *. lia.
    + intros H. injection H as <-. apply raised_syntax.
Qed.

(** [parse] over the tokens of a generator that ends with [fin]: it
    returns a dict or a list within the depth limit, after the last token
    of a generator that ended normally; it raises [StopIteration] when
    there is no token at all, and otherwise what the generator ends with or
    a syntax error. *)
Lemma parse_tokens_spec fuel la r :
  stream fin la ->
  parse_tokens fuel max_depth allow_dup la = Some r ->
  match r with
  | Return (v, la1) =>
      (fin = None \/ fin = Some StopIteration) /\ la_tokens la <> [] /\
      is_container v /\ deep max_depth 0 v
  | Raise e =>
      (e = StopIteration /\ la_tokens la = [] /\ fin = None) \/ raised fin e
  end.
Proof.
  intros Hs. unfold parse_tokens.
  destruct (la_tokens la) as [|t ts] eqn:Et.
  - assert (E : lift peek la =
                Some (Raise match la_finish la with
                            | Some e => e
                            | None => StopIteration
                            end))
      by (unfold lift; now rewrite (peek_nil la Et)).
    rewrite (bind_raise _ _ _ _ _ _ E). intros H. injection H as <-.
    destruct Hs as [Hfin _]. rewrite Hfin.
    destruct fin as [e|]; [right; now left | now left].
  - destruct (peek_cons la t ts Et) as (la1 & E1 & Ht1 & Hf1).
    assert (E : lift peek la = Some (Return (t, la1)))
      by (unfold lift; now rewrite E1).
    rewrite (bind_return _ _ _ _ _ _ _ E).
    assert (Hs1 : stream fin la1).
    { destruct Hs as [Hfin Hok].
      split; [congruence | rewrite Ht1, <- Et; exact Hok]. }
    destruct (kind_eqb (tok_kind t) BRACE || kind_eqb (tok_kind t) BRACKET)
      eqn:Hk; cbn [negb].
    + intros H.
      assert (Hh : hoare (fun la0 => la0 = la1 /\ stream fin la1)
                (result <- _parse_value fuel 0 max_depth allow_dup ;;
                 fun la0 =>
                   match la_next la0 with
                   | Raise StopIteration => Some (Return (result, la0))
                   | Raise e => Some (Raise e)
                   | Return (tok, _) =>
                       Some (Raise (SyntaxError (ExtraData (tok_offset tok))))
                   end)
                (fun v _ =>
                   (fin = None \/ fin = Some StopIteration) /\
                   is_container v /\ deep max_depth 0 v)
                (raised fin)).
      { eapply hoare_bind; [apply (root_value_spec fuel la1 t ts Ht1 Hk)|].
        intros v la0 r0 ([Hfin0 Hok0] & Hc & Hdeep).
        destruct (la_tokens la0) as [|t0 ts0] eqn:Et0.
        - rewrite (la_next_nil la0 Et0), Hfin0.
          destruct fin as [e|];
            [|intros H0; injection H0 as <-; repeat split; auto].
          destruct e; intros H0; injection H0 as <-;
            first [now left | repeat split; auto].
        - destruct (la_next_cons la0 t0 ts0 Et0) as (la2 & E2 & _).
          rewrite E2. intros H0. injection H0 as <-. apply raised_syntax. }
      specialize (Hh la1 r (conj eq_refl Hs1) H).
      destruct r as [[v la2]|e]; [|now right].
      destruct Hh as (Hf & Hc & Hdeep). repeat split; try assumption.
      discriminate.
    + destruct (peek_cons la1 t ts Ht1) as (la2 & E2 & _).
      assert (E' : lift peek la1 = Some (Return (t, la2)))
        by (unfold lift; now rewrite E2).
      rewrite (bind_return _ _ _ _ _ _ _ E'). intros H. injection H as <-.
      right. apply raised_syntax.
Qed.

End ParseSpec.

Lemma parse_spec udb max_depth allow_dup t r :
  parse udb max_depth allow_dup t = Some r ->
  match r with
  | Return v =>
      finish (lex udb t) = None /\ yields (lex udb t) <> [] /\
      is_container v /\ deep max_depth 0 v
  | Raise e =>
      (e = StopIteration /\ lex udb t = gen_return) \/
      (exists se, e = SyntaxError se) \/
      (e = UnicodeEncodeError /\ exists c, In c t /\ is_surrogate c = true) \/
      (e = ValueError /\ finish (lex udb t) = Some ValueError /\
       int_max_str_digits udb <> 0 /\
       int_max_str_digits udb < length t /\ 640 < length t)
  end.
Proof.
  unfold parse.
  assert (Hs : stream (finish (lex udb t)) (LookAhead_init (lex udb t)))
    by (split; [reflexivity | apply lex_tokens_ok]).
  pose proof (parse_tokens_spec max_depth allow_dup (finish (lex udb t))
                (parse_fuel (lex udb t)) (LookAhead_init (lex udb t))) as H.
  destruct (parse_tokens (parse_fuel (lex udb t)) max_depth allow_dup
              (LookAhead_init (lex udb t))) as [r0|]; [|discriminate].
  specialize (H r0 Hs eq_refl).
  assert (Hfin : forall e, finish (lex udb t) = Some e ->
            (exists se, e = SyntaxError se) \/
            (e = UnicodeEncodeError /\
             exists c, In c t /\ is_surrogate c = true) \/
            (e = ValueError /\ int_max_str_digits udb <> 0 /\
             int_max_str_digits udb < length t /\ 640 < length t))
    by apply lex_finish_raises.
  destruct r0 as [[v la1]|e]; intros Hr; injection Hr as <-.
  - destruct H as ([Hf|Hf] & Hne & Hc & Hd).
    + repeat split; assumption.
    + destruct (Hfin _ Hf) as [[se Hse]|[[Hse _]|[Hse _]]]; discriminate Hse.
  - destruct H as [(-> & Hy & Hf)|[Hf|Hse]].
    + left. split; [reflexivity|]. unfold la_tokens in Hy. cbn in Hy.
      destruct (lex udb t) as [ys f]. cbn in *. now subst.
    + right. destruct (Hfin _ Hf) as [Hs1|[Hs1|(-> & Hs1)]].
      * now left.
      * right. now left.
      * right. right. split; [reflexivity|]. split; [exact Hf | exact Hs1].
    + right. now left.
Qed.

(** X7. [parse] raises [StopIteration], which no handler of the code
    takes, exactly on the texts in which [lex] finds no token and no error;
    such a text is made of white space (or empty). *)
Theorem stop_iteration_is_for_no_token : forall udb max_depth allow_dup t,
  (parse udb max_depth allow_dup t = Some (Raise StopIteration) <->
   lex udb t = gen_return) /\
  (lex udb t = gen_return -> Forall (fun c => is_space udb c = true) t).
Proof.
  intros udb max_depth allow_dup t. split; [split|].
  - intros H. apply parse_spec in H.
    destruct H as [[_ H]|[[se H]|[[H _]|[H _]]]];
      [exact H | discriminate ..].
  - intros H. unfold parse. rewrite H. reflexivity.
  - apply lex_no_token_spaces.
Qed.

Lemma stop_iteration_is_for_no_token_witness :
  parse ascii_only 3 true [32; 10; 9]%N = Some (Raise StopIteration) /\
  Forall (fun c => is_space ascii_only c = true) [32; 10; 9]%N.
Proof.
  pose proof (stop_iteration_is_for_no_token ascii_only 3 true [32; 10; 9]%N)
    as [Hiff Hsp].
  split; [apply (proj2 Hiff); reflexivity | apply Hsp; reflexivity].
Defined.

(** X8. The exceptions that leave [parse]: a [SyntaxError];
    [StopIteration]; the [UnicodeEncodeError] of the encoder in
    [_validate_string], which takes a text that holds a surrogate code
    point; or the [ValueError] of [int], which takes an interpreter with a
    limit on the digits of an integer and a text of more characters than
    that limit and than 640, and which [lex] raises. No [KeyError] of the
    look-up of a literal leaves it, and a text of at most 640 characters
    raises no [ValueError]. *)
Theorem parse_raises_only : forall udb max_depth allow_dup t e,
  parse udb max_depth allow_dup t = Some (Raise e) ->
  (exists se, e = SyntaxError se) \/
  e = StopIteration \/
  (e = UnicodeEncodeError /\ exists c, In c t /\ is_surrogate c = true) \/
  (e = ValueError /\ finish (lex udb t) = Some ValueError /\
   int_max_str_digits udb <> 0 /\
   int_max_str_digits udb < length t /\ 640 < length t).
Proof.
  intros udb max_depth allow_dup t e H. apply parse_spec in H.
  destruct H as [[H _]|[H|[H|H]]]; auto.
Qed.

Lemma parse_raises_only_witness :
  parse ascii_only 19 false ([91%N] ++ repeat 49%N 4301 ++ [93%N])
  = Some (Raise ValueError) /\
  parse ascii_only 19 false ([91%N] ++ repeat 49%N 4300 ++ [93%N])
  <> Some (Raise ValueError) /\
  ((exists se, ValueError = SyntaxError se) \/
   ValueError = StopIteration \/
   (ValueError = UnicodeEncodeError /\
    exists c, In c ([91%N] ++ repeat 49%N 4301 ++ [93%N]) /\
              is_surrogate c = true) \/
   (ValueError = ValueError /\
    finish (lex ascii_only ([91%N] ++ repeat 49%N 4301 ++ [93%N]))
    = Some ValueError /\
    int_max_str_digits ascii_only <> 0 /\
    int_max_str_digits ascii_only
    < length ([91%N] ++ repeat 49%N 4301 ++ [93%N]) /\
    640 < length ([91%N] ++ repeat 49%N 4301 ++ [93%N]))).
Proof.
  assert (H : parse ascii_only 19 false ([91%N] ++ repeat 49%N 4301 ++ [93%N])
              = Some (Raise ValueError)) by (vm_compute; reflexivity).
  split; [exact H|]. split.
  - assert (Hb : match parse ascii_only 19 false
                           ([91%N] ++ repeat 49%N 4300 ++ [93%N]) with
                   | Some (Return _) => true
                   | _ => false
                   end = true) by (vm_compute; reflexivity).
    intros H0. rewrite H0 in Hb. discriminate Hb.
  - exact (parse_raises_only ascii_only 19 false _ _ H).
Defined.

(** X9. What [parse] returns is a dict or a list, and it returns only
    when [lex] has read the text to its end without an error and has found
    a token in it. *)
Theorem parse_returns_a_container : forall udb max_depth allow_dup t v,
  parse udb max_depth allow_dup t = Some (Return v) ->
  is_container v /\ finish (lex udb t) = None /\ yields (lex udb t) <> [].
Proof.
  intros udb max_depth allow_dup t v H. apply parse_spec in H.
  destruct H as (Hf & Hne & Hc & _). repeat split; assumption.
Qed.

Lemma parse_returns_a_container_witness :
  is_container (PyDict [([97%N], PyList [PyInt 1; PyDict [([98%N], PyNone)]])])
  /\ finish (lex ascii_only (jtext "{'a':[1,{'b':null}]}")) = None
  /\ yields (lex ascii_only (jtext "{'a':[1,{'b':null}]}")) <> [].
Proof.
  apply (parse_returns_a_container ascii_only 19 false
           (jtext "{'a':[1,{'b':null}]}")).
  reflexivity.
Defined.

(** X10. A value that [parse] returns has at least one level of
    containers and at most [max_depth + 1]: with a negative [max_depth]
    [parse] returns nothing. *)
Theorem parse_result_within_depth : forall udb max_depth allow_dup t v,
  parse udb max_depth allow_dup t = Some (Return v) ->
  (1 <= Z.of_nat (pydepth v) <= max_depth + 1)%Z.
Proof.
  intros udb max_depth allow_dup t v H. apply parse_spec in H.
  destruct H as (_ & _ & Hc & Hd). unfold deep in Hd.
  destruct v; try contradiction; cbn [pydepth] in *; lia.
Qed.

Lemma parse_result_within_depth_witness :
  (1 <= Z.of_nat (pydepth (PyList [PyList []])) <= 1 + 1)%Z.
Proof.
  apply (parse_result_within_depth ascii_only 1 false (text_of "[[]]")).
  reflexivity.
Defined.

(** * The grammar of the parser *)

(** ** Trees *)

Section PyvalInduction.

Variable P : pyval -> Prop.
Hypothesis HStr : forall s, P (PyStr s).
Hypothesis HInt : forall z, P (PyInt z).
Hypothesis HFloat : forall s, P (PyFloat s).
Hypothesis HBool : forall b, P (PyBool b).
Hypothesis HNone : P PyNone.
Hypothesis HList : forall items, Forall P items -> P (PyList items).
Hypothesis HDict : forall entries,
  Forall (fun kv : text * pyval => P (snd kv)) entries -> P (PyDict entries).

(** Induction on a value through the lists of its containers. *)
Lemma pyval_nested_ind : forall v, P v.
Proof.
  fix IH 1. intros [s|z|s|b| |items|entries].
  - apply HStr.
  - apply HInt.
  - apply HFloat.
  - apply HBool.
  - apply HNone.
  - apply HList. induction items as [|x items IHi]; constructor;
      [apply IH | exact IHi].
  - apply HDict. induction entries as [|[k x] entries IHe]; constructor;
      [apply IH | exact IHe].
Qed.

End PyvalInduction.

Lemma fold_and_Forall (A : Type) (Q : A -> Prop) l :
  fold_right (fun x acc => Q x /\ acc) True l <-> Forall Q l.
Proof.
  induction l as [|x l IH]; cbn [fold_right]; split; intros H.
  - constructor.
  - exact I.
  - destruct H as [Hx Hl]. constructor; [exact Hx | now apply IH].
  - apply Forall_cons_iff in H. destruct H as [Hx Hl].
    split; [exact Hx | now apply IH].
Qed.

Lemma fits_list max_depth d items :
  fits max_depth d (PyList items) <->
  (d <= max_depth)%Z /\ Forall (fits max_depth (d + 1)) items.
Proof.
  cbn [fits].
  now rewrite (fold_and_Forall pyval (fits max_depth (d + 1)) items).
Qed.

Lemma fits_dict max_depth d entries :
  fits max_depth d (PyDict entries) <->
  (d <= max_depth)%Z /\
  Forall (fun kv : text * pyval => fits max_depth (d + 1) (snd kv)) entries.
Proof.
  cbn [fits]. split; intros [Hd H]; (split; [exact Hd|]).
  - induction entries as [|[k x] entries IH]; constructor;
      destruct H as [Hx Hr]; [exact Hx | now apply IH].
  - induction H as [|[k x] entries Hx _ IH]; cbn [fold_right snd] in *;
      [exact I | now split].
Qed.

Lemma fits_depth max_depth d v : fits max_depth d v -> (d <= max_depth)%Z.
Proof. destruct v; intros [H _]; exact H. Qed.

Lemma distinct_keys_list items :
  distinct_keys (PyList items) <-> Forall distinct_keys items.
Proof. cbn [distinct_keys]. apply fold_and_Forall. Qed.

Lemma distinct_keys_dict entries :
  distinct_keys (PyDict entries) <->
  NoDup (map fst entries) /\
  Forall (fun kv : text * pyval => distinct_keys (snd kv)) entries.
Proof.
  cbn [distinct_keys]. split; intros [Hd H]; (split; [exact Hd|]).
  - clear Hd. induction entries as [|[k x] entries IH]; constructor;
      destruct H as [Hx Hr]; [exact Hx | now apply IH].
  - clear Hd. induction H as [|[k x] entries Hx _ IH];
      cbn [fold_right snd] in *; [exact I | now split].
Qed.

(** ** Tokens *)

Lemma kind_eqb_eq a b : kind_eqb a b = true <-> a = b.
Proof. destruct a, b; cbn; split; intros H; try reflexivity; discriminate. Qed.

Lemma is_str_eq v s : is_str v s = true <-> v = PyStr s.
Proof.
  destruct v; cbn [is_str]; split; intros H; try discriminate.
  - apply text_eqb_eq in H. now subst.
  - injection H as ->. now apply text_eqb_eq.
Qed.

Lemma tok_is_sig t k s : tok_is t k s = true <-> tok_sig t = punct k s.
Proof.
  unfold tok_is, tok_sig, punct. rewrite andb_true_iff, kind_eqb_eq, is_str_eq.
  split; [intros [-> ->]; reflexivity | intros H; now injection H].
Qed.

Lemma tok_is_other t k s :
  tok_sig t <> punct k s -> tok_is t k s = false.
Proof.
  intros H. destruct (tok_is t k s) eqn:E; [|reflexivity].
  apply tok_is_sig in E. contradiction.
Qed.

Lemma join_cons p ps :
  ps <> [] -> join (p :: ps) = p ++ punct COMMA "," :: join ps.
Proof. destruct ps; [contradiction | reflexivity]. Qed.

(** A value does not begin with a closing bracket or brace. *)
Lemma tokens_of_head x :
  exists s ss,
    tokens_of x = s :: ss /\
    s <> punct BRACKET "]" /\ s <> punct BRACE "}".
Proof.
  destruct x; cbn [tokens_of]; eexists; eexists;
    (split; [reflexivity|]); split; intros H; cbv in H; discriminate H.
Qed.

Lemma la_sigs_cons la s ss :
  la_sigs la = s :: ss ->
  exists t ts, la_tokens la = t :: ts /\ tok_sig t = s /\ map tok_sig ts = ss.
Proof.
  unfold la_sigs. destruct (la_tokens la) as [|t ts]; [discriminate|].
  cbn [map]. intros H. injection H as H1 H2. now exists t, ts.
Qed.

(** ** Runs over given tokens *)

Lemma runs_bind A B (m : M A) (f : A -> M B) la Q R s1 s2 :
  runs_to m la Q s1 ->
  (forall a la1,
     Q a -> la_sigs la1 = s1 -> la_finish la1 = la_finish la ->
     runs_to (f a) la1 R s2) ->
  runs_to (bind m f) la R s2.
Proof.
  intros Hm Hf r. unfold bind.
  destruct (m la) as [r1|] eqn:E; [|discriminate].
  destruct (Hm r1 E) as (a & la1 & -> & Hq & Hs & Hfin & u1 & Hu1).
  intros H.
  destruct (Hf a la1 Hq Hs Hfin r H)
    as (b & la2 & -> & Hr & Hs2 & Hfin2 & u2 & Hu2).
  exists b, la2. repeat split; [assumption .. | congruence |].
  exists (u1 ++ u2). now rewrite Hu1, Hu2, app_assoc.
Qed.

Lemma runs_conseq A (m : M A) la (Q Q' : A -> Prop) rest :
  runs_to m la Q rest -> (forall a, Q a -> Q' a) -> runs_to m la Q' rest.
Proof.
  intros Hm HQ r Hr.
  destruct (Hm r Hr) as (a & la1 & -> & Hq & Hs & Hf & Hu).
  exists a, la1. repeat split; auto.
Qed.

Lemma runs_ret A (a : A) la (Q : A -> Prop) :
  Q a -> runs_to (ret a) la Q (la_sigs la).
Proof.
  intros Hq r H. injection H as <-. exists a, la.
  repeat split; [assumption|]. now exists [].
Qed.

Lemma runs_next la s ss :
  la_sigs la = s :: ss ->
  runs_to (or_end_of_input (lift la_next)) la (fun t => tok_sig t = s) ss.
Proof.
  intros H. apply la_sigs_cons in H. destruct H as (t & ts & Ht & Hs & Hss).
  destruct (next_tok la t ts Ht) as (la1 & E & Ht1 & Hf1).
  intros r Hr. rewrite E in Hr. injection Hr as <-. exists t, la1.
  repeat split; try assumption.
  - unfold la_sigs. now rewrite Ht1.
  - exists [t]. now rewrite Ht, Ht1.
Qed.

Lemma runs_peek la s ss :
  la_sigs la = s :: ss ->
  runs_to (or_end_of_input (lift peek)) la (fun t => tok_sig t = s) (s :: ss).
Proof.
  intros H. apply la_sigs_cons in H. destruct H as (t & ts & Ht & Hs & Hss).
  destruct (peek_tok la t ts Ht) as (la1 & E & Ht1 & Hf1).
  intros r Hr. rewrite E in Hr. injection Hr as <-. exists t, la1.
  repeat split; try assumption.
  - unfold la_sigs. rewrite Ht1. cbn [map]. now rewrite Hs, Hss.
  - exists []. now rewrite Ht, Ht1.
Qed.

Lemma runs_take la s ss :
  la_sigs la = s :: ss ->
  runs_to (lift la_next) la (fun _ => True) ss.
Proof.
  intros H. apply la_sigs_cons in H. destruct H as (t & ts & Ht & Hs & Hss).
  destruct (la_next_cons la t ts Ht) as (la1 & E & Ht1 & Hf1).
  intros r Hr. unfold lift in Hr. rewrite E in Hr. injection Hr as <-.
  exists t, la1. repeat split; try assumption.
  - unfold la_sigs. now rewrite Ht1.
  - exists [t]. now rewrite Ht, Ht1.
Qed.

Lemma runs_expect la k v ss ev :
  la_sigs la = (k, v) :: ss ->
  match ev with
  | Some e => v = PyStr e
  | None => True
  end ->
  runs_to (_expect k ev) la (fun a => a = v) ss.
Proof.
  intros H Hev. apply la_sigs_cons in H.
  destruct H as (t & ts & Ht & Hs & Hss).
  unfold tok_sig in Hs. injection Hs as Hk Hv.
  assert (Hev' : match ev with
                 | Some e => is_str (tok_value t) e = true
                 | None => True
                 end).
  { destruct ev as [e|]; [|exact I]. apply is_str_eq. congruence. }
  destruct (expect_tok la t ts Ht k ev Hk Hev') as (la1 & E & Ht1 & Hf1).
  intros r Hr. rewrite E in Hr. injection Hr as <-. exists (tok_value t), la1.
  repeat split; try assumption.
  - unfold la_sigs. now rewrite Ht1.
  - exists [t]. now rewrite Ht, Ht1.
Qed.

Lemma gtb_false d max_depth : (d <= max_depth)%Z -> (d >? max_depth)%Z = false.
Proof. intros H. rewrite Z.gtb_ltb. now apply Z.ltb_ge. Qed.

Lemma dict_has_In key obj : dict_has key obj = true <-> In key (map fst obj).
Proof.
  induction obj as [|[k v] obj IH]; cbn [dict_has map fst In].
  - split; [discriminate | contradiction].
  - now rewrite orb_true_iff, text_eqb_eq, IH.
Qed.

Lemma dict_set_fresh key v obj :
  ~ In key (map fst obj) -> dict_set key v obj = obj ++ [(key, v)].
Proof.
  induction obj as [|[k x] obj IH]; cbn [dict_set map fst In app];
    intros H; [reflexivity|].
  destruct (text_eqb k key) eqn:E.
  - apply text_eqb_eq in E. tauto.
  - rewrite IH; [reflexivity | tauto].
Qed.

(** ** The tokens of a tree are parsed to its value *)

Section Complete.

Variables (max_depth : Z) (allow_dup : bool).

Let value_runs (raw : pyval) : Prop :=
  forall fuel d la rest,
    la_sigs la = tokens_of raw ++ rest ->
    fits max_depth d raw ->
    (allow_dup = false -> distinct_keys raw) ->
    runs_to (_parse_value fuel d max_depth allow_dup) la
      (fun v => v = merge raw) rest.

Let step (obj : list (text * pyval)) (kv : text * pyval)
  : list (text * pyval) :=
  let (k, x) := kv in dict_set k (merge x) obj.

Let member (kv : text * pyval) : list (kind * pyval) :=
  let (k, x) := kv in member_tokens k (tokens_of x).

Lemma scalar_runs raw k : kind_of raw = Some k -> value_runs raw.
Proof.
  intros Hk fuel d la rest Hs Hfit _.
  destruct fuel as [|fuel]; [intros r H; discriminate|].
  rewrite _parse_value_eq, (gtb_false _ _ (fits_depth _ _ _ Hfit)).
  assert (Hraw : tokens_of raw = [(k, raw)] /\ merge raw = raw /\
                 (k = STRING \/ k = NUMBER \/ k = LITERAL)).
  { destruct raw; cbn in Hk; try discriminate; injection Hk as <-;
      cbn; auto. }
  destruct Hraw as (Ht & Hm & Hkind). rewrite Ht in Hs. cbn [app] in Hs.
  eapply runs_bind; [apply (runs_next la _ _ Hs)|].
  intros t la1 Hsig Hs1 Hf1. unfold tok_sig in Hsig.
  injection Hsig as Hkt Hvt. rewrite Hkt.
  assert (H : runs_to (ret (tok_value t)) la1 (fun v => v = merge raw) rest).
  { rewrite <- Hs1. apply runs_ret. congruence. }
  destruct Hkind as [ -> | [ -> | -> ] ]; exact H.
Qed.

Lemma array_loop_runs : forall xs,
  Forall value_runs xs -> xs <> [] ->
  forall fuel d items la rest,
    la_sigs la = join (map tokens_of xs) ++ punct BRACKET "]" :: rest ->
    Forall (fits max_depth d) xs ->
    (allow_dup = false -> Forall distinct_keys xs) ->
    runs_to (array_loop fuel d max_depth allow_dup items) la
      (fun v => v = PyList (items ++ map merge xs)) rest.
Proof.
  induction xs as [|x xs IH]; intros HP Hne fuel d items la rest Hs Hfit Hdk;
    [contradiction|].
  destruct fuel as [|fuel]; [intros r H; discriminate|].
  rewrite array_loop_eq.
  apply Forall_cons_iff in HP. destruct HP as [Hx HP].
  apply Forall_cons_iff in Hfit. destruct Hfit as [Hfx Hfit].
  assert (Hdx : allow_dup = false -> distinct_keys x)
    by (intros Ha; exact (Forall_inv (Hdk Ha))).
  assert (Hdk' : allow_dup = false -> Forall distinct_keys xs)
    by (intros Ha; exact (Forall_inv_tail (Hdk Ha))).
  destruct xs as [|x2 xs].
  - cbn [map join] in Hs.
    eapply runs_bind; [exact (Hx fuel d la _ Hs Hfx Hdx)|].
    intros v la1 -> Hs1 Hf1.
    eapply runs_bind; [exact (runs_peek la1 _ _ Hs1)|].
    intros pk la2 Hpk Hs2 Hf2.
    rewrite (proj2 (tok_is_sig pk BRACKET "]") Hpk).
    eapply runs_bind; [exact (runs_take la2 _ _ Hs2)|].
    intros t la3 _ Hs3 Hf3. rewrite <- Hs3. now apply runs_ret.
  - rewrite map_cons, join_cons in Hs by discriminate.
    rewrite <- app_assoc in Hs. cbn [app] in Hs.
    eapply runs_bind; [exact (Hx fuel d la _ Hs Hfx Hdx)|].
    intros v la1 -> Hs1 Hf1.
    eapply runs_bind; [exact (runs_peek la1 _ _ Hs1)|].
    intros pk la2 Hpk Hs2 Hf2.
    rewrite (tok_is_other pk BRACKET "]")
      by (rewrite Hpk; intros H; cbv in H; discriminate H).
    eapply runs_bind.
    { apply (runs_expect la2 COMMA (PyStr (text_of ",")) _
               (Some (text_of ","))); [exact Hs2 | reflexivity]. }
    intros u la3 _ Hs3 Hf3.
    eapply runs_conseq.
    + exact (IH HP ltac:(discriminate) fuel d (items ++ [merge x]) la3 rest
               Hs3 Hfit Hdk').
    + intros a ->. now rewrite <- app_assoc.
Qed.

Lemma array_runs items :
  Forall value_runs items ->
  forall fuel d la rest,
    la_sigs la = join (map tokens_of items) ++ punct BRACKET "]" :: rest ->
    Forall (fits max_depth d) items ->
    (allow_dup = false -> Forall distinct_keys items) ->
    runs_to (_parse_array fuel d max_depth allow_dup) la
      (fun v => v = PyList (map merge items)) rest.
Proof.
  intros HP fuel d la rest Hs Hfit Hdk.
  destruct fuel as [|fuel]; [intros r H; discriminate|].
  rewrite _parse_array_eq. destruct items as [|x xs].
  - cbn [map join app] in Hs.
    eapply runs_bind; [exact (runs_peek la _ _ Hs)|].
    intros pk la1 Hpk Hs1 Hf1.
    rewrite (proj2 (tok_is_sig pk BRACKET "]") Hpk).
    eapply runs_bind; [exact (runs_take la1 _ _ Hs1)|].
    intros t la2 _ Hs2 Hf2. rewrite <- Hs2. now apply runs_ret.
  - destruct (tokens_of_head x) as (s0 & ss & Hh & Hn1 & Hn2).
    assert (Hs' : exists tl, la_sigs la = s0 :: tl).
    { rewrite Hs. cbn [map]. destruct xs as [|x2 xs].
      - cbn [map join]. rewrite Hh. now eexists.
      - rewrite join_cons by discriminate. rewrite Hh. now eexists. }
    destruct Hs' as [tl Hs'].
    eapply runs_bind; [exact (runs_peek la _ _ Hs')|].
    intros pk la1 Hpk Hs1 Hf1.
    rewrite (tok_is_other pk BRACKET "]") by (now rewrite Hpk).
    assert (Hs1' : la_sigs la1 =
                   join (map tokens_of (x :: xs)) ++ punct BRACKET "]" :: rest)
      by congruence.
    exact (array_loop_runs (x :: xs) HP ltac:(discriminate) fuel d [] la1
             rest Hs1' Hfit Hdk).
Qed.

Lemma object_loop_runs : forall entries,
  Forall (fun kv : text * pyval => value_runs (snd kv)) entries ->
  entries <> [] ->
  forall fuel d obj la rest,
    la_sigs la = join (map member entries) ++ punct BRACE "}" :: rest ->
    Forall (fun kv : text * pyval => fits max_depth d (snd kv)) entries ->
    (allow_dup = false ->
     NoDup (map fst obj ++ map fst entries) /\
     Forall (fun kv : text * pyval => distinct_keys (snd kv)) entries) ->
    runs_to (object_loop fuel d max_depth allow_dup obj) la
      (fun v => v = PyDict (fold_left step entries obj)) rest.
Proof.
  induction entries as [|[k x] entries IH];
    intros HP Hne fuel d obj la rest Hs Hfit Hdk; [contradiction|].
  destruct fuel as [|fuel]; [intros r H; discriminate|].
  rewrite object_loop_eq.
  apply Forall_cons_iff in HP. destruct HP as [Hx HP]. cbn [snd] in Hx.
  apply Forall_cons_iff in Hfit. destruct Hfit as [Hfx Hfit].
  cbn [snd] in Hfx.
  assert (Hdx : allow_dup = false -> distinct_keys x)
    by (intros Ha; exact (Forall_inv (proj2 (Hdk Ha)))).
  assert (Hdup : negb allow_dup && dict_has k obj = false).
  { destruct allow_dup; [reflexivity|]. cbn [negb andb].
    destruct (dict_has k obj) eqn:E; [|reflexivity].
    apply dict_has_In in E. destruct (Hdk eq_refl) as [Hnd _].
    cbn [map fst] in Hnd. apply NoDup_remove_2 in Hnd.
    exfalso. apply Hnd. apply in_or_app. now left. }
  assert (Htail : exists tail,
            la_sigs la =
            (STRING, PyStr k) :: punct COLON ":" :: tokens_of x ++ tail /\
            ((entries = [] /\ tail = punct BRACE "}" :: rest) \/
             (entries <> [] /\
              tail = punct COMMA "," ::
                     join (map member entries) ++ punct BRACE "}" :: rest))).
  { rewrite Hs. destruct entries as [|kv entries].
    - eexists. split; [|left; split; reflexivity].
      cbn [map join]. unfold member. cbn [member_tokens app].
      rewrite <- ?app_assoc. reflexivity.
    - eexists. split; [|right; split; [discriminate | reflexivity]].
      rewrite map_cons, join_cons by discriminate.
      unfold member at 1. cbn [member_tokens app].
      rewrite <- ?app_assoc. reflexivity. }
  destruct Htail as (tail & Hs' & Htail).
  eapply runs_bind.
  { apply (runs_expect la STRING (PyStr k) _ None); [exact Hs' | exact I]. }
  intros key la1 -> Hs1 Hf1.
  eapply runs_bind.
  { apply (runs_expect la1 COLON (PyStr (text_of ":")) _
             (Some (text_of ":"))); [exact Hs1 | reflexivity]. }
  intros u la2 _ Hs2 Hf2. cbv beta iota. rewrite Hdup.
  eapply runs_bind; [exact (Hx fuel d la2 _ Hs2 Hfx Hdx)|].
  intros v la3 -> Hs3 Hf3.
  destruct Htail as [[-> ->]|[Hne' ->]].
  - eapply runs_bind; [exact (runs_peek la3 _ _ Hs3)|].
    intros pk la4 Hpk Hs4 Hf4.
    rewrite (proj2 (tok_is_sig pk BRACE "}") Hpk).
    eapply runs_bind; [exact (runs_take la4 _ _ Hs4)|].
    intros t la5 _ Hs5 Hf5. rewrite <- Hs5. now apply runs_ret.
  - eapply runs_bind; [exact (runs_peek la3 _ _ Hs3)|].
    intros pk la4 Hpk Hs4 Hf4.
    rewrite (tok_is_other pk BRACE "}")
      by (rewrite Hpk; intros H; cbv in H; discriminate H).
    eapply runs_bind.
    { apply (runs_expect la4 COMMA (PyStr (text_of ",")) _
               (Some (text_of ","))); [exact Hs4 | reflexivity]. }
    intros u2 la5 _ Hs5 Hf5.
    apply (IH HP Hne' fuel d (dict_set k (merge x) obj) la5 rest Hs5 Hfit).
    intros Ha. destruct (Hdk Ha) as [Hnd Hdv]. split.
    + cbn [map fst] in Hnd.
      rewrite dict_set_fresh.
      * rewrite map_app, <- app_assoc. exact Hnd.
      * apply NoDup_remove_2 in Hnd. intros Hin. apply Hnd.
        apply in_or_app. now left.
    + exact (Forall_inv_tail Hdv).
Qed.

Lemma object_runs entries :
  Forall (fun kv : text * pyval => value_runs (snd kv)) entries ->
  forall fuel d la rest,
    la_sigs la = join (map member entries) ++ punct BRACE "}" :: rest ->
    Forall (fun kv : text * pyval => fits max_depth d (snd kv)) entries ->
    (allow_dup = false ->
     NoDup (map fst entries) /\
     Forall (fun kv : text * pyval => distinct_keys (snd kv)) entries) ->
    runs_to (_parse_object fuel d max_depth allow_dup) la
      (fun v => v = PyDict (fold_left step entries [])) rest.
Proof.
  intros HP fuel d la rest Hs Hfit Hdk.
  destruct fuel as [|fuel]; [intros r H; discriminate|].
  rewrite _parse_object_eq. destruct entries as [|[k x] entries].
  - cbn [map join app] in Hs.
    eapply runs_bind; [exact (runs_peek la _ _ Hs)|].
    intros pk la1 Hpk Hs1 Hf1.
    rewrite (proj2 (tok_is_sig pk BRACE "}") Hpk).
    eapply runs_bind; [exact (runs_take la1 _ _ Hs1)|].
    intros t la2 _ Hs2 Hf2. rewrite <- Hs2. now apply runs_ret.
  - assert (Hs' : exists tl, la_sigs la = (STRING, PyStr k) :: tl).
    { rewrite Hs. destruct entries as [|kv entries].
      - cbn [map join]. unfold member. cbn [member_tokens app]. now eexists.
      - rewrite map_cons, join_cons by discriminate.
        unfold member at 1. cbn [member_tokens app]. now eexists. }
    destruct Hs' as [tl Hs'].
    eapply runs_bind; [exact (runs_peek la _ _ Hs')|].
    intros pk la1 Hpk Hs1 Hf1.
    rewrite (tok_is_other pk BRACE "}")
      by (rewrite Hpk; intros H; cbv in H; discriminate H).
    assert (Hs1' : la_sigs la1 =
                   join (map member ((k, x) :: entries))
                   ++ punct BRACE "}" :: rest) by congruence.
    apply (object_loop_runs ((k, x) :: entries) HP ltac:(discriminate)
             fuel d [] la1 rest Hs1' Hfit Hdk).
Qed.

(** The tokens of a tree that fits the limit (and names no key twice,
    unless that is allowed) are parsed to the value of the tree, and no
    token after them is touched. *)
Lemma value_runs_all : forall raw, value_runs raw.
Proof.
  apply pyval_nested_ind.
  - intros s. now apply (scalar_runs _ STRING).
  - intros z. now apply (scalar_runs _ NUMBER).
  - intros s. now apply (scalar_runs _ NUMBER).
  - intros b. now apply (scalar_runs _ LITERAL).
  - now apply (scalar_runs _ LITERAL).
  - intros items HP fuel d la rest Hs Hfit Hdk.
    destruct fuel as [|fuel]; [intros r H; discriminate|].
    rewrite _parse_value_eq, (gtb_false _ _ (fits_depth _ _ _ Hfit)).
    cbn [tokens_of app] in Hs. rewrite <- app_assoc in Hs. cbn [app] in Hs.
    eapply runs_bind; [exact (runs_next la _ _ Hs)|].
    intros t la1 Hsig Hs1 Hf1.
    pose proof (proj2 (tok_is_sig t BRACKET "[") Hsig) as Hopen.
    unfold tok_sig, punct in Hsig. injection Hsig as Hkt Hvt.
    rewrite Hkt, Hopen.
    rewrite (tok_is_other t BRACE "{")
      by (unfold tok_sig; rewrite Hkt; discriminate).
    apply fits_list in Hfit. destruct Hfit as [_ Hfit].
    apply (array_runs items HP fuel (d + 1)%Z la1 rest Hs1 Hfit).
    intros Ha. apply distinct_keys_list. now apply Hdk.
  - intros entries HP fuel d la rest Hs Hfit Hdk.
    destruct fuel as [|fuel]; [intros r H; discriminate|].
    rewrite _parse_value_eq, (gtb_false _ _ (fits_depth _ _ _ Hfit)).
    cbn [tokens_of app] in Hs. rewrite <- app_assoc in Hs. cbn [app] in Hs.
    eapply runs_bind; [exact (runs_next la _ _ Hs)|].
    intros t la1 Hsig Hs1 Hf1.
    pose proof (proj2 (tok_is_sig t BRACE "{") Hsig) as Hopen.
    unfold tok_sig, punct in Hsig. injection Hsig as Hkt Hvt.
    rewrite Hkt, Hopen.
    apply fits_dict in Hfit. destruct Hfit as [_ Hfit].
    apply (object_runs entries HP fuel (d + 1)%Z la1 rest Hs1 Hfit).
    intros Ha. apply distinct_keys_dict. now apply Hdk.
Qed.

End Complete.

(** ** What is parsed is the value of a tree *)

Lemma bind_inv A B (m : M A) (f : A -> M B) la b la2 :
  bind m f la = Some (Return (b, la2)) ->
  exists a la1,
    m la = Some (Return (a, la1)) /\ f a la1 = Some (Return (b, la2)).
Proof.
  unfold bind. destruct (m la) as [[[a la1]|e]|]; try discriminate.
  intros H. now exists a, la1.
Qed.

Lemma typed_cons la t la1 :
  typed la -> la_tokens la = t :: la_tokens la1 ->
  typed la1 /\ tok_typed t /\ la_sigs la = tok_sig t :: la_sigs la1.
Proof.
  unfold typed, la_sigs. intros Hty Ht. rewrite Ht in *.
  apply Forall_cons_iff in Hty. destruct Hty as [H1 H2]. now repeat split.
Qed.

Lemma take_read la t la1 :
  typed la -> lift la_next la = Some (Return (t, la1)) ->
  typed la1 /\ tok_typed t /\ la_sigs la = tok_sig t :: la_sigs la1.
Proof.
  intros Hty H. apply typed_cons; [exact Hty|]. unfold lift in H.
  destruct (la_tokens la) as [|t0 ts] eqn:Et.
  - rewrite (la_next_nil la Et) in H. discriminate H.
  - destruct (la_next_cons la t0 ts Et) as (la0 & E & Ht0 & _).
    rewrite E in H. injection H as <- <-. now rewrite Ht0.
Qed.

Lemma next_read la t la1 :
  typed la -> or_end_of_input (lift la_next) la = Some (Return (t, la1)) ->
  typed la1 /\ tok_typed t /\ la_sigs la = tok_sig t :: la_sigs la1.
Proof.
  intros Hty H. apply take_read; [exact Hty|].
  unfold or_end_of_input in H.
  destruct (lift la_next la) as [[[t0 la0]|e]|]; try discriminate;
    [exact H | destruct e; discriminate].
Qed.

Lemma peek_read la t la1 :
  typed la -> or_end_of_input (lift peek) la = Some (Return (t, la1)) ->
  typed la1 /\ la_sigs la1 = la_sigs la /\
  exists ss, la_sigs la = tok_sig t :: ss.
Proof.
  intros Hty H. unfold or_end_of_input, lift in H.
  destruct (la_tokens la) as [|t0 ts] eqn:Et.
  - rewrite (peek_nil la Et) in H.
    destruct (la_finish la) as [e|]; [destruct e|]; discriminate.
  - destruct (peek_cons la t0 ts Et) as (la0 & E & Ht0 & _).
    rewrite E in H. injection H as <- <-.
    unfold typed, la_sigs in *. rewrite Ht0, Et in *.
    repeat split; [assumption|]. now eexists.
Qed.

Lemma expect_read k ev la v la1 :
  typed la -> _expect k ev la = Some (Return (v, la1)) ->
  typed la1 /\ la_sigs la = (k, v) :: la_sigs la1 /\
  (k = STRING -> exists s, v = PyStr s) /\
  match ev with
  | Some e => v = PyStr e
  | None => True
  end.
Proof.
  intros Hty H. unfold _expect in H. apply bind_inv in H.
  destruct H as (t & la0 & Hn & H).
  apply (next_read la t la0 Hty) in Hn. destruct Hn as (Hty0 & Ht & Hs).
  destruct (negb (kind_eqb (tok_kind t) k)
            || match ev with
               | Some v0 => negb (is_str (tok_value t) v0)
               | None => false
               end) eqn:Ec; [discriminate H|].
  injection H as <- <-. apply orb_false_iff in Ec. destruct Ec as [Ek Ev].
  apply negb_false_iff, kind_eqb_eq in Ek.
  split; [exact Hty0|]. split; [now rewrite Hs, <- Ek|]. split.
  - intros ->. unfold tok_typed in Ht. rewrite Ek in Ht.
    destruct (tok_value t); try discriminate Ht. now eexists.
  - destruct ev as [e|]; [|exact I].
    now apply negb_false_iff, is_str_eq in Ev.
Qed.

Lemma close_read la s ss (v a : pyval) la1 :
  typed la -> la_sigs la = s :: ss ->
  (lift la_next ;;; ret v) la = Some (Return (a, la1)) ->
  typed la1 /\ a = v /\ la_sigs la1 = ss.
Proof.
  intros Hty Hs H. apply bind_inv in H. destruct H as (t & la0 & Hn & H).
  apply (take_read la t la0 Hty) in Hn. destruct Hn as (Hty0 & _ & Hs0).
  injection H as <- <-. repeat split; [assumption | congruence].
Qed.

Lemma NoDup_snoc (A : Type) (l : list A) a :
  NoDup l -> ~ In a l -> NoDup (l ++ [a]).
Proof.
  intros Hl Ha. apply NoDup_app; [exact Hl | | ].
  - constructor; [intros [] | constructor].
  - intros x Hx [<-|[]]. contradiction.
Qed.

Section Sound.

Variables (max_depth : Z) (allow_dup : bool).

Let step (obj : list (text * pyval)) (kv : text * pyval)
  : list (text * pyval) :=
  let (k, x) := kv in dict_set k (merge x) obj.

Let member (kv : text * pyval) : list (kind * pyval) :=
  let (k, x) := kv in member_tokens k (tokens_of x).

(** Whatever a procedure returns, the tokens it has taken are those of
    a tree (of the elements of an array, of the members of an object), the
    value is that of the tree, the tree fits the limit, and it names no key
    twice when that is not allowed. *)
Lemma parser_reads fuel :
  (forall d la v la1,
     typed la ->
     _parse_value fuel d max_depth allow_dup la = Some (Return (v, la1)) ->
     typed la1 /\
     exists raw,
       la_sigs la = tokens_of raw ++ la_sigs la1 /\ v = merge raw /\
       fits max_depth d raw /\ (allow_dup = false -> distinct_keys raw)) /\
  (forall d la v la1,
     typed la ->
     _parse_array fuel d max_depth allow_dup la = Some (Return (v, la1)) ->
     typed la1 /\
     exists xs,
       la_sigs la =
         join (map tokens_of xs) ++ punct BRACKET "]" :: la_sigs la1 /\
       v = PyList (map merge xs) /\
       Forall (fits max_depth d) xs /\
       (allow_dup = false -> Forall distinct_keys xs)) /\
  (forall d items la v la1,
     typed la ->
     array_loop fuel d max_depth allow_dup items la
       = Some (Return (v, la1)) ->
     typed la1 /\
     exists xs,
       xs <> [] /\
       la_sigs la =
         join (map tokens_of xs) ++ punct BRACKET "]" :: la_sigs la1 /\
       v = PyList (items ++ map merge xs) /\
       Forall (fits max_depth d) xs /\
       (allow_dup = false -> Forall distinct_keys xs)) /\
  (forall d la v la1,
     typed la ->
     _parse_object fuel d max_depth allow_dup la = Some (Return (v, la1)) ->
     typed la1 /\
     exists entries,
       la_sigs la =
         join (map member entries) ++ punct BRACE "}" :: la_sigs la1 /\
       v = PyDict (fold_left step entries []) /\
       Forall (fun kv : text * pyval => fits max_depth d (snd kv)) entries /\
       (allow_dup = false ->
        NoDup (map fst entries) /\
        Forall (fun kv : text * pyval => distinct_keys (snd kv)) entries)) /\
  (forall d obj la v la1,
     typed la ->
     (allow_dup = false -> NoDup (map fst obj)) ->
     object_loop fuel d max_depth allow_dup obj la
       = Some (Return (v, la1)) ->
     typed la1 /\
     exists entries,
       entries <> [] /\
       la_sigs la =
         join (map member entries) ++ punct BRACE "}" :: la_sigs la1 /\
       v = PyDict (fold_left step entries obj) /\
       Forall (fun kv : text * pyval => fits max_depth d (snd kv)) entries /\
       (allow_dup = false ->
        NoDup (map fst obj ++ map fst entries) /\
        Forall (fun kv : text * pyval => distinct_keys (snd kv)) entries)).
Proof.
  induction fuel as [|fuel (IHv & IHa & IHla & IHo & IHlo)].
  - repeat split; intros; discriminate.
  - split; [|split; [|split; [|split]]].
    + (* _parse_value *)
      intros d la v la1 Hty. rewrite _parse_value_eq.
      destruct (d >? max_depth)%Z eqn:Hd; [discriminate|].
      assert (Hd' : (d <= max_depth)%Z)
        by (rewrite Z.gtb_ltb in Hd; now apply Z.ltb_ge in Hd).
      intros H. apply bind_inv in H. destruct H as (t & la0 & Hn & H).
      apply (next_read la t la0 Hty) in Hn. destruct Hn as (Hty0 & Ht & Hs).
      assert (Hscalar :
                (tok_kind t = STRING \/ tok_kind t = NUMBER \/
                 tok_kind t = LITERAL) ->
                ret (tok_value t) la0 = Some (Return (v, la1)) ->
                typed la1 /\
                exists raw,
                  la_sigs la = tokens_of raw ++ la_sigs la1 /\ v = merge raw /\
                  fits max_depth d raw /\
                  (allow_dup = false -> distinct_keys raw)).
      { intros Hk Hr. injection Hr as <- <-. split; [exact Hty0|].
        exists (tok_value t). unfold tok_typed in Ht. rewrite Hs.
        unfold tok_sig.
        destruct Hk as [Hk|[Hk|Hk]]; rewrite Hk in *;
          destruct (tok_value t); try discriminate Ht;
          repeat split; auto. }
      assert (Hcont :
                (if tok_is t BRACE "{"
                 then _parse_object fuel (d + 1) max_depth allow_dup
                 else if tok_is t BRACKET "["
                      then _parse_array fuel (d + 1) max_depth allow_dup
                      else raise (ValueExpected (tok_kind t) (tok_value t)))
                  la0 = Some (Return (v, la1)) ->
                typed la1 /\
                exists raw,
                  la_sigs la = tokens_of raw ++ la_sigs la1 /\ v = merge raw /\
                  fits max_depth d raw /\
                  (allow_dup = false -> distinct_keys raw)).
      { destruct (tok_is t BRACE "{") eqn:Eo.
        - intros Hr. apply tok_is_sig in Eo.
          destruct (IHo _ _ _ _ Hty0 Hr)
            as (Hty1 & entries & Hs1 & -> & Hfit & Hdk).
          split; [exact Hty1|]. exists (PyDict entries).
          split; [|split; [reflexivity|split]].
          + rewrite Hs, Eo, Hs1. cbn [tokens_of app].
            now rewrite <- app_assoc.
          + now apply fits_dict.
          + intros Ha. apply distinct_keys_dict. now apply Hdk.
        - destruct (tok_is t BRACKET "[") eqn:Ea; [|discriminate].
          intros Hr. apply tok_is_sig in Ea.
          destruct (IHa _ _ _ _ Hty0 Hr)
            as (Hty1 & xs & Hs1 & -> & Hfit & Hdk).
          split; [exact Hty1|]. exists (PyList xs).
          split; [|split; [reflexivity|split]].
          + rewrite Hs, Ea, Hs1. cbn [tokens_of app].
            now rewrite <- app_assoc.
          + now apply fits_list.
          + intros Ha. apply distinct_keys_list. now apply Hdk. }
      destruct (tok_kind t) eqn:Ek; auto.
    + (* _parse_array *)
      intros d la v la1 Hty. rewrite _parse_array_eq. intros H.
      apply bind_inv in H. destruct H as (pk & la0 & Hp & H).
      apply (peek_read la pk la0 Hty) in Hp.
      destruct Hp as (Hty0 & Hs0 & ss & Hs).
      destruct (tok_is pk BRACKET "]") eqn:Ec.
      * apply tok_is_sig in Ec. rewrite Hs in Hs0.
        destruct (close_read la0 _ _ _ _ _ Hty0 Hs0 H) as (Hty1 & -> & Hs1).
        split; [exact Hty1|]. exists []. cbn [map join app].
        repeat split; [congruence | constructor | intros; constructor].
      * destruct (IHla _ _ _ _ _ Hty0 H)
          as (Hty1 & xs & Hne & Hs1 & -> & Hfit & Hdk).
        split; [exact Hty1|]. exists xs.
        repeat split; [congruence | assumption | assumption].
    + (* array_loop *)
      intros d items la v la1 Hty. rewrite array_loop_eq. intros H.
      apply bind_inv in H. destruct H as (x & la0 & Hv & H).
      destruct (IHv _ _ _ _ Hty Hv) as (Hty0 & raw & Hs & -> & Hfx & Hdx).
      apply bind_inv in H. destruct H as (pk & la2 & Hp & H).
      apply (peek_read la0 pk la2 Hty0) in Hp.
      destruct Hp as (Hty2 & Hs2 & ss & Hs0).
      destruct (tok_is pk BRACKET "]") eqn:Ec.
      * apply tok_is_sig in Ec. rewrite Hs0 in Hs2.
        destruct (close_read la2 _ _ _ _ _ Hty2 Hs2 H) as (Hty1 & -> & Hs1).
        split; [exact Hty1|]. exists [raw]. cbn [map join].
        repeat split.
        -- discriminate.
        -- rewrite Hs, Hs0. congruence.
        -- now constructor.
        -- intros Ha. constructor; [now apply Hdx | constructor].
      * apply bind_inv in H. destruct H as (u & la3 & He & H).
        apply (expect_read _ _ la2 u la3 Hty2) in He.
        destruct He as (Hty3 & Hs3 & _ & ->).
        destruct (IHla _ _ _ _ _ Hty3 H)
          as (Hty1 & xs & Hne & Hs1 & -> & Hfit & Hdk).
        split; [exact Hty1|]. exists (raw :: xs). repeat split.
        -- discriminate.
        -- rewrite map_cons, join_cons
             by (destruct xs; [contradiction | discriminate]).
           rewrite Hs, <- Hs2, Hs3, Hs1, <- !app_assoc. reflexivity.
        -- cbn [map]. now rewrite <- app_assoc.
        -- now constructor.
        -- intros Ha. constructor; [now apply Hdx | now apply Hdk].
    + (* _parse_object *)
      intros d la v la1 Hty. rewrite _parse_object_eq. intros H.
      apply bind_inv in H. destruct H as (pk & la0 & Hp & H).
      apply (peek_read la pk la0 Hty) in Hp.
      destruct Hp as (Hty0 & Hs0 & ss & Hs).
      destruct (tok_is pk BRACE "}") eqn:Ec.
      * apply tok_is_sig in Ec. rewrite Hs in Hs0.
        destruct (close_read la0 _ _ _ _ _ Hty0 Hs0 H) as (Hty1 & -> & Hs1).
        split; [exact Hty1|]. exists []. cbn [map join app fold_left].
        repeat split;
          [congruence | constructor | constructor | constructor].
      * assert (Hnd : allow_dup = false -> NoDup (map fst (@nil (text * pyval))))
          by (intros _; constructor).
        destruct (IHlo _ _ _ _ _ Hty0 Hnd H)
          as (Hty1 & entries & Hne & Hs1 & -> & Hfit & Hdk).
        split; [exact Hty1|]. exists entries.
        repeat split; [congruence | assumption | now apply Hdk ..].
    + (* object_loop *)
      intros d obj la v la1 Hty Hobj. rewrite object_loop_eq. intros H.
      apply bind_inv in H. destruct H as (key & la0 & He & H).
      apply (expect_read _ _ la key la0 Hty) in He.
      destruct He as (Hty0 & Hs & Hstr & _).
      destruct (Hstr eq_refl) as [k ->].
      apply bind_inv in H. destruct H as (u & la2 & He & H).
      apply (expect_read _ _ la0 u la2 Hty0) in He.
      destruct He as (Hty2 & Hs0 & _ & ->). cbv beta iota in H.
      destruct (negb allow_dup && dict_has k obj) eqn:Edup; [discriminate|].
      assert (Hfresh : allow_dup = false -> ~ In k (map fst obj)).
      { intros -> Hin. apply dict_has_In in Hin. now rewrite Hin in Edup. }
      apply bind_inv in H. destruct H as (x & la3 & Hv & H).
      destruct (IHv _ _ _ _ Hty2 Hv) as (Hty3 & raw & Hs2 & -> & Hfx & Hdx).
      apply bind_inv in H. destruct H as (pk & la4 & Hp & H).
      apply (peek_read la3 pk la4 Hty3) in Hp.
      destruct Hp as (Hty4 & Hs4 & ss & Hs3).
      assert (Hhead : la_sigs la =
                      member (k, raw) ++ la_sigs la3).
      { rewrite Hs, Hs0, Hs2. reflexivity. }
      destruct (tok_is pk BRACE "}") eqn:Ec.
      * apply tok_is_sig in Ec. rewrite Hs3 in Hs4.
        destruct (close_read la4 _ _ _ _ _ Hty4 Hs4 H) as (Hty1 & -> & Hs1).
        split; [exact Hty1|]. exists [(k, raw)]. cbn [map join fold_left].
        repeat split.
        -- discriminate.
        -- rewrite Hhead, Hs3. congruence.
        -- now constructor.
        -- cbn [map fst]. apply NoDup_snoc; auto.
        -- constructor; [now apply Hdx | constructor].
      * apply bind_inv in H. destruct H as (u & la5 & He & H).
        apply (expect_read _ _ la4 u la5 Hty4) in He.
        destruct He as (Hty5 & Hs5 & _ & ->).
        assert (Hobj' : allow_dup = false ->
                        NoDup (map fst (dict_set k (merge raw) obj))).
        { intros Ha. rewrite dict_set_fresh by auto.
          rewrite map_app. cbn [map fst]. apply NoDup_snoc; auto. }
        destruct (IHlo _ _ _ _ _ Hty5 Hobj' H)
          as (Hty1 & entries & Hne & Hs1 & -> & Hfit & Hdk).
        split; [exact Hty1|]. exists ((k, raw) :: entries). repeat split.
        -- discriminate.
        -- rewrite map_cons, join_cons
             by (destruct entries; [contradiction | discriminate]).
           rewrite Hhead, <- Hs4, Hs5, Hs1, <- !app_assoc. reflexivity.
        -- now constructor.
        -- destruct (Hdk H0) as [Hnd _].
           rewrite dict_set_fresh in Hnd by auto.
           rewrite map_app, <- app_assoc in Hnd. exact Hnd.
        -- constructor; [now apply Hdx | now apply Hdk].
Qed.

End Sound.

(** ** The grammar at the entry point *)

Lemma merge_distinct : forall raw, distinct_keys raw -> merge raw = raw.
Proof.
  apply (pyval_nested_ind (fun raw => distinct_keys raw -> merge raw = raw));
    try reflexivity.
  - intros items IH Hd. apply distinct_keys_list in Hd. cbn [merge]. f_equal.
    induction IH as [|x items Hx _ IHi]; [reflexivity|].
    apply Forall_cons_iff in Hd. destruct Hd as [Hdx Hd]. cbn [map].
    now rewrite Hx, IHi.
  - intros entries IH Hd. apply distinct_keys_dict in Hd.
    destruct Hd as [Hnd Hd]. cbn [merge]. f_equal.
    assert (G : forall obj,
              NoDup (map fst obj ++ map fst entries) ->
              fold_left
                (fun obj0 (kv : text * pyval) =>
                   let (k, x) := kv in dict_set k (merge x) obj0)
                entries obj = obj ++ entries).
    { clear Hnd. induction IH as [|[k x] entries Hx _ IHe]; intros obj Hnd.
      - now rewrite app_nil_r.
      - apply Forall_cons_iff in Hd. destruct Hd as [Hdx Hd].
        cbn [snd] in Hx, Hdx. cbn [fold_left]. rewrite (Hx Hdx).
        cbn [map fst] in Hnd.
        rewrite dict_set_fresh.
        + rewrite (IHe Hd).
          * now rewrite <- app_assoc.
          * now rewrite map_app, <- app_assoc.
        + apply NoDup_remove_2 in Hnd. intros Hin. apply Hnd.
          apply in_or_app. now left. }
    exact (G [] Hnd).
Qed.

Lemma lex_tokens_typed udb t : Forall tok_typed (yields (lex udb t)).
Proof.
  apply Forall_forall. intros tok Hin. unfold lex in Hin.
  apply lex_loop_tokens in Hin. destruct Hin as (m & _ & Hk & _ & Hv).
  unfold tok_typed. rewrite <- Hk.
  unfold token_value, number_value, literal_value in Hv.
  destruct (m_kind m); try exact I.
  - destruct (_validate_string udb (m_group m) (m_start m)); [|discriminate].
    now injection Hv as <-.
  - destruct (has_float_mark (m_group m)); [now injection Hv as <-|].
    destruct (py_int udb (m_group m)); [|discriminate].
    now injection Hv as <-.
  - destruct (text_eqb (m_group m) (text_of "true"));
      [now injection Hv as <-|].
    destruct (text_eqb (m_group m) (text_of "false"));
      [now injection Hv as <-|].
    destruct (text_eqb (m_group m) (text_of "null")); [|discriminate].
    now injection Hv as <-.
Qed.

(** The first token of a tree is a brace or a bracket when the tree is
    a container, and only then. *)
Lemma tokens_of_container raw s ss :
  tokens_of raw = s :: ss ->
  (kind_eqb (fst s) BRACE || kind_eqb (fst s) BRACKET = true <->
   is_container raw).
Proof.
  destruct raw; cbn [tokens_of]; intros H; injection H as <- _; cbn;
    split; intros H; try exact I; try discriminate; try contradiction;
    reflexivity.
Qed.

Lemma parse_tokens_terminates max_depth allow_dup g :
  terminates (length (yields g)) 0
    (parse_tokens (parse_fuel g) max_depth allow_dup).
Proof.
  unfold parse_tokens.
  apply (terminates_bind _ _ _ 0 0 0); [lia | apply terminates_lift_peek|].
  intros first b' Hb'. destruct (negb _).
  - apply (terminates_bind _ _ _ 0 0 0);
      [lia | apply terminates_lift_peek|].
    intros again b2 _. apply terminates_raise.
  - apply (terminates_bind _ _ _ 0 1 0); [lia | |].
    + apply (parser_terminates max_depth allow_dup (parse_fuel g)).
      unfold parse_fuel. lia.
    + intros result b2 _ la _.
      destruct (la_next la) as [[tok la1]|e] eqn:E.
      * eexists. split; [reflexivity | discriminate].
      * destruct e; eexists;
          (split; [reflexivity|]); try discriminate.
        intros a la1 E1. injection E1 as <- <-. lia.
Qed.

Section ParseGrammar.

Variables (max_depth : Z) (allow_dup : bool).

(** The tokens of a container that fits, up to the end of a generator
    that ends normally, are parsed to its value. *)
Lemma parse_tokens_runs fuel la raw :
  la_sigs la = tokens_of raw -> la_finish la = None ->
  is_container raw -> fits max_depth 0 raw ->
  (allow_dup = false -> distinct_keys raw) ->
  runs_to (parse_tokens fuel max_depth allow_dup) la
    (fun v => v = merge raw) [].
Proof.
  intros Hs Hfin Hc Hfit Hdk. unfold parse_tokens.
  destruct (tokens_of raw) as [|s ss] eqn:Et.
  { destruct raw; discriminate Et. }
  pose proof (proj2 (tokens_of_container raw s ss Et) Hc) as Hk.
  destruct (la_sigs_cons la s ss Hs) as (t & ts & Ht & Hsig & Hss).
  destruct (peek_cons la t ts Ht) as (la1 & E1 & Ht1 & Hf1).
  rewrite <- Hsig in Hk. cbn [tok_sig fst] in Hk.
  assert (Hs1 : la_sigs la1 = tokens_of raw ++ []).
  { unfold la_sigs. rewrite Ht1, app_nil_r, Et. cbn [map]. congruence. }
  assert (Hrun : runs_to
            (result <- _parse_value fuel 0 max_depth allow_dup ;;
             fun la0 =>
               match la_next la0 with
               | Raise StopIteration => Some (Return (result, la0))
               | Raise e => Some (Raise e)
               | Return (tok, _) =>
                   Some (Raise (SyntaxError (ExtraData (tok_offset tok))))
               end)
            la1 (fun v => v = merge raw) []).
  { eapply runs_bind.
    - exact (value_runs_all max_depth allow_dup raw fuel 0%Z la1 [] Hs1
               Hfit Hdk).
    - intros v la2 -> Hs2 Hf2 r Hr.
      assert (Ht2 : la_tokens la2 = []).
      { unfold la_sigs in Hs2. now destruct (la_tokens la2). }
      rewrite (la_next_nil la2 Ht2) in Hr.
      replace (la_finish la2) with (@None exn) in Hr by congruence.
      injection Hr as <-. exists (merge raw), la2.
      repeat split; [assumption|]. now exists []. }
  intros r Hr.
  rewrite (bind_return _ _ (lift peek) _ la t la1) in Hr
    by (unfold lift; now rewrite E1).
  rewrite Hk in Hr. cbn [negb] in Hr.
  destruct (Hrun r Hr) as (a & la2 & -> & -> & Hs2 & Hf2 & u & Hu).
  exists (merge raw), la2. repeat split; [assumption | congruence |].
  exists u. now rewrite Ht, <- Ht1.
Qed.

(** What [parse] returns from its tokens is the value of a container
    that the tokens spell. *)
Lemma parse_tokens_reads fuel la v la1 :
  typed la ->
  parse_tokens fuel max_depth allow_dup la = Some (Return (v, la1)) ->
  exists raw,
    la_sigs la = tokens_of raw /\ is_container raw /\
    fits max_depth 0 raw /\ (allow_dup = false -> distinct_keys raw) /\
    v = merge raw.
Proof.
  intros Hty H. unfold parse_tokens in H. apply bind_inv in H.
  destruct H as (first & la0 & Hp & H).
  assert (Hp' : or_end_of_input (lift peek) la = Some (Return (first, la0)))
    by (unfold or_end_of_input; now rewrite Hp).
  apply (peek_read la first la0 Hty) in Hp'.
  destruct Hp' as (Hty0 & Hs0 & ss & Hs).
  destruct (kind_eqb (tok_kind first) BRACE
            || kind_eqb (tok_kind first) BRACKET) eqn:Hk; cbn [negb] in H.
  - apply bind_inv in H. destruct H as (x & la2 & Hv & H).
    destruct (parser_reads max_depth allow_dup fuel) as (Hread & _).
    destruct (Hread _ _ _ _ Hty0 Hv) as (Hty2 & raw & Hs2 & -> & Hfit & Hdk).
    assert (Ht2 : la_tokens la2 = []).
    { destruct (la_tokens la2) as [|t2 ts2] eqn:Et2; [reflexivity|].
      destruct (la_next_cons la2 t2 ts2 Et2) as (la3 & E3 & _).
      rewrite E3 in H. discriminate H. }
    assert (Hs2' : la_sigs la = tokens_of raw).
    { rewrite <- Hs0, Hs2. unfold la_sigs. rewrite Ht2. apply app_nil_r. }
    exists raw. repeat split; try assumption.
    + rewrite Hs in Hs2'. symmetry in Hs2'.
      apply (tokens_of_container raw _ _ Hs2'). exact Hk.
    + destruct (la_next la2) as [[tok la3]|e]; [discriminate|].
      destruct e; try discriminate. now injection H as <- _.
  - apply bind_inv in H. destruct H as (again & la2 & _ & H). discriminate H.
Qed.

End ParseGrammar.

Lemma parse_grammar udb max_depth allow_dup t v :
  parse udb max_depth allow_dup t = Some (Return v) <->
  finish (lex udb t) = None /\
  exists raw,
    map tok_sig (yields (lex udb t)) = tokens_of raw /\
    is_container raw /\ fits max_depth 0 raw /\
    (allow_dup = false -> distinct_keys raw) /\
    v = merge raw.
Proof.
  split.
  - intros H. split; [apply (parse_spec _ _ _ _ _ H)|].
    unfold parse in H.
    destruct (parse_tokens (parse_fuel (lex udb t)) max_depth allow_dup
                (LookAhead_init (lex udb t))) as [[[v0 la1]|e]|] eqn:E;
      try discriminate.
    injection H as <-.
    exact (parse_tokens_reads max_depth allow_dup _
             (LookAhead_init (lex udb t)) _ _ (lex_tokens_typed udb t) E).
  - intros (Hfin & raw & Hs & Hc & Hfit & Hdk & ->). unfold parse.
    destruct (parse_tokens_terminates max_depth allow_dup (lex udb t)
                (LookAhead_init (lex udb t)) (Nat.le_refl _))
      as (r & Hr & _).
    rewrite Hr.
    destruct (parse_tokens_runs max_depth allow_dup _
                (LookAhead_init (lex udb t)) raw Hs Hfin Hc Hfit Hdk r Hr)
      as (a & la1 & -> & -> & _). reflexivity.
Qed.

(** X11. The grammar of [parse]. [parse] returns a value exactly when
    [lex] reads the text to its end without an error and the tokens, taken
    without their offsets, spell a tree: a container, with no value under
    more than [max_depth] containers and, unless duplicate keys are
    allowed, no key twice in an object. The value returned is that of the
    tree, the members of an object put into the dict in their order. *)
Theorem parse_accepts_the_grammar : forall udb max_depth allow_dup t v,
  parse udb max_depth allow_dup t = Some (Return v) <->
  finish (lex udb t) = None /\
  exists raw,
    map tok_sig (yields (lex udb t)) = tokens_of raw /\
    is_container raw /\ fits max_depth 0 raw /\
    (allow_dup = false -> distinct_keys raw) /\
    v = merge raw.
Proof. exact parse_grammar. Qed.

(** X12. When duplicate keys are not allowed, the value that [parse]
    returns spells the tokens of the text: [parse] returns [v] exactly when
    [lex] reads the text to its end without an error and the tokens, taken
    without their offsets, are those of [v], a container with no value
    under more than [max_depth] containers and no key twice in a dict. *)
Theorem parse_without_duplicates : forall udb max_depth t v,
  parse udb max_depth false t = Some (Return v) <->
  finish (lex udb t) = None /\
  map tok_sig (yields (lex udb t)) = tokens_of v /\
  is_container v /\ fits max_depth 0 v /\ distinct_keys v.
Proof.
  intros udb max_depth t v. rewrite parse_grammar. split.
  - intros (Hfin & raw & Hs & Hc & Hfit & Hdk & ->).
    rewrite (merge_distinct raw (Hdk eq_refl)).
    exact (conj Hfin (conj Hs (conj Hc (conj Hfit (Hdk eq_refl))))).
  - intros (Hfin & Hs & Hc & Hfit & Hdk). split; [exact Hfin|].
    exists v.
    exact (conj Hs (conj Hc (conj Hfit
             (conj (fun _ => Hdk) (eq_sym (merge_distinct v Hdk)))))).
Qed.

Lemma parse_accepts_the_grammar_witness :
  parse ascii_only 19 true (jtext "{'a':1,'a':[]}")
  = Some (Return (PyDict [(text_of "a", PyList [])])).
Proof.
  apply (proj2 (parse_accepts_the_grammar ascii_only 19 true
                  (jtext "{'a':1,'a':[]}")
                  (PyDict [(text_of "a", PyList [])]))).
  split; [reflexivity|].
  exists (PyDict [(text_of "a", PyInt 1); (text_of "a", PyList [])]).
  split; [reflexivity|]. split; [exact I|]. split.
  - cbn. repeat split; discriminate.
  - split; [discriminate | reflexivity].
Defined.

Lemma parse_without_duplicates_witness :
  finish (lex ascii_only (jtext "[1, {'b': null}]")) = None /\
  map tok_sig (yields (lex ascii_only (jtext "[1, {'b': null}]")))
  = tokens_of (PyList [PyInt 1; PyDict [(text_of "b", PyNone)]]) /\
  is_container (PyList [PyInt 1; PyDict [(text_of "b", PyNone)]]) /\
  fits 19 0 (PyList [PyInt 1; PyDict [(text_of "b", PyNone)]]) /\
  distinct_keys (PyList [PyInt 1; PyDict [(text_of "b", PyNone)]]).
Proof.
  apply (proj1 (parse_without_duplicates ascii_only 19
                  (jtext "[1, {'b': null}]")
                  (PyList [PyInt 1; PyDict [(text_of "b", PyNone)]]))).
  reflexivity.
Defined.

(** ** A token after the root value *)

Lemma app_eq_length (A : Type) : forall (l1 l1' l2 l2' : list A),
  l1 ++ l2 = l1' ++ l2' -> length l2 = length l2' -> l2 = l2'.
Proof.
  induction l1 as [|x l1 IH]; intros l1' l2 l2' H Hlen.
  - destruct l1' as [|y l1']; [exact H|].
    apply (f_equal (@length A)) in H. cbn [app length] in H.
    rewrite length_app in H. lia.
  - destruct l1' as [|y l1'].
    + apply (f_equal (@length A)) in H. cbn [app length] in H.
      rewrite length_app in H. lia.
    + cbn [app] in H. injection H as _ H. now apply (IH l1').
Qed.

Lemma parse_tokens_extra max_depth allow_dup fuel la raw toks tok more :
  la_tokens la = toks ++ tok :: more ->
  map tok_sig toks = tokens_of raw ->
  is_container raw -> fits max_depth 0 raw ->
  (allow_dup = false -> distinct_keys raw) ->
  forall r,
    parse_tokens fuel max_depth allow_dup la = Some r ->
    r = Raise (SyntaxError (ExtraData (tok_offset tok))).
Proof.
  intros Hla Htoks Hc Hfit Hdk r. unfold parse_tokens.
  assert (Hs : la_sigs la =
               tokens_of raw ++ tok_sig tok :: map tok_sig more).
  { unfold la_sigs. now rewrite Hla, map_app, Htoks. }
  destruct (tokens_of raw) as [|s ss] eqn:Et.
  { destruct raw; discriminate Et. }
  pose proof (proj2 (tokens_of_container raw s ss Et) Hc) as Hk.
  destruct (la_sigs_cons la s _ Hs) as (t & ts & Ht & Hsig & Hss).
  destruct (peek_cons la t ts Ht) as (la1 & E1 & Ht1 & Hf1).
  rewrite (bind_return _ _ (lift peek) _ la t la1)
    by (unfold lift; now rewrite E1).
  rewrite <- Hsig in Hk. cbn [tok_sig fst] in Hk. rewrite Hk. cbn [negb].
  assert (Hs1 : la_sigs la1 =
                tokens_of raw ++ tok_sig tok :: map tok_sig more).
  { unfold la_sigs in *. rewrite Ht1, <- Ht, Et. exact Hs. }
  unfold bind.
  destruct (_parse_value fuel 0 max_depth allow_dup la1) as [r1|] eqn:Ev;
    [|discriminate].
  destruct (value_runs_all max_depth allow_dup raw fuel 0%Z la1 _ Hs1
              Hfit Hdk r1 Ev) as (v & la2 & -> & _ & Hs2 & _ & u & Hu).
  assert (Ht2 : la_tokens la2 = tok :: more).
  { apply (app_eq_length _ u toks).
    - now rewrite <- Hu, Ht1, <- Ht.
    - apply (f_equal (@length _)) in Hs2. unfold la_sigs in Hs2.
      rewrite length_map in Hs2. cbn [length] in *.
      now rewrite length_map in Hs2. }
  destruct (la_next_cons la2 tok more Ht2) as (la3 & E3 & _).
  rewrite E3. intros H. now injection H as <-.
Qed.

(** X13. A token after the root value is reported where it stands.
    When the first tokens of the text, without their offsets, spell a
    container that [parse] accepts and one more token follows, [parse]
    raises the error of extra data with the offset of that token, whatever
    comes after it, be it an error of [lex]. *)
Theorem extra_token_is_reported :
  forall udb max_depth allow_dup t raw toks tok more,
    yields (lex udb t) = toks ++ tok :: more ->
    map tok_sig toks = tokens_of raw ->
    is_container raw -> fits max_depth 0 raw ->
    (allow_dup = false -> distinct_keys raw) ->
    parse udb max_depth allow_dup t
    = Some (Raise (SyntaxError (ExtraData (tok_offset tok)))).
Proof.
  intros udb max_depth allow_dup t raw toks tok more Hy Hs Hc Hfit Hdk.
  unfold parse.
  destruct (parse_tokens_terminates max_depth allow_dup (lex udb t)
              (LookAhead_init (lex udb t)) (Nat.le_refl _))
    as (r & Hr & _).
  rewrite Hr.
  rewrite (parse_tokens_extra max_depth allow_dup _
             (LookAhead_init (lex udb t)) raw toks tok more Hy Hs Hc Hfit
             Hdk r Hr).
  reflexivity.
Qed.

Lemma extra_token_is_reported_witness :
  parse ascii_only 19 false (jtext "[1] 2 '")
  = Some (Raise (SyntaxError (ExtraData 4))).
Proof.
  apply (extra_token_is_reported ascii_only 19 false (jtext "[1] 2 '")
           (PyList [PyInt 1])
           [ {| tok_kind := BRACKET; tok_value := PyStr (text_of "[");
                tok_offset := 0 |};
             {| tok_kind := NUMBER; tok_value := PyInt 1; tok_offset := 1 |};
             {| tok_kind := BRACKET; tok_value := PyStr (text_of "]");
                tok_offset := 2 |} ]
           {| tok_kind := NUMBER; tok_value := PyInt 2; tok_offset := 4 |}
           []).
  - reflexivity.
  - reflexivity.
  - exact I.
  - cbn. repeat split; discriminate.
  - intros _. cbn. auto.
Defined.

(** ** A text that stops too early *)

Lemma out_bind_l A B (m : M A) (f : A -> M B) la :
  runs_out m la -> runs_out (bind m f) la.
Proof.
  intros Hm r. unfold bind. destruct (m la) as [r1|] eqn:E; [|discriminate].
  rewrite (Hm r1 E). intros H. now injection H as <-.
Qed.

Lemma out_bind_r A B (m : M A) (f : A -> M B) la Q s1 :
  runs_to m la Q s1 ->
  (forall a la1,
     Q a -> la_sigs la1 = s1 -> la_finish la1 = la_finish la ->
     runs_out (f a) la1) ->
  runs_out (bind m f) la.
Proof.
  intros Hm Hf r. unfold bind.
  destruct (m la) as [r1|] eqn:E; [|discriminate].
  destruct (Hm r1 E) as (a & la1 & -> & Hq & Hs & Hfin & _).
  exact (Hf a la1 Hq Hs Hfin r).
Qed.

Lemma la_sigs_nil la : la_sigs la = [] -> la_tokens la = [].
Proof. unfold la_sigs. now destruct (la_tokens la). Qed.

Lemma out_next la :
  la_sigs la = [] -> la_finish la = None ->
  runs_out (or_end_of_input (lift la_next)) la.
Proof.
  intros Hs Hf r. apply la_sigs_nil in Hs.
  unfold or_end_of_input, lift. rewrite (la_next_nil la Hs), Hf.
  intros H. now injection H as <-.
Qed.

Lemma out_peek la :
  la_sigs la = [] -> la_finish la = None ->
  runs_out (or_end_of_input (lift peek)) la.
Proof.
  intros Hs Hf r. apply la_sigs_nil in Hs.
  unfold or_end_of_input, lift. rewrite (peek_nil la Hs), Hf.
  intros H. now injection H as <-.
Qed.

Lemma out_expect la k ev :
  la_sigs la = [] -> la_finish la = None -> runs_out (_expect k ev) la.
Proof. intros Hs Hf. unfold _expect. now apply out_bind_l, out_next. Qed.

(** Two ways to write a list as a concatenation: one of the first
    parts is a part of the other. *)
Lemma prefix_split (A : Type) : forall (p q a b : list A),
  p ++ q = a ++ b ->
  (exists a2, a2 <> [] /\ a = p ++ a2) \/
  (exists p2, p = a ++ p2 /\ b = p2 ++ q).
Proof.
  induction p as [|x p IH]; intros q a b H.
  - destruct a as [|y a].
    + right. exists []. now split.
    + left. exists (y :: a). split; [discriminate | reflexivity].
  - destruct a as [|y a].
    + right. exists (x :: p). split; [reflexivity | now symmetry].
    + cbn [app] in H. injection H as -> H.
      destruct (IH q a b H) as [(a2 & Hne & ->)|(p2 & -> & ->)].
      * left. exists a2. now split.
      * right. exists p2. now split.
Qed.

Section Truncated.

Variables (max_depth : Z) (allow_dup : bool).

Let value_short (raw : pyval) : Prop :=
  forall fuel d la q,
    q <> [] -> la_sigs la ++ q = tokens_of raw -> la_finish la = None ->
    fits max_depth d raw ->
    (allow_dup = false -> distinct_keys raw) ->
    runs_out (_parse_value fuel d max_depth allow_dup) la.

Let member (kv : text * pyval) : list (kind * pyval) :=
  let (k, x) := kv in member_tokens k (tokens_of x).

Lemma scalar_short raw k : kind_of raw = Some k -> value_short raw.
Proof.
  intros Hk fuel d la q Hq Hs Hf Hfit _.
  destruct fuel as [|fuel]; [intros r H; discriminate|].
  rewrite _parse_value_eq, (gtb_false _ _ (fits_depth _ _ _ Hfit)).
  apply out_bind_l, out_next; [|exact Hf].
  assert (Ht : tokens_of raw = [(k, raw)])
    by (destruct raw; cbn in Hk; try discriminate; now injection Hk as <-).
  rewrite Ht in Hs. destruct (la_sigs la) as [|s p]; [reflexivity|].
  cbn [app] in Hs. injection Hs as _ Hs.
  apply app_eq_nil in Hs. destruct Hs as [_ ->]. contradiction.
Qed.

(** After an element or a member, when the text stops before the
    container is closed. *)
Lemma array_loop_short : forall xs,
  Forall value_short xs -> xs <> [] ->
  forall fuel d items la q,
    q <> [] ->
    la_sigs la ++ q = join (map tokens_of xs) ++ [punct BRACKET "]"] ->
    la_finish la = None ->
    Forall (fits max_depth d) xs ->
    (allow_dup = false -> Forall distinct_keys xs) ->
    runs_out (array_loop fuel d max_depth allow_dup items) la.
Proof.
  induction xs as [|x xs IH];
    intros HP Hne fuel d items la q Hq Hs Hf Hfit Hdk; [contradiction|].
  destruct fuel as [|fuel]; [intros r H; discriminate|].
  rewrite array_loop_eq.
  apply Forall_cons_iff in HP. destruct HP as [Hx HP].
  apply Forall_cons_iff in Hfit. destruct Hfit as [Hfx Hfit].
  assert (Hdx : allow_dup = false -> distinct_keys x)
    by (intros Ha; exact (Forall_inv (Hdk Ha))).
  assert (Hdk' : allow_dup = false -> Forall distinct_keys xs)
    by (intros Ha; exact (Forall_inv_tail (Hdk Ha))).
  assert (Htail : exists tail,
            la_sigs la ++ q = tokens_of x ++ tail /\
            ((xs = [] /\ tail = [punct BRACKET "]"]) \/
             (xs <> [] /\
              tail = punct COMMA "," ::
                     join (map tokens_of xs) ++ [punct BRACKET "]"]))).
  { rewrite Hs. destruct xs as [|x2 xs].
    - eexists. split; [|left; split; reflexivity]. reflexivity.
    - eexists. split; [|right; split; [discriminate | reflexivity]].
      rewrite map_cons, join_cons by discriminate.
      rewrite <- app_assoc. reflexivity. }
  destruct Htail as (tail & Hs' & Htail).
  destruct (prefix_split _ _ _ _ _ Hs') as [(a2 & Ha2 & Hx2)|(p2 & Hp2 & Ht)].
  - apply out_bind_l. apply (Hx fuel d la a2 Ha2); auto.
  - eapply out_bind_r; [exact (value_runs_all max_depth allow_dup x fuel d la
                                 p2 Hp2 Hfx Hdx)|].
    intros v la1 -> Hs1 Hf1.
    destruct p2 as [|s p3].
    { apply out_bind_l, out_peek; congruence. }
    destruct Htail as [[-> ->]|[Hne' ->]].
    { cbn [app] in Ht. injection Ht as _ Ht. symmetry in Ht.
      apply app_eq_nil in Ht. destruct Ht as [_ ->]. contradiction. }
    cbn [app] in Ht. injection Ht as <- Ht.
    eapply out_bind_r; [exact (runs_peek la1 _ _ Hs1)|].
    intros pk la2 Hpk Hs2 Hf2.
    rewrite (tok_is_other pk BRACKET "]")
      by (rewrite Hpk; intros H; cbv in H; discriminate H).
    eapply out_bind_r.
    { apply (runs_expect la2 COMMA (PyStr (text_of ",")) _
               (Some (text_of ","))); [exact Hs2 | reflexivity]. }
    intros u la3 _ Hs3 Hf3.
    apply (IH HP Hne' fuel d (items ++ [merge x]) la3 q Hq); auto;
      congruence.
Qed.

Lemma array_short items :
  Forall value_short items ->
  forall fuel d la q,
    q <> [] ->
    la_sigs la ++ q = join (map tokens_of items) ++ [punct BRACKET "]"] ->
    la_finish la = None ->
    Forall (fits max_depth d) items ->
    (allow_dup = false -> Forall distinct_keys items) ->
    runs_out (_parse_array fuel d max_depth allow_dup) la.
Proof.
  intros HP fuel d la q Hq Hs Hf Hfit Hdk.
  destruct fuel as [|fuel]; [intros r H; discriminate|].
  rewrite _parse_array_eq.
  destruct (la_sigs la) as [|s p] eqn:Ep.
  { now apply out_bind_l, out_peek. }
  destruct items as [|x xs].
  { cbn [map join app] in Hs. injection Hs as _ Hs.
    apply app_eq_nil in Hs. destruct Hs as [_ ->]. contradiction. }
  destruct (tokens_of_head x) as (s0 & ss & Hh & Hn1 & Hn2).
  assert (Hs0 : s = s0).
  { cbn [map] in Hs. destruct xs as [|x2 xs].
    - cbn [map join] in Hs. rewrite Hh in Hs. cbn [app] in Hs.
      now injection Hs.
    - rewrite join_cons in Hs by discriminate. rewrite Hh in Hs.
      cbn [app] in Hs. now injection Hs. }
  eapply out_bind_r; [exact (runs_peek la _ _ Ep)|].
  intros pk la1 Hpk Hs1 Hf1.
  rewrite (tok_is_other pk BRACKET "]") by (rewrite Hpk; congruence).
  apply (array_loop_short (x :: xs) HP ltac:(discriminate) fuel d [] la1 q
           Hq); auto; congruence.
Qed.

Lemma object_loop_short : forall entries,
  Forall (fun kv : text * pyval => value_short (snd kv)) entries ->
  entries <> [] ->
  forall fuel d obj la q,
    q <> [] ->
    la_sigs la ++ q = join (map member entries) ++ [punct BRACE "}"] ->
    la_finish la = None ->
    Forall (fun kv : text * pyval => fits max_depth d (snd kv)) entries ->
    (allow_dup = false ->
     NoDup (map fst obj ++ map fst entries) /\
     Forall (fun kv : text * pyval => distinct_keys (snd kv)) entries) ->
    runs_out (object_loop fuel d max_depth allow_dup obj) la.
Proof.
  induction entries as [|[k x] entries IH];
    intros HP Hne fuel d obj la q Hq Hs Hf Hfit Hdk; [contradiction|].
  destruct fuel as [|fuel]; [intros r H; discriminate|].
  rewrite object_loop_eq.
  apply Forall_cons_iff in HP. destruct HP as [Hx HP]. cbn [snd] in Hx.
  apply Forall_cons_iff in Hfit. destruct Hfit as [Hfx Hfit].
  cbn [snd] in Hfx.
  assert (Hdx : allow_dup = false -> distinct_keys x)
    by (intros Ha; exact (Forall_inv (proj2 (Hdk Ha)))).
  assert (Hdup : negb allow_dup && dict_has k obj = false).
  { destruct allow_dup; [reflexivity|]. cbn [negb andb].
    destruct (dict_has k obj) eqn:E; [|reflexivity].
    apply dict_has_In in E. destruct (Hdk eq_refl) as [Hnd _].
    cbn [map fst] in Hnd. apply NoDup_remove_2 in Hnd.
    exfalso. apply Hnd. apply in_or_app. now left. }
  assert (Htail : exists tail,
            la_sigs la ++ q =
            (STRING, PyStr k) :: punct COLON ":" :: tokens_of x ++ tail /\
            ((entries = [] /\ tail = [punct BRACE "}"]) \/
             (entries <> [] /\
              tail = punct COMMA "," ::
                     join (map member entries) ++ [punct BRACE "}"]))).
  { rewrite Hs. destruct entries as [|kv entries].
    - eexists. split; [|left; split; reflexivity].
      cbn [map join]. unfold member. cbn [member_tokens app].
      rewrite <- ?app_assoc. reflexivity.
    - eexists. split; [|right; split; [discriminate | reflexivity]].
      rewrite map_cons, join_cons by discriminate.
      unfold member at 1. cbn [member_tokens app].
      rewrite <- ?app_assoc. reflexivity. }
  destruct Htail as (tail & Hs' & Htail).
  destruct (la_sigs la) as [|s1 p1] eqn:Ep.
  { now apply out_bind_l, out_expect. }
  cbn [app] in Hs'. injection Hs' as -> Hs'.
  eapply out_bind_r.
  { apply (runs_expect la STRING (PyStr k) _ None); [exact Ep | exact I]. }
  intros key la1 -> Hs1 Hf1.
  destruct p1 as [|s2 p2].
  { apply out_bind_l, out_expect; congruence. }
  cbn [app] in Hs'. injection Hs' as -> Hs'.
  eapply out_bind_r.
  { apply (runs_expect la1 COLON (PyStr (text_of ":")) _
             (Some (text_of ":"))); [exact Hs1 | reflexivity]. }
  intros u la2 _ Hs2 Hf2. cbv beta iota. rewrite Hdup.
  rewrite <- Hs2 in Hs'.
  destruct (prefix_split _ _ _ _ _ Hs') as [(a2 & Ha2 & Hx2)|(p3 & Hp3 & Ht)].
  - apply out_bind_l. apply (Hx fuel d la2 a2 Ha2); auto. congruence.
  - eapply out_bind_r; [exact (value_runs_all max_depth allow_dup x fuel d la2
                                 p3 Hp3 Hfx Hdx)|].
    intros v la3 -> Hs3 Hf3.
    destruct p3 as [|s p4].
    { apply out_bind_l, out_peek; congruence. }
    destruct Htail as [[-> ->]|[Hne' ->]].
    { cbn [app] in Ht. injection Ht as _ Ht. symmetry in Ht.
      apply app_eq_nil in Ht. destruct Ht as [_ ->]. contradiction. }
    cbn [app] in Ht. injection Ht as <- Ht.
    eapply out_bind_r; [exact (runs_peek la3 _ _ Hs3)|].
    intros pk la4 Hpk Hs4 Hf4.
    rewrite (tok_is_other pk BRACE "}")
      by (rewrite Hpk; intros H; cbv in H; discriminate H).
    eapply out_bind_r.
    { apply (runs_expect la4 COMMA (PyStr (text_of ",")) _
               (Some (text_of ","))); [exact Hs4 | reflexivity]. }
    intros u2 la5 _ Hs5 Hf5.
    apply (IH HP Hne' fuel d (dict_set k (merge x) obj) la5 q Hq);
      [congruence | congruence | exact Hfit |].
    intros Ha. destruct (Hdk Ha) as [Hnd Hdv]. split.
    + cbn [map fst] in Hnd.
      rewrite dict_set_fresh.
      * rewrite map_app, <- app_assoc. exact Hnd.
      * apply NoDup_remove_2 in Hnd. intros Hin. apply Hnd.
        apply in_or_app. now left.
    + exact (Forall_inv_tail Hdv).
Qed.

Lemma object_short entries :
  Forall (fun kv : text * pyval => value_short (snd kv)) entries ->
  forall fuel d la q,
    q <> [] ->
    la_sigs la ++ q = join (map member entries) ++ [punct BRACE "}"] ->
    la_finish la = None ->
    Forall (fun kv : text * pyval => fits max_depth d (snd kv)) entries ->
    (allow_dup = false ->
     NoDup (map fst entries) /\
     Forall (fun kv : text * pyval => distinct_keys (snd kv)) entries) ->
    runs_out (_parse_object fuel d max_depth allow_dup) la.
Proof.
  intros HP fuel d la q Hq Hs Hf Hfit Hdk.
  destruct fuel as [|fuel]; [intros r H; discriminate|].
  rewrite _parse_object_eq.
  destruct (la_sigs la) as [|s p] eqn:Ep.
  { now apply out_bind_l, out_peek. }
  destruct entries as [|[k x] entries].
  { cbn [map join app] in Hs. injection Hs as _ Hs.
    apply app_eq_nil in Hs. destruct Hs as [_ ->]. contradiction. }
  assert (Hs0 : s = (STRING, PyStr k)).
  { destruct entries as [|kv entries].
    - cbn [map join] in Hs. unfold member in Hs.
      cbn [member_tokens app] in Hs. now injection Hs.
    - rewrite map_cons, join_cons in Hs by discriminate.
      unfold member at 1 in Hs. cbn [member_tokens app] in Hs.
      now injection Hs. }
  eapply out_bind_r; [exact (runs_peek la _ _ Ep)|].
  intros pk la1 Hpk Hs1 Hf1.
  rewrite (tok_is_other pk BRACE "}")
    by (rewrite Hpk, Hs0; intros H; cbv in H; discriminate H).
  apply (object_loop_short ((k, x) :: entries) HP ltac:(discriminate)
           fuel d [] la1 q Hq); auto; congruence.
Qed.

(** The tokens of a tree that stop before its end, in a generator that
    ends normally: the end of the input is reported. *)
Lemma value_short_all : forall raw, value_short raw.
Proof.
  apply pyval_nested_ind.
  - intros s. now apply (scalar_short _ STRING).
  - intros z. now apply (scalar_short _ NUMBER).
  - intros s. now apply (scalar_short _ NUMBER).
  - intros b. now apply (scalar_short _ LITERAL).
  - now apply (scalar_short _ LITERAL).
  - intros items HP fuel d la q Hq Hs Hf Hfit Hdk.
    destruct fuel as [|fuel]; [intros r H; discriminate|].
    rewrite _parse_value_eq, (gtb_false _ _ (fits_depth _ _ _ Hfit)).
    destruct (la_sigs la) as [|s p] eqn:Ep.
    { now apply out_bind_l, out_next. }
    cbn [tokens_of app] in Hs. injection Hs as -> Hs.
    eapply out_bind_r; [exact (runs_next la _ _ Ep)|].
    intros t la1 Hsig Hs1 Hf1.
    pose proof (proj2 (tok_is_sig t BRACKET "[") Hsig) as Hopen.
    unfold tok_sig, punct in Hsig. injection Hsig as Hkt Hvt.
    rewrite Hkt, Hopen.
    rewrite (tok_is_other t BRACE "{")
      by (unfold tok_sig; rewrite Hkt; discriminate).
    apply fits_list in Hfit. destruct Hfit as [_ Hfit].
    apply (array_short items HP fuel (d + 1)%Z la1 q Hq);
      [congruence | congruence | exact Hfit |].
    intros Ha. apply distinct_keys_list. now apply Hdk.
  - intros entries HP fuel d la q Hq Hs Hf Hfit Hdk.
    destruct fuel as [|fuel]; [intros r H; discriminate|].
    rewrite _parse_value_eq, (gtb_false _ _ (fits_depth _ _ _ Hfit)).
    destruct (la_sigs la) as [|s p] eqn:Ep.
    { now apply out_bind_l, out_next. }
    cbn [tokens_of app] in Hs. injection Hs as -> Hs.
    eapply out_bind_r; [exact (runs_next la _ _ Ep)|].
    intros t la1 Hsig Hs1 Hf1.
    pose proof (proj2 (tok_is_sig t BRACE "{") Hsig) as Hopen.
    unfold tok_sig, punct in Hsig. injection Hsig as Hkt Hvt.
    rewrite Hkt, Hopen.
    apply fits_dict in Hfit. destruct Hfit as [_ Hfit].
    apply (object_short entries HP fuel (d + 1)%Z la1 q Hq);
      [rewrite Hs1; exact Hs | congruence | exact Hfit |].
    intros Ha. apply distinct_keys_dict. now apply Hdk.
Qed.

End Truncated.

Lemma parse_tokens_short max_depth allow_dup fuel la raw q :
  la_sigs la <> [] -> q <> [] -> la_sigs la ++ q = tokens_of raw ->
  la_finish la = None -> fits max_depth 0 raw ->
  (allow_dup = false -> distinct_keys raw) ->
  runs_out (parse_tokens fuel max_depth allow_dup) la.
Proof.
  intros Hne Hq Hs Hf Hfit Hdk. unfold parse_tokens.
  destruct (la_sigs la) as [|s p] eqn:Ep; [contradiction|].
  assert (Hc : is_container raw).
  { destruct raw; try exact I; cbn [tokens_of app] in Hs;
      injection Hs as _ Hs; apply app_eq_nil in Hs;
      destruct Hs as [_ ->]; contradiction. }
  cbn [app] in Hs. symmetry in Hs.
  pose proof (proj2 (tokens_of_container raw s _ Hs) Hc) as Hk.
  destruct (la_sigs_cons la s p Ep) as (t & ts & Ht & Hsig & Hss).
  destruct (peek_cons la t ts Ht) as (la1 & E1 & Ht1 & Hf1).
  assert (Hs1 : la_sigs la1 ++ q = tokens_of raw).
  { unfold la_sigs in *. rewrite Ht1, <- Ht, Ep. now symmetry. }
  intros r Hr.
  rewrite (bind_return _ _ (lift peek) _ la t la1) in Hr
    by (unfold lift; now rewrite E1).
  rewrite <- Hsig in Hk. cbn [tok_sig fst] in Hk.
  rewrite Hk in Hr. cbn [negb] in Hr. revert r Hr.
  apply out_bind_l.
  apply (value_short_all max_depth allow_dup raw fuel 0%Z la1 q Hq Hs1);
    [congruence | exact Hfit | exact Hdk].
Qed.

(** X14. A text that stops too early. When [lex] reads the text to its
    end without an error and its tokens, of which there is one at least,
    are the first tokens of a tree that [parse] accepts, one token or more
    of the tree being left out, [parse] raises the error of an unexpected
    end of input. *)
Theorem truncated_text_is_reported :
  forall udb max_depth allow_dup t raw q,
    finish (lex udb t) = None -> yields (lex udb t) <> [] -> q <> [] ->
    map tok_sig (yields (lex udb t)) ++ q = tokens_of raw ->
    fits max_depth 0 raw ->
    (allow_dup = false -> distinct_keys raw) ->
    parse udb max_depth allow_dup t
    = Some (Raise (SyntaxError UnexpectedEndOfInput)).
Proof.
  intros udb max_depth allow_dup t raw q Hfin Hne Hq Hs Hfit Hdk.
  unfold parse.
  destruct (parse_tokens_terminates max_depth allow_dup (lex udb t)
              (LookAhead_init (lex udb t)) (Nat.le_refl _))
    as (r & Hr & _).
  rewrite Hr.
  assert (Hne' : la_sigs (LookAhead_init (lex udb t)) <> []).
  { unfold la_sigs, la_tokens. cbn.
    destruct (yields (lex udb t)); [contradiction | discriminate]. }
  rewrite (parse_tokens_short max_depth allow_dup _
             (LookAhead_init (lex udb t)) raw q Hne' Hq Hs Hfin Hfit Hdk
             r Hr).
  reflexivity.
Qed.

Lemma truncated_text_is_reported_witness :
  parse ascii_only 19 false (jtext "{'a': [1,")
  = Some (Raise (SyntaxError UnexpectedEndOfInput)).
Proof.
  apply (truncated_text_is_reported ascii_only 19 false (jtext "{'a': [1,")
           (PyDict [(text_of "a", PyList [PyInt 1; PyNone])])
           [(LITERAL, PyNone); punct BRACKET "]"; punct BRACE "}"]).
  - reflexivity.
  - discriminate.
  - discriminate.
  - reflexivity.
  - cbn. repeat split; discriminate.
  - intros _. cbn. repeat split; try exact I.
    constructor; [intros [] | constructor].
Defined.

(** * A string that is not closed *)

Lemma parse_total udb max_depth allow_dup t :
  exists r, parse udb max_depth allow_dup t = Some r.
Proof.
  unfold parse.
  destruct (parse_tokens_terminates max_depth allow_dup (lex udb t)
              (LookAhead_init (lex udb t)) (Nat.le_refl _))
    as (r & Hr & _).
  rewrite Hr. destruct r as [[v la1]|e]; eexists; reflexivity.
Qed.

(** Before the first token, [parse] raises what [lex] ends with. *)
Lemma parse_first_error udb max_depth allow_dup t e :
  yields (lex udb t) = [] -> finish (lex udb t) = Some e ->
  parse udb max_depth allow_dup t = Some (Raise e).
Proof.
  unfold parse. destruct (lex udb t) as [ys f]. cbn [yields finish].
  intros -> ->. reflexivity.
Qed.




(** * The command line *)

Lemma existsb_In (A : Type) (f : A -> bool) l x :
  existsb f l = false -> In x l -> f x = false.
Proof.
  intros H Hin. destruct (f x) eqn:E; [|reflexivity].
  assert (Ht : existsb f l = true) by (apply existsb_exists; now exists x).
  congruence.
Qed.

(** X15. The exit codes of the command line. Without [--debug], on a
    text without surrogate code points (such is every text read from a file
    in UTF-8), the call ends in one of four ways: [parse] returns, the
    message of success is written to the standard output (the one of the
    stream mode when the file is larger than the threshold) and 0 is
    returned; [parse] raises a syntax error, its message is written to the
    standard error and 1 is returned; the text holds no token and no
    error, nothing is written and [StopIteration] leaves the call; or [lex]
    raises the [ValueError] of [int], on a text of more characters than
    640 and than the limit of an interpreter that has one, nothing is
    written and [ValueError] leaves the call. *)
Theorem cli_exit_codes : forall udb args fsize data,
  args_debug args = false ->
  existsb is_surrogate data = false ->
  exists run,
    _cli udb args fsize data = Some run /\
    ((outcome run = Return 0%Z /\
      (exists v,
         parse udb (args_max_depth args) (args_allow_dup_keys args) data
         = Some (Return v)) /\
      stdout run =
        [if (fsize >? args_streaming_threshold args)%Z
         then OkStreamLine else OkLine] /\
      stderr run = []) \/
     (exists e,
        outcome run = Return 1%Z /\
        parse udb (args_max_depth args) (args_allow_dup_keys args) data
        = Some (Raise (SyntaxError e)) /\
        stdout run = [] /\ stderr run = [ErrorLine e]) \/
     (outcome run = Raise StopIteration /\ lex udb data = gen_return /\
      stdout run = [] /\ stderr run = []) \/
     (outcome run = Raise ValueError /\
      finish (lex udb data) = Some ValueError /\
      int_max_str_digits udb <> 0 /\
      int_max_str_digits udb < length data /\ 640 < length data /\
      stdout run = [] /\ stderr run = [])).
Proof.
  intros udb args fsize data Hdebug Hsur. unfold _cli. rewrite Hdebug.
  destruct (parse_total udb (args_max_depth args) (args_allow_dup_keys args)
              data) as [r Hr].
  pose proof (parse_spec _ _ _ _ _ Hr) as Hspec. rewrite Hr.
  destruct r as [v|e].
  - eexists. split; [reflexivity|]. left. cbn. repeat split. now exists v.
  - destruct Hspec
      as [[-> Hlex]|[[se ->]|[(-> & c & Hc & Hs)|(-> & Hf & H0 & Hl & Hn)]]].
    + eexists. split; [reflexivity|]. right. right. left. now repeat split.
    + eexists. split; [reflexivity|]. right. left. exists se.
      now repeat split.
    + rewrite (existsb_In _ _ _ c Hsur Hc) in Hs. discriminate Hs.
    + eexists. split; [reflexivity|]. right. right. right. cbn.
      split; [reflexivity|]. split; [exact Hf|]. split; [exact H0|].
      split; [exact Hl|]. split; [exact Hn|]. split; reflexivity.
Qed.

Lemma cli_exit_codes_witness :
  exists run,
    _cli ascii_only
      {| args_debug := false; args_max_depth := 19;
         args_allow_dup_keys := false;
         args_streaming_threshold := STREAM_THRESH_DEFAULT |}
      2 (text_of " " ++ [newline]) = Some run /\
    outcome run = Raise StopIteration.
Proof.
  destruct (cli_exit_codes ascii_only
              {| args_debug := false; args_max_depth := 19;
                 args_allow_dup_keys := false;
                 args_streaming_threshold := STREAM_THRESH_DEFAULT |}
              2 (text_of " " ++ [newline]) eq_refl eq_refl)
    as (run & Hrun & H).
  exists run. split; [exact Hrun|].
  cbv in Hrun. injection Hrun as <-. reflexivity.
Defined.

(** * Compact texts are read back *)

(** ** Strings *)

Lemma div_mod_16 a :
  (a = 16 * (a / 16) + a mod 16 /\ a mod 16 < 16)%N.
Proof.
  split; [apply N.Div0.div_mod | now apply N.mod_upper_bound].
Qed.

Lemma hex_digit_char d : (d < 16)%N -> hex_digit (hex_char d) = Some d.
Proof.
  intros Hd. unfold hex_char, hex_digit.
  destruct (N.ltb_spec d 10) as [H|H].
  - replace ((48 <=? 48 + d) && (48 + d <=? 57))%N with true.
    + f_equal. lia.
    + symmetry. apply andb_true_iff. split; apply N.leb_le; lia.
  - replace ((48 <=? 87 + d) && (87 + d <=? 57))%N with false.
    + replace ((97 <=? 87 + d) && (87 + d <=? 102))%N with true.
      * f_equal. lia.
      * symmetry. apply andb_true_iff. split; apply N.leb_le; lia.
    + symmetry. apply andb_false_iff. right. apply N.leb_gt. lia.
Qed.

Lemma hex_char_range d : (d < 16)%N -> hex_range (hex_char d).
Proof.
  intros Hd. unfold hex_char, hex_range.
  destruct (N.ltb_spec d 10); lia.
Qed.

Lemma hex_sum (c q1 r1 q2 r2 q3 r3 : N) :
  (c < 65536 -> c = 16 * q1 + r1 -> q1 = 16 * q2 + r2 ->
   q2 = 16 * q3 + r3 -> r1 < 16 -> r2 < 16 -> r3 < 16 ->
   q3 < 16 /\ (((0 * 16 + q3) * 16 + r3) * 16 + r2) * 16 + r1 = c)%N.
Proof. lia. Qed.

(** The four ways a character is written. *)
Lemma escape_char_cases c :
  (c < 65536)%N ->
  (c = dquote /\ escape_char c = [backslash; dquote]) \/
  (c = backslash /\ escape_char c = [backslash; backslash]) \/
  (c <> dquote /\ c <> backslash /\ (32 <= c < 127)%N /\
   escape_char c = [c]) \/
  (exists h1 h2 h3 h4 : char,
     escape_char c = [backslash; ord "u"; h1; h2; h3; h4] /\
     hex_value [h1; h2; h3; h4] 0 = Some c /\
     Forall hex_range [h1; h2; h3; h4]).
Proof.
  intros Hc. unfold escape_char.
  destruct (N.eqb_spec c dquote) as [->|Hq]; [now left|].
  destruct (N.eqb_spec c backslash) as [->|Hb]; [right; now left|].
  destruct ((32 <=? c) && (c <? 127))%N eqn:Hp.
  - right. right. left. apply andb_true_iff in Hp. destruct Hp as [H1 H2].
    apply N.leb_le in H1. apply N.ltb_lt in H2. now repeat split.
  - right. right. right.
    destruct (div_mod_16 c) as [E1 B1].
    destruct (div_mod_16 (c / 16)) as [E2 B2].
    destruct (div_mod_16 (c / 16 / 16)) as [E3 B3].
    destruct (div_mod_16 (c / 16 / 16 / 16)) as [_ B4].
    destruct (hex_sum c _ _ _ _ _ _ Hc E1 E2 E3 B1 B2 B3) as [B5 Hsum].
    do 4 eexists. split; [reflexivity|]. split.
    + cbn [hex_value]. rewrite !hex_digit_char by assumption.
      now rewrite Hsum.
    + repeat (apply Forall_cons; [apply hex_char_range; assumption|]).
      apply Forall_nil.
Qed.

Lemma hex_range_digit h : hex_range h ->
  N.eqb h dquote = false /\ N.eqb h backslash = false /\
  (h <? 32)%N = false /\ (h < 128)%N.
Proof.
  unfold hex_range. intros H. cbv [dquote backslash].
  split; [apply N.eqb_neq; lia|].
  split; [apply N.eqb_neq; lia|]. split; [apply N.ltb_ge; lia | lia].
Qed.

Section Strings.

Variable udb : UnicodeData.

Lemma escape_ascii s :
  str_ok s -> Forall (fun c => (c < 128)%N) (flat_map escape_char s).
Proof.
  induction 1 as [|c s [Hc _] _ IH]; [constructor|].
  cbn [flat_map]. apply Forall_app. split; [|exact IH].
  destruct (escape_char_cases c Hc)
    as [[-> ->]|[[-> ->]|[(_ & _ & Hr & ->)|(h1 & h2 & h3 & h4 & -> & _ & Hh)]]].
  - repeat constructor.
  - repeat constructor.
  - repeat constructor. lia.
  - repeat constructor;
      repeat (apply Forall_cons_iff in Hh; destruct Hh as [? Hh]);
      unfold hex_range in *; lia.
Qed.

Lemma escape_solidus s :
  str_ok s -> escapes_solidus (flat_map escape_char s) = false.
Proof.
  induction 1 as [|c s [Hc _] _ IH]; [reflexivity|].
  cbn [flat_map].
  destruct (escape_char_cases c Hc)
    as [[-> ->]|[[-> ->]|[(Hq & Hb & Hr & ->)|(h1 & h2 & h3 & h4 & -> & _ & Hh)]]].
  - exact IH.
  - exact IH.
  - cbn [app escapes_solidus].
    now rewrite (proj2 (N.eqb_neq c backslash) Hb).
  - repeat (apply Forall_cons_iff in Hh; destruct Hh as [? Hh]).
    cbn [app escapes_solidus].
    change (N.eqb backslash backslash) with true. cbv iota.
    change (N.eqb (ord "u") 47) with false. cbn [orb].
    repeat match goal with
           | Hr : hex_range ?h |- context [N.eqb ?h backslash] =>
               rewrite (proj1 (proj2 (hex_range_digit h Hr))); clear Hr
           end.
    exact IH.
Qed.

Lemma escape_unescape s :
  str_ok s -> json_unescape (flat_map escape_char s) = Some s.
Proof.
  induction 1 as [|c s [Hc _] _ IH]; [reflexivity|].
  cbn [flat_map].
  destruct (escape_char_cases c Hc)
    as [[-> ->]|[[-> ->]|[(Hq & Hb & Hr & ->)|(h1 & h2 & h3 & h4 & -> & Hv & _)]]].
  - cbn [app json_unescape]. change (N.eqb backslash backslash) with true.
    cbv iota. change (N.eqb dquote (ord "u")) with false. cbv iota.
    change (short_escape_char dquote) with (Some dquote). now rewrite IH.
  - cbn [app json_unescape]. change (N.eqb backslash backslash) with true.
    cbv iota. change (N.eqb backslash (ord "u")) with false. cbv iota.
    change (short_escape_char backslash) with (Some backslash).
    now rewrite IH.
  - cbn [app json_unescape].
    now rewrite (proj2 (N.eqb_neq c backslash) Hb), IH.
  - cbn [app json_unescape]. change (N.eqb backslash backslash) with true.
    cbv iota. change (N.eqb (ord "u") (ord "u")) with true. cbv iota.
    now rewrite Hv, IH.
Qed.

Lemma escape_body s x :
  str_ok s ->
  string_body (flat_map escape_char s ++ dquote :: x) =
  Some (flat_map escape_char s ++ [dquote], x).
Proof.
  induction 1 as [|c s [Hc _] _ IH]; [reflexivity|].
  cbn [flat_map]. rewrite <- !app_assoc.
  destruct (escape_char_cases c Hc)
    as [[-> ->]|[[-> ->]|[(Hq & Hb & Hr & ->)|(h1 & h2 & h3 & h4 & -> & _ & Hh)]]].
  - cbn [app string_body].
    change (N.eqb backslash dquote) with false. cbv iota.
    change (N.eqb backslash backslash) with true. cbv iota.
    change (N.eqb dquote newline) with false. cbv iota. now rewrite IH.
  - cbn [app string_body].
    change (N.eqb backslash dquote) with false. cbv iota.
    change (N.eqb backslash backslash) with true. cbv iota.
    change (N.eqb backslash newline) with false. cbv iota. now rewrite IH.
  - cbn [app string_body].
    rewrite (proj2 (N.eqb_neq c dquote) Hq),
      (proj2 (N.eqb_neq c backslash) Hb).
    replace (c <? 32)%N with false by (symmetry; apply N.ltb_ge; lia).
    now rewrite IH.
  - repeat (apply Forall_cons_iff in Hh; destruct Hh as [? Hh]).
    cbn [app string_body].
    change (N.eqb backslash dquote) with false. cbv iota.
    change (N.eqb backslash backslash) with true. cbv iota.
    change (N.eqb (ord "u") newline) with false. cbv iota.
    repeat match goal with
           | Hr : hex_range ?h |- context [N.eqb ?h dquote] =>
               destruct (hex_range_digit h Hr) as (-> & -> & -> & _);
               clear Hr
           end.
    now rewrite IH.
Qed.

(** A written string is one lexeme, and the validator gives the string
    back. *)
Lemma quoted_match s x :
  str_ok s -> match_token udb (quoted s ++ x) = Some (STRING, quoted s, x).
Proof.
  intros Hs. unfold match_token, alternatives, first_match, match_string.
  unfold quoted. cbn [app]. rewrite N.eqb_refl, <- app_assoc. cbn [app].
  now rewrite (escape_body s x Hs).
Qed.

Lemma quoted_validate s ts :
  str_ok s -> _validate_string udb (quoted s) ts = Return s.
Proof.
  intros Hs. unfold quoted.
  destruct (json_unescape_decoded udb _ (flat_map escape_char s) s 0 ts
              (Nat.le_refl _) (escape_solidus s Hs) (escape_unescape s Hs))
    as [Hc Hu].
  rewrite validate_string_closed, Hc,
    (utf8_encode_ascii _ (escape_ascii s Hs)).
  unfold unicode_escape_decode. rewrite Hu.
  replace (existsb is_surrogate s) with false; [reflexivity|].
  symmetry. clear Hc Hu. induction Hs as [|c s [_ Hc] _ IH]; [reflexivity|].
  cbn [existsb]. now rewrite Hc, IH.
Qed.

Lemma quoted_lex s x pos :
  str_ok s ->
  lex_from udb (quoted s ++ x) pos =
  gen_yield {| tok_kind := STRING; tok_value := PyStr s; tok_offset := pos |}
    (lex_from udb x (pos + length (quoted s))).
Proof.
  intros Hs.
  apply (lex_from_token udb _ pos STRING (quoted s) x (PyStr s)).
  - now apply quoted_match.
  - discriminate.
  - unfold token_value. cbn [m_kind m_group m_start].
    now rewrite quoted_validate.
Qed.

End Strings.

(** ** Numbers *)

Section Numbers.

Variable udb : UnicodeData.

(** What a delimited text begins with is no part of a number. *)
Lemma delimited_head c x :
  delimited (c :: x) ->
  is_digit udb c = false /\ N.eqb c 46 = false /\ N.eqb c 45 = false /\
  N.eqb c 101 || N.eqb c 69 = false.
Proof.
  cbn [delimited]. intros [ -> | [ -> | -> ] ]; repeat split.
Qed.

Lemma digits_ext : forall s d r x,
  digits udb s = (d, r) -> delimited x ->
  digits udb (s ++ x) = (d, r ++ x).
Proof.
  induction s as [|c s IH]; intros d r x H Hx.
  - cbn in H. injection H as <- <-. cbn [app].
    destruct x as [|c x]; [reflexivity|].
    cbn [digits]. now rewrite (proj1 (delimited_head c x Hx)).
  - cbn [digits app] in *. destruct (is_digit udb c).
    + destruct (digits udb s) as [d' r'] eqn:E. injection H as <- <-.
      now rewrite (IH d' r' x eq_refl Hx).
    + now injection H as <- <-.
Qed.

Lemma int_part_ext s i r x :
  int_part udb s = Some (i, r) -> delimited x ->
  int_part udb (s ++ x) = Some (i, r ++ x).
Proof.
  unfold int_part. destruct s as [|c s]; [discriminate|]. cbn [app].
  destruct (N.eqb c 48); [intros H _; now injection H as <- <-|].
  destruct ((49 <=? c)%N && (c <=? 57)%N); [|discriminate].
  destruct (digits udb s) as [d r'] eqn:E. intros H Hx.
  injection H as <- <-. now rewrite (digits_ext s d r' x E Hx).
Qed.

Lemma frac_part_ext s f r x :
  frac_part udb s = (f, r) -> delimited x ->
  frac_part udb (s ++ x) = (f, r ++ x).
Proof.
  unfold frac_part. destruct s as [|c s]; cbn [app].
  - intros H Hx. injection H as <- <-. destruct x as [|c x]; [reflexivity|].
    destruct (delimited_head c x Hx) as (_ & -> & _). reflexivity.
  - destruct (N.eqb c 46); [|intros H _; now injection H as <- <-].
    destruct (digits udb s) as [d r'] eqn:E. intros H Hx.
    rewrite (digits_ext s d r' x E Hx).
    destruct d; now injection H as <- <-.
Qed.

Lemma exp_part_ext s e r x :
  exp_part udb s = (e, r) -> delimited x ->
  exp_part udb (s ++ x) = (e, r ++ x).
Proof.
  unfold exp_part. destruct s as [|c s]; cbn [app].
  - intros H Hx. injection H as <- <-. destruct x as [|c x]; [reflexivity|].
    destruct (delimited_head c x Hx) as (_ & _ & _ & ->). reflexivity.
  - destruct (N.eqb c 101 || N.eqb c 69);
      [|intros H _; now injection H as <- <-].
    destruct s as [|g s]; cbn [app].
    + intros H Hx. injection H as <- <-.
      destruct x as [|g x]; [reflexivity|].
      destruct (delimited_head g x Hx) as (Hd & _ & Hm & _).
      replace (N.eqb g 43 || N.eqb g 45) with false.
      * cbn [digits]. now rewrite Hd.
      * symmetry. apply orb_false_iff. split; [|exact Hm].
        cbn [delimited] in Hx. destruct Hx as [ -> | [ -> | -> ] ];
          reflexivity.
    + destruct (N.eqb g 43 || N.eqb g 45).
      * destruct (digits udb s) as [d r'] eqn:E. intros H Hx.
        rewrite (digits_ext s d r' x E Hx).
        destruct d; now injection H as <- <-.
      * destruct (digits udb (g :: s)) as [d r'] eqn:E. intros H Hx.
        change (g :: s ++ x) with ((g :: s) ++ x).
        rewrite (digits_ext (g :: s) d r' x E Hx).
        destruct d; now injection H as <- <-.
Qed.

Lemma minus_part_ext s m r x :
  minus_part s = (m, r) -> delimited x ->
  minus_part (s ++ x) = (m, r ++ x).
Proof.
  unfold minus_part. destruct s as [|c s]; cbn [app].
  - intros H Hx. injection H as <- <-. destruct x as [|c x]; [reflexivity|].
    destruct (delimited_head c x Hx) as (_ & _ & -> & _). reflexivity.
  - destruct (N.eqb c 45); intros H _; now injection H as <- <-.
Qed.

(** A lexeme of a number before a delimited text is matched as it is
    alone. *)
Lemma match_number_ext s lx r x :
  match_number udb s = Some (lx, r) -> delimited x ->
  match_number udb (s ++ x) = Some (lx, r ++ x).
Proof.
  unfold match_number. intros H Hx.
  destruct (minus_part s) as [m s1] eqn:Em.
  rewrite (minus_part_ext s m s1 x Em Hx).
  destruct (int_part udb s1) as [[i s2]|] eqn:Ei; [|discriminate].
  rewrite (int_part_ext s1 i s2 x Ei Hx).
  destruct (frac_part udb s2) as [f s3] eqn:Ef.
  rewrite (frac_part_ext s2 f s3 x Ef Hx).
  destruct (exp_part udb s3) as [e s4] eqn:Ee.
  rewrite (exp_part_ext s3 e s4 x Ee Hx).
  now injection H as <- <-.
Qed.

Lemma number_not_string s lx r :
  match_number udb s = Some (lx, r) -> match_string s = None.
Proof.
  unfold match_number, match_string, minus_part, int_part.
  destruct s as [|c s]; [reflexivity|].
  destruct (N.eqb_spec c dquote) as [->|]; [|reflexivity].
  cbn. discriminate.
Qed.

Lemma number_lex s v x pos :
  match_number udb s = Some (s, []) ->
  number_value udb s = Return v ->
  delimited x ->
  lex_from udb (s ++ x) pos =
  gen_yield {| tok_kind := NUMBER; tok_value := v; tok_offset := pos |}
    (lex_from udb x (pos + length s)).
Proof.
  intros Hm Hv Hx.
  pose proof (match_number_ext s s [] x Hm Hx) as Hm'. cbn [app] in Hm'.
  apply (lex_from_token udb _ pos NUMBER s x v).
  - unfold match_token, alternatives, first_match.
    now rewrite (number_not_string _ _ _ Hm'), Hm'.
  - discriminate.
  - exact Hv.
Qed.

(** *** Integers in decimal *)

Lemma decimal_value_digit k :
  (k < 10)%N -> decimal_value udb (48 + k)%N = Some k.
Proof.
  intros Hk. unfold decimal_value.
  replace (48 + k <? 128)%N with true by (symmetry; apply N.ltb_lt; lia).
  replace ((48 <=? 48 + k) && (48 + k <=? 57))%N with true.
  - f_equal. lia.
  - symmetry. apply andb_true_iff. split; apply N.leb_le; lia.
Qed.

Lemma div_mod_10 n :
  (n = 10 * (n / 10) + n mod 10 /\ n mod 10 < 10)%N.
Proof.
  split; [apply N.Div0.div_mod | now apply N.mod_upper_bound].
Qed.

Lemma decimal_fuel_digits fuel : forall n,
  Forall is_digit_char (decimal_fuel fuel n).
Proof.
  induction fuel as [|fuel IH]; intros n; cbn [decimal_fuel];
    [constructor|].
  destruct (N.ltb_spec n 10).
  - constructor; [unfold is_digit_char; lia | constructor].
  - apply Forall_app. split; [apply IH|].
    destruct (div_mod_10 n) as [_ Hm].
    constructor; [|constructor]. unfold is_digit_char.
    generalize dependent (n mod 10)%N. intros; lia.
Qed.

Lemma decimal_fuel_head fuel : forall n,
  (1 <= n)%N -> (n < 10 ^ N.of_nat fuel)%N ->
  exists c rest,
    decimal_fuel fuel n = c :: rest /\ (49 <= c <= 57)%N.
Proof.
  induction fuel as [|fuel IH]; intros n H1 Hn.
  - cbn in Hn. lia.
  - cbn [decimal_fuel]. destruct (N.ltb_spec n 10).
    + exists (48 + n)%N, []. split; [reflexivity | lia].
    + rewrite Nnat.Nat2N.inj_succ, N.pow_succ_r' in Hn.
      destruct (div_mod_10 n) as [Hd Hm].
      destruct (IH (n / 10)%N) as (c & rest & E & Hc).
      * generalize dependent (n / 10)%N. generalize dependent (n mod 10)%N.
        intros; lia.
      * generalize dependent (n / 10)%N. generalize dependent (n mod 10)%N.
        generalize dependent (10 ^ N.of_nat fuel)%N. intros; lia.
      * rewrite E. now exists c, (rest ++ [(48 + n mod 10)%N]).
Qed.

Lemma digits_value_snoc c d : forall s acc,
  decimal_value udb c = Some d ->
  digits_value udb (s ++ [c]) acc =
  option_map (fun v => (v * 10 + d)%N) (digits_value udb s acc).
Proof.
  induction s as [|a s IH]; intros acc Hc; cbn [app digits_value].
  - now rewrite Hc.
  - destruct (decimal_value udb a); [now apply IH | reflexivity].
Qed.

Lemma decimal_fuel_value fuel : forall n,
  (n < 10 ^ N.of_nat fuel)%N ->
  digits_value udb (decimal_fuel fuel n) 0 = Some n.
Proof.
  induction fuel as [|fuel IH]; intros n Hn.
  - cbn in Hn. cbn. f_equal. lia.
  - cbn [decimal_fuel]. destruct (N.ltb_spec n 10).
    + cbn [digits_value]. now rewrite (decimal_value_digit n H).
    + rewrite Nnat.Nat2N.inj_succ, N.pow_succ_r' in Hn.
      destruct (div_mod_10 n) as [Hd Hm].
      rewrite (digits_value_snoc _ (n mod 10)%N)
        by now apply decimal_value_digit.
      rewrite IH.
      * cbn [option_map]. f_equal.
        generalize dependent (n / 10)%N. generalize dependent (n mod 10)%N.
        intros; lia.
      * generalize dependent (n / 10)%N. generalize dependent (n mod 10)%N.
        generalize dependent (10 ^ N.of_nat fuel)%N. intros; lia.
Qed.

Lemma decimal_enough n :
  (n < 10 ^ N.of_nat (S (N.to_nat (N.size n))))%N.
Proof.
  rewrite Nnat.Nat2N.inj_succ, Nnat.N2Nat.id.
  apply N.lt_le_trans with (2 ^ N.size n)%N; [apply N.size_gt|].
  apply N.le_trans with (10 ^ N.size n)%N.
  - apply N.pow_le_mono_l. lia.
  - apply N.pow_le_mono_r; lia.
Qed.

Lemma digits_whole s :
  Forall is_digit_char s -> digits udb s = (s, []).
Proof.
  induction 1 as [|c s Hc _ IH]; [reflexivity|]. cbn [digits].
  rewrite is_digit_ascii, IH; [reflexivity|].
  unfold is_digit_char in Hc. apply andb_true_iff.
  split; apply N.leb_le; lia.
Qed.

Lemma no_float_mark s :
  Forall (fun c => c = 45%N \/ is_digit_char c) s ->
  has_float_mark s = false.
Proof.
  unfold has_float_mark, mem.
  change (text_of ".eE") with [46; 101; 69]%N. cbn [existsb].
  intros H.
  assert (G : forall k, (k = 46 \/ k = 101 \/ k = 69)%N ->
                        existsb (N.eqb k) s = false).
  { intros k Hk. induction H as [|c s Hc _ IH]; [reflexivity|].
    cbn [existsb]. rewrite IH, orb_false_r. apply N.eqb_neq.
    unfold is_digit_char in Hc. lia. }
  rewrite !G by lia. reflexivity.
Qed.

(** The decimal text of a positive number: a digit that is not zero,
    then digits. *)
Lemma decimal_shape p :
  exists c rest,
    decimal (Npos p) = c :: rest /\ (49 <= c <= 57)%N /\
    Forall is_digit_char rest.
Proof.
  destruct (decimal_fuel_head _ (Npos p) ltac:(lia)
              (decimal_enough (Npos p))) as (c & rest & E & Hc).
  exists c, rest. split; [exact E|]. split; [exact Hc|].
  pose proof (decimal_fuel_digits (S (N.to_nat (N.size (Npos p)))) (Npos p))
    as H.
  fold (decimal (Npos p)) in H. unfold decimal in E. unfold decimal in H.
  rewrite E in H. exact (Forall_inv_tail H).
Qed.

Lemma positive_match c rest :
  (49 <= c <= 57)%N -> Forall is_digit_char rest ->
  match_number udb (c :: rest) = Some (c :: rest, []) /\
  match_number udb (45%N :: c :: rest) = Some (45%N :: c :: rest, []).
Proof.
  intros Hc Hr. unfold match_number, minus_part, int_part.
  replace (N.eqb c 45) with false by (symmetry; apply N.eqb_neq; lia).
  rewrite N.eqb_refl.
  replace (N.eqb c 48) with false by (symmetry; apply N.eqb_neq; lia).
  replace ((49 <=? c)%N && (c <=? 57)%N) with true
    by (symmetry; apply andb_true_iff; split; apply N.leb_le; lia).
  rewrite (digits_whole rest Hr). cbn [frac_part exp_part app].
  now rewrite app_nil_r.
Qed.

Lemma int_text_number z :
  int_ok udb z ->
  match_number udb (int_text z) = Some (int_text z, []) /\
  number_value udb (int_text z) = Return (PyInt z).
Proof.
  unfold int_ok. intros Hok. destruct z as [|p|p]; cbn [Z.abs_N] in Hok.
  - split; [reflexivity|].
    change (decimal 0) with (text_of "0") in Hok.
    unfold number_value, py_int.
    change (has_float_mark (int_text 0)) with false.
    change (int_text 0) with (text_of "0"). cbn [text_of N.eqb].
    change (N.eqb 48 45) with false. cbv iota. rewrite Hok. reflexivity.
  - destruct (decimal_shape p) as (c & rest & E & Hc & Hr).
    cbn [int_text]. split.
    + rewrite E. apply (positive_match c rest Hc Hr).
    + unfold number_value. rewrite no_float_mark.
      * unfold py_int. rewrite E.
        replace (N.eqb c 45) with false by (symmetry; apply N.eqb_neq; lia).
        rewrite <- E, Hok. unfold decimal.
        now rewrite (decimal_fuel_value _ _ (decimal_enough (Npos p))).
      * rewrite E. constructor; [right; unfold is_digit_char; lia|].
        eapply Forall_impl; [|exact Hr]. intros a Ha. now right.
  - destruct (decimal_shape p) as (c & rest & E & Hc & Hr).
    cbn [int_text]. split.
    + rewrite E. apply (positive_match c rest Hc Hr).
    + unfold number_value. rewrite no_float_mark.
      * unfold py_int. rewrite N.eqb_refl, Hok. rewrite E at 1.
        unfold decimal.
        now rewrite (decimal_fuel_value _ _ (decimal_enough (Npos p))).
      * constructor; [now left|]. rewrite E.
        constructor; [right; unfold is_digit_char; lia|].
        eapply Forall_impl; [|exact Hr]. intros a Ha. now right.
Qed.

End Numbers.

(** ** Values *)

Lemma gen_prepend_app t1 t2 g :
  gen_prepend t1 (gen_prepend t2 g) = gen_prepend (t1 ++ t2) g.
Proof. unfold gen_prepend. cbn. now rewrite app_assoc. Qed.

Section Values.

Variable udb : UnicodeData.

Lemma spells_seq (D1 D2 : text -> Prop) s1 s2 g1 g2 :
  spells udb D1 s1 g1 -> spells udb D2 s2 g2 ->
  (forall x, D2 x -> D1 (s2 ++ x)) ->
  spells udb D2 (s1 ++ s2) (g1 ++ g2).
Proof.
  intros H1 H2 HD x pos Hx.
  destruct (H1 (s2 ++ x) pos (HD x Hx)) as (t1 & Hg1 & E1).
  destruct (H2 x (pos + length s1) Hx) as (t2 & Hg2 & E2).
  exists (t1 ++ t2). split; [now rewrite map_app, Hg1, Hg2|].
  rewrite <- app_assoc, E1, E2, gen_prepend_app, length_app.
  now rewrite Nat.add_assoc.
Qed.

Lemma spells_weaken (D D' : text -> Prop) s g :
  spells udb D s g -> (forall x, D' x -> D x) -> spells udb D' s g.
Proof. intros H HD x pos Hx. apply H. now apply HD. Qed.

Lemma spells_one (D : text -> Prop) s k v :
  (forall x pos,
     D x ->
     lex_from udb (s ++ x) pos =
     gen_yield {| tok_kind := k; tok_value := v; tok_offset := pos |}
       (lex_from udb x (pos + length s))) ->
  spells udb D s [(k, v)].
Proof.
  intros H x pos Hx.
  exists [{| tok_kind := k; tok_value := v; tok_offset := pos |}].
  split; [reflexivity|]. now rewrite (H x pos Hx).
Qed.

Lemma spells_punct c k :
  In (c, k) [(91, BRACKET); (93, BRACKET); (123, BRACE); (125, BRACE);
             (58, COLON); (44, COMMA)]%N ->
  spells udb any_text [c] [(k, PyStr [c])].
Proof.
  intros H. apply spells_one. intros x pos _.
  exact (lex_from_single udb c k x pos H).
Qed.

Lemma spells_quoted s :
  str_ok s -> spells udb any_text (quoted s) [(STRING, PyStr s)].
Proof.
  intros H. apply spells_one. intros x pos _. now apply quoted_lex.
Qed.

Lemma spells_number s v :
  match_number udb s = Some (s, []) -> number_value udb s = Return v ->
  spells udb delimited s [(NUMBER, v)].
Proof.
  intros Hm Hv. apply spells_one. intros x pos Hx. now apply number_lex.
Qed.

Lemma spells_literal s v :
  In (s, v) [(text_of "true", PyBool true); (text_of "false", PyBool false);
             (text_of "null", PyNone)] ->
  spells udb any_text s [(LITERAL, v)].
Proof.
  intros H. apply spells_one. intros x pos _.
  apply (lex_from_token udb _ pos LITERAL s x v).
  - cbn [In] in H.
    repeat (destruct H as [H|H]; [injection H as <- <-; reflexivity|]).
    contradiction.
  - discriminate.
  - cbn [In] in H.
    repeat (destruct H as [H|H]; [injection H as <- <-; reflexivity|]).
    contradiction.
Qed.

Lemma delimited_comma x : delimited (text_of "," ++ x).
Proof. now left. Qed.

Lemma delimited_bracket x : delimited (text_of "]" ++ x).
Proof. right. now left. Qed.

Lemma delimited_brace x : delimited (text_of "}" ++ x).
Proof. right. now right. Qed.

(** The elements of an array and its closing bracket. *)
Lemma spells_elements items :
  Forall (fun v => spells udb delimited (dumps v) (tokens_of v)) items ->
  spells udb any_text (join_text (map dumps items) ++ text_of "]")
    (join (map tokens_of items) ++ [punct BRACKET "]"]).
Proof.
  induction 1 as [|v items Hv Hitems IH].
  - apply (spells_punct 93%N BRACKET). cbn. auto 10.
  - destruct items as [|v2 items].
    + cbn [map join_text join].
      apply (spells_seq delimited any_text); [exact Hv | |].
      * apply (spells_punct 93%N BRACKET). cbn. auto 10.
      * intros x _. apply delimited_bracket.
    + change (join_text (map dumps (v :: v2 :: items)))
        with (dumps v ++ text_of "," ++ join_text (map dumps (v2 :: items))).
      change (join (map tokens_of (v :: v2 :: items)))
        with (tokens_of v ++
              punct COMMA "," :: join (map tokens_of (v2 :: items))).
      rewrite <- !app_assoc.
      apply (spells_seq delimited any_text (dumps v)
               (text_of "," ++ join_text (map dumps (v2 :: items))
                ++ text_of "]")
               (tokens_of v)
               ([punct COMMA ","] ++
                join (map tokens_of (v2 :: items)) ++ [punct BRACKET "]"]));
        [exact Hv | |].
      * apply (spells_seq any_text any_text (text_of ",")
                 (join_text (map dumps (v2 :: items)) ++ text_of "]")
                 [punct COMMA ","]
                 (join (map tokens_of (v2 :: items))
                  ++ [punct BRACKET "]"]));
          [| exact IH | easy].
        apply (spells_punct 44%N COMMA). cbn. auto 10.
      * intros x _. rewrite <- app_assoc. apply delimited_comma.
Qed.

(** The members of an object and its closing brace. *)
Lemma spells_members entries :
  Forall (fun kv : text * pyval =>
            str_ok (fst kv) /\
            spells udb delimited (dumps (snd kv)) (tokens_of (snd kv)))
    entries ->
  spells udb any_text
    (join_text (map (fun kv : text * pyval =>
                       let (k, x) := kv in
                       quoted k ++ text_of ":" ++ dumps x) entries)
     ++ text_of "}")
    (join (map (fun kv : text * pyval =>
                  let (k, x) := kv in member_tokens k (tokens_of x)) entries)
     ++ [punct BRACE "}"]).
Proof.
  induction 1 as [|[k v] entries [Hk Hv] Hentries IH].
  - apply (spells_punct 125%N BRACE). cbn. auto 10.
  - cbn [fst snd] in Hk, Hv.
    assert (Hmember : forall (D : text -> Prop) s g,
              spells udb D s g ->
              (forall x, D x -> delimited (s ++ x)) ->
              spells udb D (quoted k ++ text_of ":" ++ dumps v ++ s)
                (member_tokens k (tokens_of v) ++ g)).
    { intros D s g Hs HD.
      apply (spells_seq any_text D (quoted k)
               (text_of ":" ++ dumps v ++ s) [(STRING, PyStr k)]
               ([punct COLON ":"] ++ tokens_of v ++ g));
        [now apply spells_quoted | | easy].
      apply (spells_seq any_text D (text_of ":") (dumps v ++ s)
               [punct COLON ":"] (tokens_of v ++ g)); [| | easy].
      - apply (spells_punct 58%N COLON). cbn. auto 10.
      - apply (spells_seq delimited D); assumption. }
    destruct entries as [|kv2 entries].
    + cbn [map join_text join]. rewrite <- !app_assoc.
      apply (Hmember any_text (text_of "}") [punct BRACE "}"]).
      * apply (spells_punct 125%N BRACE). cbn. auto 10.
      * intros x _. apply delimited_brace.
    + change (join_text
                (map (fun kv : text * pyval =>
                        let (k0, x) := kv in
                        quoted k0 ++ text_of ":" ++ dumps x)
                   ((k, v) :: kv2 :: entries)))
        with ((quoted k ++ text_of ":" ++ dumps v) ++ text_of "," ++
              join_text
                (map (fun kv : text * pyval =>
                        let (k0, x) := kv in
                        quoted k0 ++ text_of ":" ++ dumps x)
                   (kv2 :: entries))).
      change (join
                (map (fun kv : text * pyval =>
                        let (k0, x) := kv in member_tokens k0 (tokens_of x))
                   ((k, v) :: kv2 :: entries)))
        with (member_tokens k (tokens_of v) ++
              [punct COMMA ","] ++
              join
                (map (fun kv : text * pyval =>
                        let (k0, x) := kv in member_tokens k0 (tokens_of x))
                   (kv2 :: entries))).
      rewrite <- !app_assoc.
      apply (Hmember any_text
               (text_of "," ++
                join_text
                  (map (fun kv : text * pyval =>
                          let (k0, x) := kv in
                          quoted k0 ++ text_of ":" ++ dumps x)
                     (kv2 :: entries)) ++ text_of "}")
               ([punct COMMA ","] ++
                join
                  (map (fun kv : text * pyval =>
                          let (k0, x) := kv in
                          member_tokens k0 (tokens_of x))
                     (kv2 :: entries)) ++ [punct BRACE "}"])).
      * apply (spells_seq any_text any_text (text_of ",")
                 (join_text
                    (map (fun kv : text * pyval =>
                            let (k0, x) := kv in
                            quoted k0 ++ text_of ":" ++ dumps x)
                       (kv2 :: entries)) ++ text_of "}")
                 [punct COMMA ","]
                 (join
                    (map (fun kv : text * pyval =>
                            let (k0, x) := kv in
                            member_tokens k0 (tokens_of x))
                       (kv2 :: entries)) ++ [punct BRACE "}"]));
          [| exact IH | easy].
        apply (spells_punct 44%N COMMA). cbn. auto 10.
      * intros x _. apply delimited_comma.
Qed.

(** The text of a value gives the tokens of the value. *)
Lemma spells_value : forall v,
  writable udb v -> spells udb delimited (dumps v) (tokens_of v).
Proof.
  apply (pyval_nested_ind
           (fun v => writable udb v ->
                     spells udb delimited (dumps v) (tokens_of v))).
  - intros s Hs. apply (spells_weaken any_text); [|easy].
    now apply spells_quoted.
  - intros z Hw. destruct (int_text_number udb z Hw) as [Hm Hv].
    now apply (spells_number (int_text z) (PyInt z)).
  - intros s [Hf Hm]. apply (spells_number s (PyFloat s)); [exact Hm|].
    unfold number_value. now rewrite Hf.
  - intros [|] _; apply (spells_weaken any_text); try easy;
      apply spells_literal; cbn; auto.
  - intros _. apply (spells_weaken any_text); [|easy].
    apply spells_literal. cbn. auto.
  - intros items IH Hw. cbn [writable] in Hw.
    apply fold_and_Forall in Hw.
    apply (spells_weaken any_text); [|easy].
    cbn [dumps tokens_of].
    change (punct BRACKET "[" ::
              join (map tokens_of items) ++ [punct BRACKET "]"])
      with ([punct BRACKET "["] ++
            join (map tokens_of items) ++ [punct BRACKET "]"]).
    apply (spells_seq any_text any_text); [| | easy].
    + apply (spells_punct 91%N BRACKET). cbn. auto 10.
    + apply spells_elements.
      induction IH as [|x items Hx _ IHi]; [constructor|].
      apply Forall_cons_iff in Hw. destruct Hw as [Hwx Hw].
      constructor; [now apply Hx | now apply IHi].
  - intros entries IH Hw. cbn [writable] in Hw.
    apply (spells_weaken any_text); [|easy].
    cbn [dumps tokens_of].
    change (punct BRACE "{" ::
              join (map (fun kv : text * pyval =>
                           let (k, x) := kv in
                           member_tokens k (tokens_of x)) entries)
              ++ [punct BRACE "}"])
      with ([punct BRACE "{"] ++
            join (map (fun kv : text * pyval =>
                         let (k, x) := kv in
                         member_tokens k (tokens_of x)) entries)
            ++ [punct BRACE "}"]).
    apply (spells_seq any_text any_text); [| | easy].
    + apply (spells_punct 123%N BRACE). cbn. auto 10.
    + apply spells_members.
      induction IH as [|[k x] entries Hx _ IHe]; [constructor|].
      cbn [fold_right] in Hw. destruct Hw as [[Hk Hwx] Hw].
      constructor; [split; [exact Hk | now apply Hx] | now apply IHe].
Qed.

End Values.

(** X16. Compact texts are read back. For a list or a dict whose
    strings and keys are of characters of the basic plane other than
    surrogates, whose integers have no more decimal digits than [int]
    converts (at most 640, or at most the limit of the interpreter, if it
    has one), whose floats are lexemes of floats, in which no value lies
    under more than [max_depth] containers and no dict has a key twice,
    [parse] of the compact text of the value returns the value. *)
Theorem compact_text_is_read_back : forall udb max_depth allow_dup v,
  is_container v -> writable udb v -> fits max_depth 0 v ->
  distinct_keys v ->
  parse udb max_depth allow_dup (dumps v) = Some (Return v).
Proof.
  intros udb max_depth allow_dup v Hc Hw Hfit Hdk.
  destruct (spells_value udb v Hw [] 0 I) as (toks & Hsig & E).
  rewrite app_nil_r, lex_from_nil in E.
  change (lex_from udb (dumps v) 0) with (lex udb (dumps v)) in E.
  assert (Hy : yields (lex udb (dumps v)) = toks)
    by (rewrite E; apply app_nil_r).
  apply parse_grammar. split; [now rewrite E|].
  exists v. rewrite Hy.
  exact (conj Hsig (conj Hc (conj Hfit
           (conj (fun _ => Hdk) (eq_sym (merge_distinct v Hdk)))))).
Qed.

Lemma compact_text_is_read_back_witness :
  parse ascii_only 19 false
    (jtext "{'k\'\u00e9':[-120,3.5e1,true,null,'a\\\u000a',{}]}")
  = Some (Return
    (PyDict
     [([107; 34; 233]%N,
       PyList [PyInt (-120); PyFloat (text_of "3.5e1"); PyBool true; PyNone;
               PyStr [97; 92; 10]%N; PyDict []])])).
Proof.
  apply (compact_text_is_read_back ascii_only 19 false
    (PyDict
     [([107; 34; 233]%N,
       PyList [PyInt (-120); PyFloat (text_of "3.5e1"); PyBool true; PyNone;
               PyStr [97; 92; 10]%N; PyDict []])])).
  - exact I.
  - cbn. repeat split; repeat constructor.
  - cbn. repeat split; discriminate.
  - cbn. repeat split; try exact I.
    + constructor; [intros [] | constructor].
    + constructor.
Defined.
